(** * Yosys: temporal induction on [$equiv] cells and the [opt_compare] pass

    A shallow embedding of

    - [EquivInductWorker] and [EquivInductPass] (the [equiv_induct] command),
    - the two revisions of [optimize_compares] (the [opt_compare] command),

    together with the properties their specification states about them.

    The SAT back end ([ezSAT], [SatGen]) and the RTLIL kernel are not part of
    the embedded sources.  The worker is therefore written against an
    interface ([EzSat]); a small reference solver implements the interface so
    that whole runs can be evaluated. *)

From Stdlib Require Import ZArith Lia List String Ascii Bool.
From stdpp Require Import base option list gmap strings.

Local Open Scope string_scope.
Local Open Scope Z_scope.

(** ** Outcome of a computation that may hit an assertion *)

(** [log_assert], [std::vector::at] and [dict::at] end the command when they
    fail.  [Abort] records which of them did. *)
Inductive Failure :=
| AssertStepDefined (step : Z)      (* log_assert(!ez_step_is_consistent.count(step)) *)
| AssertSingleBit                   (* SigSpec::to_single_sigbit on width <> 1 *)
| MissingPort (port : string)       (* Cell::getPort on an absent port *)
| DanglingCell (cell : string)      (* a Cell* that the module does not own *)
| IndexOutOfRange                   (* SigSpec::operator[] past the end *)
| NegativeWidth                     (* SigSpec(State, width) with width < 0 *)
| NameInUse (name : string).        (* Module::add on a name already taken *)

Inductive Result (A : Type) :=
| Ok (a : A)
| Abort (f : Failure).
Arguments Ok {A} a.
Arguments Abort {A} f.

Definition is_ok {A} (r : Result A) : bool :=
  match r with Ok _ => true | Abort _ => false end.

Definition result_bind {A B} (r : Result A) (k : A -> Result B) : Result B :=
  match r with
  | Ok a => k a
  | Abort f => Abort f
  end.

Notation "'let?' x ':=' r 'in' k" := (result_bind r (fun x => k))
  (at level 10, x pattern, r at level 100, k at level 200).

(** ** RTLIL data model *)

Module RTLIL.

Inductive State := S0 | S1 | Sx | Sz.

#[global] Instance State_eq_dec : EqDecision State.
Proof. solve_decision. Defined.

(** A signal bit: one bit of a named wire, or a constant. *)
Inductive SigBit :=
| WireBit (wire : string) (offset : nat)
| ConstBit (data : State).

#[global] Instance SigBit_eq_dec : EqDecision SigBit.
Proof. solve_decision. Defined.

(** [SigSpec] and [Const] are vectors of bits. *)
Abbreviation SigSpec := (list SigBit).
Abbreviation Const := (list State).

(** [Const::as_bool]: some bit is 1. *)
Definition as_bool (c : Const) : bool :=
  existsb (fun b => bool_decide (b = S1)) c.

(** [Const::as_int(false)]: the low 32 bits, read as a two's complement
    [int]. *)
Fixpoint bits_value (c : Const) : Z :=
  match c with
  | [] => 0
  | b :: c' => (if bool_decide (b = S1) then 1 else 0) + 2 * bits_value c'
  end.

Definition as_int (c : Const) : Z :=
  let v := bits_value (firstn 32 c) in
  if v <? 2 ^ 31 then v else v - 2 ^ 32.

(** [SigSpec::to_single_sigbit]: asserts that the signal is one bit wide. *)
Definition to_single_sigbit (s : SigSpec) : Result SigBit :=
  match s with
  | [b] => Ok b
  | _ => Abort AssertSingleBit
  end.

(** [SigSpec(RTLIL::State bit, int width)]. *)
Definition SigSpec_fill (bit : State) (width : Z) : Result SigSpec :=
  if width <? 0 then Abort NegativeWidth
  else Ok (replicate (Z.to_nat width) (ConstBit bit)).

(** [sig[index]] as an rvalue, and [sig[index] = bit]. *)
Definition SigSpec_at (s : SigSpec) (index : Z) : Result SigBit :=
  if index <? 0 then Abort IndexOutOfRange
  else match s !! Z.to_nat index with
       | Some b => Ok b
       | None => Abort IndexOutOfRange
       end.

Definition SigSpec_set (s : SigSpec) (index : nat) (b : SigBit) : Result SigSpec :=
  if bool_decide (index < length s)%nat then Ok (<[index := b]> s)
  else Abort IndexOutOfRange.

(** A cell.  A [Cell*] is represented by the name under which the module
    owns the cell, so the record does not repeat the name. *)
Record Cell := mkCell {
  type : string;
  connections_ : gmap string SigSpec;
  parameters : gmap string Const;
}.

#[global] Instance Cell_eq_dec : EqDecision Cell.
Proof. solve_decision. Defined.

(** [cell->getPort(name)] is [connections_.at(name)]. *)
Definition getPort (c : Cell) (port : string) : Result SigSpec :=
  match connections_ c !! port with
  | Some s => Ok s
  | None => Abort (MissingPort port)
  end.

(** [cell->setPort(name, sig)]. *)
Definition setPort (c : Cell) (port : string) (s : SigSpec) : Cell :=
  mkCell (type c) (<[port := s]> (connections_ c)) (parameters c).

(** [cell->parameters[name]] is [dict::operator[]]: it yields the constant
    stored under [name], and an absent [name] is first entered into the
    dictionary of the cell, with an empty constant.  [param] is the constant
    that the access yields, [enter_param] the cell as the access leaves
    it. *)
Definition param (c : Cell) (name : string) : Const :=
  default [] (parameters c !! name).

Definition enter_param (c : Cell) (name : string) : Cell :=
  match parameters c !! name with
  | Some _ => c
  | None => mkCell (type c) (connections_ c) (<[name := []]> (parameters c))
  end.

(** A module: the cells it owns, by name, and its connection list. *)
Record Module := mkModule {
  cells_ : gmap string Cell;
  connections : list (SigSpec * SigSpec);
}.

#[global] Instance Module_eq_dec : EqDecision Module.
Proof. solve_decision. Defined.

Definition deref (m : Module) (cell : string) : Result Cell :=
  match cells_ m !! cell with
  | Some c => Ok c
  | None => Abort (DanglingCell cell)
  end.

(** The module [m] with [c] as its cell [cell]. *)
Definition set_cell (m : Module) (cell : string) (c : Cell) : Module :=
  mkModule (<[cell := c]> (cells_ m)) (connections m).

(** [cell->parameters[name]] for the cell that [m] owns as [cell]: the
    constant that the access yields, and the module with the cell as the
    access leaves it. *)
Definition parameter (m : Module) (cell name : string) : Result (Const * Module) :=
  let? c := deref m cell in
  Ok (param c name, set_cell m cell (enter_param c name)).

(** The effect of [cell->setPort(port, sig)] on the module owning [cell]. *)
Definition module_setPort (m : Module) (cell port : string) (s : SigSpec) : Module :=
  mkModule (alter (fun c => setPort c port s) cell (cells_ m)) (connections m).

(** [module->connect(lhs, rhs)]. *)
Definition connect (m : Module) (lhs rhs : SigSpec) : Module :=
  mkModule (cells_ m) (connections m ++ [(lhs, rhs)]).

(** [module->remove(cell)]. *)
Definition remove (m : Module) (cell : string) : Result Module :=
  match cells_ m !! cell with
  | Some _ => Ok (mkModule (delete cell (cells_ m)) (connections m))
  | None => Abort (DanglingCell cell)
  end.

Definition bool_const (b : bool) : Const := [if b then S1 else S0].

(** [Const(int val, 32)]. *)
Definition int_const (v : Z) : Const :=
  map (fun i => if Z.testbit v (Z.of_nat i) then S1 else S0) (seq 0 32).

(** [module->addNot(name, sig_a, sig_y, is_signed)]: a fresh [$not] cell;
    [Module::add] asserts that the name is free. *)
Definition addNot (m : Module) (name : string) (sig_a sig_y : SigSpec)
    (is_signed : bool) : Result Module :=
  match cells_ m !! name with
  | Some _ => Abort (NameInUse name)
  | None =>
      let c := mkCell "$not"
                 (<["\Y" := sig_y]> (<["\A" := sig_a]> ∅))
                 (<["\Y_WIDTH" := int_const (Z.of_nat (length sig_y))]>
                    (<["\A_WIDTH" := int_const (Z.of_nat (length sig_a))]>
                       (<["\A_SIGNED" := bool_const is_signed]> ∅))) in
      Ok (mkModule (<[name := c]> (cells_ m)) (connections m))
  end.

(** A design: its modules and the current selection. *)
Record Design := mkDesign {
  modules_ : gmap string Module;
  selected_module : string -> bool;
  selected_member : string -> string -> bool;
}.

(** [design->selected_modules()], as module names. *)
Definition selected_modules (d : Design) : list string :=
  filter (fun n => selected_module d n = true) (map fst (map_to_list (modules_ d))).

(** [module->selected_cells()], as cell names. *)
Definition selected_cells (d : Design) (mname : string) (m : Module) : list string :=
  filter (fun n => selected_member d mname n = true) (map fst (map_to_list (cells_ m))).

Definition set_module (d : Design) (mname : string) (m : Module) : Design :=
  mkDesign (<[mname := m]> (modules_ d)) (selected_module d) (selected_member d).

End RTLIL.
Export RTLIL.

(** ** Signal canonicalisation *)

Module SigTools.

(** Modelled from the spec: the signal canonicalizer ([SigMap] of
    kernel/sigtools.h, which is not among the embedded sources).  It "builds
    a union-find over signal bits from the module's wire aliasing (direct
    wire-to-wire connections)", "constant bits are their own
    representatives", and "exposes canon(bit)".

    The database maps every bit it knows to the representative of its class;
    a bit it does not know stands for itself. *)
Definition Database := list (SigBit * SigBit).

Fixpoint lookup_rep (db : Database) (b : SigBit) : option SigBit :=
  match db with
  | [] => None
  | (k, v) :: db' => if bool_decide (k = b) then Some v else lookup_rep db' b
  end.

Definition find_rep (db : Database) (b : SigBit) : SigBit :=
  default b (lookup_rep db b).

Definition is_wire (b : SigBit) : bool :=
  match b with WireBit _ _ => true | ConstBit _ => false end.

(** Union of the classes of two bits.  Two constants are never merged; a
    constant becomes the representative of the class it joins. *)
Definition merge_classes (db : Database) (from to : SigBit) : Database :=
  let rf := find_rep db from in
  let rt := find_rep db to in
  if bool_decide (rf = rt) then db
  else if negb (is_wire rf) && negb (is_wire rt) then db
  else
    let rep := if is_wire rf then rt else rf in
    let old := if is_wire rf then rf else rt in
    (old, rep) :: map (fun kv => (fst kv, if bool_decide (snd kv = old) then rep else snd kv)) db.

Fixpoint merge_bits (db : Database) (from to : SigSpec) : Database :=
  match from, to with
  | f :: from', t :: to' => merge_bits (merge_classes db f t) from' to'
  | _, _ => db
  end.

Definition build_database (conns : list (SigSpec * SigSpec)) : Database :=
  fold_left (fun db c => merge_bits db (fst c) (snd c)) conns [].

(** [SigMap sigmap(module)], used as [sigmap(bit)]. *)
Definition SigMap (m : Module) : SigBit -> SigBit :=
  find_rep (build_database (connections m)).

End SigTools.
Export SigTools.

(** ** The SAT back end, as the worker sees it *)

(** The operations of [ezSAT] and [SatGen] that [equiv_induct] calls.  [S] is
    the state of the solver together with its signal importer; expressions
    and literals are [int]s.  Every operation that may touch the solver
    returns the new state. *)
Class EzSat (S : Type) := {
  (** [ezDefaultSAT ez; SatGen satgen(&ez, &sigmap)] *)
  ez_new : (SigBit -> SigBit) -> S;
  (** [satgen.importCell(cell, step)]: false when the cell type has no model *)
  importCell : Cell -> Z -> S -> bool * S;
  (** [satgen.importSigBit(bit, step)] *)
  importSigBit : SigBit -> Z -> S -> Z * S;
  ez_IFF : Z -> Z -> S -> Z * S;
  ez_XOR : Z -> Z -> S -> Z * S;
  ez_NOT : Z -> S -> Z * S;
  (** [ez.expression(ez.OpAnd, args)] *)
  ez_AND : list Z -> S -> Z * S;
  ez_assume : Z -> S -> S;
  ez_bind : Z -> S -> Z * S;
  (** [ez.solve()] and [ez.solve(a)]: true is SAT, false is UNSAT *)
  ez_solve : list Z -> S -> bool * S;
  numCnfClauses : S -> Z;
  numCnfVariables : S -> Z;
}.

(** ** What a run leaves behind: log lines, solver calls, port writes *)

(** The three places where [run] calls [ez.solve]. *)
Inductive Query :=
| QBase (step : Z)          (* ez.solve() in the base case of [step] *)
| QStep (step : Z)          (* ez.solve(new_step_not_consistent) *)
| QMarker (cell : string).  (* ez.solve(ez.XOR(ez_a, ez_b)) for one cell *)

Inductive Msg :=
| MsgHeader                                   (* Executing EQUIV_INDUCT pass. *)
| MsgFound (n : Z) (module : string)          (* Found %d unproven $equiv cells in module %s: *)
| MsgNoModel (cell type : string)             (* warning: No SAT model available for cell %s (%s). *)
| MsgBase (step clauses vars : Z)             (* Proving existence of base case for step %d. *)
| MsgDiverges                                 (* Proof for base case failed. Circuit inherently diverges! *)
| MsgStep (step clauses vars : Z)             (* Proving induction step %d. *)
| MsgHolds (n : Z)                            (* Proof for induction step holds. Entire workset of %d cells proven! *)
| MsgStepFailed (step : Z) (extending : bool) (* Proof for induction step failed. ... *)
| MsgTrying (y : SigSpec)                     (* Trying to prove $equiv for %s: *)
| MsgSuccess                                  (* success! *)
| MsgFailed                                   (* failed. *)
| MsgNoneFound (module : string)              (* No selected unproven $equiv cells found in %s. *)
| MsgProved (n : Z).                          (* Proved %d previously unproven $equiv cells. *)

Inductive Event :=
| Log (m : Msg)
| Solve (q : Query) (assumptions : list Z) (sat : bool)
| SetPort (cell port : string) (sig : SigSpec)
| CreateTimestep (step : Z).

#[global] Instance Query_eq_dec : EqDecision Query.
Proof. solve_decision. Defined.
#[global] Instance Msg_eq_dec : EqDecision Msg.
Proof. solve_decision. Defined.
#[global] Instance Event_eq_dec : EqDecision Event.
Proof. solve_decision. Defined.

(** ** [struct EquivInductWorker] *)

Module EquivInduct.

Section Worker.
Context {S : Type} `{EzSat S}.

(** The fields of the worker.  [module] is the module the worker points to:
    writes through a [Cell*] land there.  [sat] is [ez] with [satgen].
    [trace] is the history of the run: what was logged, which solver calls
    were made with which answer, which ports were written. *)
Record Worker := mkWorker {
  module_name : string;
  module : Module;
  sigmap : SigBit -> SigBit;
  cells : list string;
  workset : list string;
  sat : S;
  max_seq : Z;
  success_counter : Z;
  ez_step_is_consistent : gmap Z Z;
  cell_warn_cache : gset string;
  trace : list Event;
}.

Definition set_module (m : Module) (w : Worker) : Worker :=
  mkWorker (module_name w) m (sigmap w) (cells w) (workset w) (sat w) (max_seq w)
    (success_counter w) (ez_step_is_consistent w) (cell_warn_cache w) (trace w).

Definition set_sat (s : S) (w : Worker) : Worker :=
  mkWorker (module_name w) (module w) (sigmap w) (cells w) (workset w) s (max_seq w)
    (success_counter w) (ez_step_is_consistent w) (cell_warn_cache w) (trace w).

Definition set_success_counter (n : Z) (w : Worker) : Worker :=
  mkWorker (module_name w) (module w) (sigmap w) (cells w) (workset w) (sat w) (max_seq w)
    n (ez_step_is_consistent w) (cell_warn_cache w) (trace w).

Definition set_consistent (d : gmap Z Z) (w : Worker) : Worker :=
  mkWorker (module_name w) (module w) (sigmap w) (cells w) (workset w) (sat w) (max_seq w)
    (success_counter w) d (cell_warn_cache w) (trace w).

Definition set_warn_cache (c : gset string) (w : Worker) : Worker :=
  mkWorker (module_name w) (module w) (sigmap w) (cells w) (workset w) (sat w) (max_seq w)
    (success_counter w) (ez_step_is_consistent w) c (trace w).

Definition set_trace (t : list Event) (w : Worker) : Worker :=
  mkWorker (module_name w) (module w) (sigmap w) (cells w) (workset w) (sat w) (max_seq w)
    (success_counter w) (ez_step_is_consistent w) (cell_warn_cache w) t.

(** Computations over the worker: state passing, with assertion failure. *)
Definition M (A : Type) : Type := Worker -> Result (A * Worker).

Definition ret {A} (a : A) : M A := fun w => Ok (a, w).

Definition bind {A B} (m : M A) (k : A -> M B) : M B :=
  fun w => match m w with
           | Ok (a, w') => k a w'
           | Abort f => Abort f
           end.

Notation "'do' x <- m ; k" := (bind m (fun x => k))
  (at level 10, x pattern, m at level 100, k at level 200).
Notation "m ;; k" := (bind m (fun _ => k))
  (at level 100, k at level 200, right associativity).

Definition lift {A} (r : Result A) : M A :=
  fun w => match r with Ok a => Ok (a, w) | Abort f => Abort f end.

Definition get : M Worker := fun w => Ok (w, w).

Definition modify (f : Worker -> Worker) : M unit := fun w => Ok (tt, f w).

Fixpoint foldM {A B} (f : B -> A -> M B) (l : list A) (b : B) : M B :=
  match l with
  | [] => ret b
  | x :: l' => do b' <- f b x; foldM f l' b'
  end.

Fixpoint forM {A} (f : A -> M unit) (l : list A) : M unit :=
  match l with
  | [] => ret tt
  | x :: l' => f x;; forM f l'
  end.

(** *** Primitive steps *)

Definition emit (e : Event) : M unit :=
  modify (fun w => set_trace (trace w ++ [e])%list w).

Definition log (m : Msg) : M unit := emit (Log m).

(** A call into [ez] or [satgen] that returns a value. *)
Definition ez {A} (op : S -> A * S) : M A :=
  fun w => let '(a, s) := op (sat w) in Ok (a, set_sat s w).

(** [ez.solve(...)], remembered in the trace with its call site. *)
Definition solve (q : Query) (assumptions : list Z) : M bool :=
  do r <- ez (ez_solve assumptions);
  emit (Solve q assumptions r);;
  ret r.

(** [*cell] *)
Definition cell_of (cell : string) : M Cell :=
  do w <- get; lift (deref (module w) cell).

(** [cell->getPort(port)] *)
Definition cell_getPort (cell port : string) : M SigSpec :=
  do c <- cell_of cell; lift (getPort c port).

(** [cell->setPort(port, sig)] *)
Definition cell_setPort (cell port : string) (sig : SigSpec) : M unit :=
  modify (fun w => set_module (module_setPort (module w) cell port sig) w);;
  emit (SetPort cell port sig).

(** [sigmap(sig).to_single_sigbit()] *)
Definition mapped_bit (sig : SigSpec) : M SigBit :=
  do w <- get; lift (to_single_sigbit (map (sigmap w) sig)).

(** [ez_step_is_consistent[step]] as an rvalue: [dict::operator[]] enters a
    zero for a key that is not there yet. *)
Definition consistent_at (step : Z) : M Z :=
  do w <- get;
  match ez_step_is_consistent w !! step with
  | Some e => ret e
  | None => modify (set_consistent (<[step := 0]> (ez_step_is_consistent w)));; ret 0
  end.

(** *** [create_timestep] *)

(** The body of [for (auto cell : cells)]. *)
Definition timestep_cell (step : Z) (ez_equal_terms : list Z) (cell : string)
    : M (list Z) :=
  do c <- cell_of cell;
  do modelled <- ez (importCell c step);
  do w <- get;
  (if negb modelled && negb (bool_decide (cell ∈ cell_warn_cache w)) then
     log (MsgNoModel cell (type c));;
     modify (fun w => set_warn_cache ({[cell]} ∪ cell_warn_cache w) w)
   else ret tt);;
  if String.eqb (type c) "$equiv" then
    do a <- cell_getPort cell "\A";
    do bit_a <- mapped_bit a;
    do b <- cell_getPort cell "\B";
    do bit_b <- mapped_bit b;
    if bool_decide (bit_a <> bit_b) then
      do ez_a <- ez (importSigBit bit_a step);
      do ez_b <- ez (importSigBit bit_b step);
      do t <- ez (ez_IFF ez_a ez_b);
      ret (ez_equal_terms ++ [t])%list
    else ret ez_equal_terms
  else ret ez_equal_terms.

Definition create_timestep (step : Z) : M unit :=
  emit (CreateTimestep step);;
  do w <- get;
  do ez_equal_terms <- foldM (timestep_cell step) (cells w) [];
  do w <- get;
  match ez_step_is_consistent w !! step with
  | Some _ => lift (Abort (AssertStepDefined step))
  | None =>
      do e <- ez (ez_AND ez_equal_terms);
      modify (fun w => set_consistent (<[step := e]> (ez_step_is_consistent w)) w)
  end.

(** *** [run] *)

(** [cell->setPort("\\B", cell->getPort("\\A"))] *)
Definition alias_B_to_A (cell : string) : M unit :=
  do a <- cell_getPort cell "\A";
  cell_setPort cell "\B" a.

Definition add_success (n : Z) : M unit :=
  modify (fun w => set_success_counter (success_counter w + n) w).

(** How the [for] loop over the steps is left: by [return], or by [break]
    and by running past [max_seq]. *)
Inductive LoopExit := Returned | FellThrough.

(** [for (int step = 1; step <= max_seq; step++)], entered at [step] with
    [n] iterations to go.  [int] arithmetic is exact here: [step] never
    exceeds [max_seq + 1]. *)
Fixpoint induct (n : nat) (step : Z) : M LoopExit :=
  match n with
  | O => ret FellThrough
  | Datatypes.S n' =>
      do c <- consistent_at step;
      modify (fun w => set_sat (ez_assume c (sat w)) w);;
      do w <- get;
      log (MsgBase step (numCnfClauses (sat w)) (numCnfVariables (sat w)));;
      do base <- solve (QBase step) [];
      if negb base then
        log MsgDiverges;;
        ret FellThrough
      else
        create_timestep (step + 1);;
        do c' <- consistent_at (step + 1);
        do new_step_not_consistent <- ez (ez_NOT c');
        ez (ez_bind new_step_not_consistent);;
        do w <- get;
        log (MsgStep step (numCnfClauses (sat w)) (numCnfVariables (sat w)));;
        do ind <- solve (QStep step) [new_step_not_consistent];
        if negb ind then
          log (MsgHolds (Z.of_nat (length (workset w))));;
          forM alias_B_to_A (workset w);;
          add_success (Z.of_nat (length (workset w)));;
          ret Returned
        else
          log (MsgStepFailed step (bool_decide (step <> max_seq w)));;
          induct n' (step + 1)
  end.

(** The body of the closing [for (auto cell : workset)]. *)
Definition prove_cell (cell : string) : M unit :=
  do a <- cell_getPort cell "\A";
  do bit_a <- mapped_bit a;
  do b <- cell_getPort cell "\B";
  do bit_b <- mapped_bit b;
  do w <- get;
  do ez_a <- ez (importSigBit bit_a (max_seq w + 1));
  do ez_b <- ez (importSigBit bit_b (max_seq w + 1));
  do y <- cell_getPort cell "\Y";
  log (MsgTrying (map (sigmap w) y));;
  do x <- ez (ez_XOR ez_a ez_b);
  do r <- solve (QMarker cell) [x];
  if negb r then
    log MsgSuccess;;
    alias_B_to_A cell;;
    add_success 1
  else
    log MsgFailed.

Definition run : M unit :=
  do w <- get;
  log (MsgFound (Z.of_nat (length (workset w))) (module_name w));;
  create_timestep 1;;
  do exit <- induct (Z.to_nat (max_seq w)) 1;
  match exit with
  | Returned => ret tt
  | FellThrough => forM prove_cell (workset w)
  end.

(** The constructor. *)
Definition EquivInductWorker (design : Design) (mname : string) (m : Module)
    (unproven_equiv_cells : list string) (max_seq : Z) : Worker :=
  let sm := SigMap m in
  mkWorker mname m sm (selected_cells design mname m) unproven_equiv_cells
    (ez_new sm) max_seq 0 ∅ ∅ [].

End Worker.

Arguments Worker S : clear implicits.
Arguments M S A : clear implicits.

(** ** [EquivInductPass::execute] *)

(** *** The option loop *)

(** C [isspace] in the "C" locale. *)
Definition isspace (c : ascii) : bool :=
  let n := nat_of_ascii c in
  (n =? 32)%nat || ((9 <=? n)%nat && (n <=? 13)%nat).

Definition digit_of (c : ascii) : option Z :=
  let n := nat_of_ascii c in
  if (48 <=? n)%nat && (n <=? 57)%nat then Some (Z.of_nat (n - 48)) else None.

Fixpoint skip_space (s : string) : string :=
  match s with
  | String c s' => if isspace c then skip_space s' else s
  | EmptyString => s
  end.

Fixpoint digits_value (s : string) (acc : Z) : Z :=
  match s with
  | String c s' =>
      match digit_of c with
      | Some d => digits_value s' (10 * acc + d)
      | None => acc
      end
  | EmptyString => acc
  end.

(** The number that the text starts with: optional white space, an optional
    sign, then the longest run of decimal digits; 0 when there is none. *)
Definition decimal_value (s : string) : Z :=
  match skip_space s with
  | String "-" s' => - digits_value s' 0
  | String "+" s' => digits_value s' 0
  | s' => digits_value s' 0
  end.

(** The ranges of [long] and [int] on the 64-bit hosts that the program is
    built for. *)
Definition LONG_MIN : Z := - 2 ^ 63.
Definition LONG_MAX : Z := 2 ^ 63 - 1.
Definition INT_MIN : Z := - 2 ^ 31.

(** C [strtol (s, NULL, 10)]: the number that the text starts with, held at
    the nearer end of [long] when it is out of range. *)
Definition strtol (s : string) : Z :=
  Z.max LONG_MIN (Z.min LONG_MAX (decimal_value s)).

(** The conversion of a [long] to [int]: its low 32 bits, in two's
    complement. *)
Definition to_int (v : Z) : Z := (v - INT_MIN) mod 2 ^ 32 + INT_MIN.

(** C [atoi], as the C library has it: [(int) strtol (s, NULL, 10)].  The
    result is an [int], and it is stored in [int max_seq]: a number beyond
    the range of [int] does not come back as itself ([atoi "2147483648"] is
    [INT_MIN]). *)
Definition atoi (s : string) : Z := to_int (strtol s).

(** The loop [for (argidx = 1; argidx < args.size(); argidx++)] of
    [execute], entered with [rest] the arguments from [argidx] on.  Returns
    [max_seq] and the [argidx] at which the loop is left. *)
Fixpoint parse_options (rest : list string) (argidx : nat) (max_seq : Z)
    : Z * nat :=
  match rest with
  | arg :: value :: rest' =>
      if String.eqb arg "-seq" then parse_options rest' (argidx + 2) (atoi value)
      else (max_seq, argidx)
  | _ => (max_seq, argidx)
  end.

(** [int max_seq = 4; size_t argidx; for (argidx = 1; ...)] *)
Definition parse_args (args : list string) : Z * nat :=
  parse_options (tl args) 1 4.

(** *** The loop over the modules *)

Section Pass.
Context {S : Type} `{EzSat S}.

(** [pool<Cell*> unproven_equiv_cells] of one module.  A pool is walked from
    its newest entry to its oldest. *)
Fixpoint collect_unproven (m : Module) (selected : list string)
    (unproven_equiv_cells : list string) : Result (list string) :=
  match selected with
  | [] => Ok unproven_equiv_cells
  | cell :: selected' =>
      let? c := deref m cell in
      if String.eqb (type c) "$equiv" then
        let? a := getPort c "\A" in
        let? b := getPort c "\B" in
        if bool_decide (a <> b)
        then collect_unproven m selected' (cell :: unproven_equiv_cells)
        else collect_unproven m selected' unproven_equiv_cells
      else collect_unproven m selected' unproven_equiv_cells
  end.

(** What [execute] carries from module to module. *)
Record PassState := mkPassState {
  design : Design;
  total : Z;              (* int success_counter *)
  output : list Event;
}.

(** The body of [for (auto module : design->selected_modules())]. *)
Definition execute_module (max_seq : Z) (st : PassState) (mname : string)
    : Result PassState :=
  match modules_ (design st) !! mname with
  | None => Ok st
  | Some m =>
      let? unproven_equiv_cells :=
        collect_unproven m (selected_cells (design st) mname m) [] in
      match unproven_equiv_cells with
      | [] => Ok (mkPassState (design st) (total st)
                    (output st ++ [Log (MsgNoneFound mname)]))
      | _ =>
          let worker :=
            EquivInductWorker (design st) mname m unproven_equiv_cells max_seq in
          let? (_, worker') := run worker in
          Ok (mkPassState (RTLIL.set_module (design st) mname (module worker'))
                (total st + success_counter worker')
                (output st ++ trace worker'))
      end
  end.

Fixpoint execute_modules (max_seq : Z) (st : PassState) (mnames : list string)
    : Result PassState :=
  match mnames with
  | [] => Ok st
  | mname :: mnames' =>
      let? st' := execute_module max_seq st mname in
      execute_modules max_seq st' mnames'
  end.

(** [execute].  [extra_args] is the host's handling of what follows the
    options (the selection); it either ends the command with an error or
    hands back the design to work on. *)
Definition execute (extra_args : list string -> nat -> Design -> Result Design)
    (args : list string) (d : Design) : Result PassState :=
  let '(max_seq, argidx) := parse_args args in
  let? d' := extra_args args argidx d in
  let? st := execute_modules max_seq (mkPassState d' 0 [Log MsgHeader])
               (selected_modules d') in
  Ok (mkPassState (design st) (total st)
        (output st ++ [Log (MsgProved (total st))])).

End Pass.

End EquivInduct.

(** ** A reference solver *)

Module RefSat.

(** Modelled from the spec: the solver adapter and the cell-to-CNF encoder
    ([ezSAT] and [SatGen], which are not among the embedded sources).  The
    adapter offers "IFF / AND / OR / NOT / XOR builders returning a literal",
    [assume] ("permanent"), [bind], and [solve] "returning SAT/UNSAT"; "the
    solver is expected to be complete".  The encoder maps "(canonical-bit,
    step)" to a solver variable, models the marker "as a buffer Y <- A", a
    sequential element by "output at step equals the data input at step-1"
    with a free variable at step 1, and reports a cell type without a model
    by returning false.

    [bind] follows the induction schedule of the spec (the step query is made
    "with the single assumption" that the new step is not consistent, and the
    same literal is assumed to hold in the next round): it fixes the
    expression in the encoding and constrains nothing.

    Identifiers follow [ezSAT]: 1 and 2 are the constants true and false,
    literal number [k] is [k + 3], expression number [k] is [-(k + 1)]. *)
Inductive Expr :=
| ExNot (a : Z)
| ExAnd (args : list Z)
| ExXor (a b : Z)
| ExIff (a b : Z).

Record Ez := mkEz {
  canon : SigBit -> SigBit;
  literals : list (SigBit * Z);
  expressions : list Expr;
  clauses : list Z;
}.

Definition CONST_TRUE : Z := 1.
Definition CONST_FALSE : Z := 2.

Definition new (sm : SigBit -> SigBit) : Ez := mkEz sm [] [] [].

Fixpoint index_of (key : SigBit * Z) (l : list (SigBit * Z)) : option nat :=
  match l with
  | [] => None
  | k :: l' => if bool_decide (k = key) then Some O
               else option_map Datatypes.S (index_of key l')
  end.

Definition import_bit (bit : SigBit) (step : Z) (s : Ez) : Z * Ez :=
  match canon s bit with
  | ConstBit S1 => (CONST_TRUE, s)
  | ConstBit _ => (CONST_FALSE, s)
  | b =>
      match index_of (b, step) (literals s) with
      | Some k => (Z.of_nat k + 3, s)
      | None => (Z.of_nat (length (literals s)) + 3,
                 mkEz (canon s) (literals s ++ [(b, step)])%list (expressions s) (clauses s))
      end
  end.

Definition expression (e : Expr) (s : Ez) : Z * Ez :=
  (- (Z.of_nat (length (expressions s)) + 1),
   mkEz (canon s) (literals s) (expressions s ++ [e])%list (clauses s)).

Definition assume (id : Z) (s : Ez) : Ez :=
  mkEz (canon s) (literals s) (expressions s) (clauses s ++ [id])%list.

(** The value of an identifier under an assignment of the literals. *)
Fixpoint eval (fuel : nat) (ex : list Expr) (asg : list bool) (id : Z) : bool :=
  if id =? 1 then true
  else if id =? 2 then false
  else if 0 <? id then nth (Z.to_nat (id - 3)) asg false
  else if id =? 0 then false
  else
    match fuel with
    | O => false
    | Datatypes.S fuel' =>
        match ex !! Z.to_nat (- id - 1) with
        | Some (ExNot a) => negb (eval fuel' ex asg a)
        | Some (ExAnd args) => forallb (eval fuel' ex asg) args
        | Some (ExXor a b) => xorb (eval fuel' ex asg a) (eval fuel' ex asg b)
        | Some (ExIff a b) => Bool.eqb (eval fuel' ex asg a) (eval fuel' ex asg b)
        | None => false
        end
    end.

Fixpoint assignments (n : nat) : list (list bool) :=
  match n with
  | O => [[]]
  | Datatypes.S n' => flat_map (fun a => [false :: a; true :: a]) (assignments n')
  end.

(** Complete search: SAT iff some assignment satisfies every clause and
    every assumption. *)
Definition solve (assumptions : list Z) (s : Ez) : bool * Ez :=
  (existsb
     (fun asg => forallb (eval (length (expressions s)) (expressions s) asg)
                   (clauses s ++ assumptions)%list)
     (assignments (length (literals s))),
   s).

Definition port_bit (c : Cell) (port : string) : option SigBit :=
  match connections_ c !! port with
  | Some [b] => Some b
  | _ => None
  end.

(** [y <-> e], for good. *)
Definition define (y e : Z) (s : Ez) : Ez :=
  let '(d, s1) := expression (ExIff y e) s in assume d s1.

Definition import_cell (c : Cell) (step : Z) (s : Ez) : bool * Ez :=
  if String.eqb (type c) "$equiv" || String.eqb (type c) "$_BUF_" then
    match port_bit c "\A", port_bit c "\Y" with
    | Some a, Some y =>
        let '(ea, s1) := import_bit a step s in
        let '(ey, s2) := import_bit y step s1 in
        (true, define ey ea s2)
    | _, _ => (false, s)
    end
  else if String.eqb (type c) "$_NOT_" then
    match port_bit c "\A", port_bit c "\Y" with
    | Some a, Some y =>
        let '(ea, s1) := import_bit a step s in
        let '(ey, s2) := import_bit y step s1 in
        let '(en, s3) := expression (ExNot ea) s2 in
        (true, define ey en s3)
    | _, _ => (false, s)
    end
  else if String.eqb (type c) "$_AND_" then
    match port_bit c "\A", port_bit c "\B", port_bit c "\Y" with
    | Some a, Some b, Some y =>
        let '(ea, s1) := import_bit a step s in
        let '(eb, s2) := import_bit b step s1 in
        let '(ey, s3) := import_bit y step s2 in
        let '(en, s4) := expression (ExAnd [ea; eb]) s3 in
        (true, define ey en s4)
    | _, _, _ => (false, s)
    end
  else if String.eqb (type c) "$_DFF_P_" then
    match port_bit c "\D", port_bit c "\Q" with
    | Some d, Some q =>
        if step <=? 1 then (true, snd (import_bit q step s))
        else
          let '(ed, s1) := import_bit d (step - 1) s in
          let '(eq, s2) := import_bit q step s1 in
          (true, define eq ed s2)
    | _, _ => (false, s)
    end
  else (false, s).

#[global] Instance RefSat_EzSat : EzSat Ez := {|
  ez_new := new;
  importCell := import_cell;
  importSigBit := import_bit;
  ez_IFF := fun a b => expression (ExIff a b);
  ez_XOR := fun a b => expression (ExXor a b);
  ez_NOT := fun a => expression (ExNot a);
  ez_AND := fun args => expression (ExAnd args);
  ez_assume := assume;
  ez_bind := fun id s => (id, s);
  ez_solve := solve;
  numCnfClauses := fun s => Z.of_nat (length (clauses s));
  numCnfVariables := fun s => Z.of_nat (length (literals s) + length (expressions s));
|}.

End RefSat.

(** ** Sample designs *)

Module Samples.

Definition wire (name : string) : SigSpec := [WireBit name 0].

Definition cell (ty : string) (ports : list (string * SigSpec)) : Cell :=
  mkCell ty (list_to_map ports) ∅.

Definition equiv (a b y : SigSpec) : Cell :=
  cell "$equiv" [("\A", a); ("\B", b); ("\Y", y)].

Definition everything (cs : list (string * Cell)) (conns : list (SigSpec * SigSpec))
    : Design :=
  mkDesign {["top" := mkModule (list_to_map cs) conns]} (fun _ => true) (fun _ _ => true).

(** A marker between the constants 0 and 1. *)
Definition divergent : Design :=
  everything [("eq", equiv [ConstBit S0] [ConstBit S1] (wire "y"))] [].

(** A marker whose two inputs are different wires, connected to each other. *)
Definition aliased : Design :=
  everything [("eq", equiv (wire "a") (wire "b") (wire "y"))] [(wire "a", wire "b")].

(** Two cells of one type that has no model, next to a marker between two
    unrelated wires. *)
Definition two_blackboxes : Design :=
  everything [("u1", cell "$mystery" [("\A", wire "a"); ("\Y", wire "p")]);
              ("u2", cell "$mystery" [("\A", wire "a"); ("\Y", wire "q")]);
              ("eq", equiv (wire "p") (wire "q") (wire "y"))] [].

(** A marker whose input A is two bits wide. *)
Definition wide_marker : Design :=
  everything [("eq", equiv [WireBit "a" 0; WireBit "a" 1] (wire "b") (wire "y"))] [].

(** A marker that is proven already: both inputs are the wire [a]. *)
Definition proven : Design :=
  everything [("eq", equiv (wire "a") (wire "a") (wire "y"))] [].

(** The host accepts the arguments that follow the options unless one of
    them looks like an option. *)
Definition host_extra_args (args : list string) (argidx : nat) (d : Design)
    : Result Design :=
  match drop argidx args with
  | String "-" _ :: _ => Abort (MissingPort "command line")
  | _ => Ok d
  end.

(** The module [top] of a sample design. *)
Definition top_of (d : Design) : Module :=
  default (mkModule ∅ []) (modules_ d !! "top").

(** A port of a cell of [top]. *)
Definition port_of (d : Design) (cell port : string) : Result SigSpec :=
  let? c := deref (top_of d) cell in getPort c port.

(** A worker for [top] with the reference solver. *)
Definition worker_on (d : Design) (unproven_equiv_cells : list string) (max_seq : Z)
    : EquivInduct.Worker RefSat.Ez :=
  EquivInduct.EquivInductWorker d "top" (top_of d) unproven_equiv_cells max_seq.

(** The state in which a run of that worker ends. *)
Definition after_run (w : EquivInduct.Worker RefSat.Ez) : EquivInduct.Worker RefSat.Ez :=
  match EquivInduct.run w with
  | Ok (_, w') => w'
  | Abort _ => w
  end.

End Samples.

(** ** [opt_compare] *)

(** What the two revisions of the pass share. *)
Module OptCompareBase.

(** [SigSpec::is_fully_const] and [SigSpec::is_fully_zero]. *)
Definition is_fully_const (s : SigSpec) : bool :=
  forallb (fun b => match b with ConstBit _ => true | WireBit _ _ => false end) s.

Definition is_fully_zero (s : SigSpec) : bool :=
  forallb (fun b => bool_decide (b = ConstBit S0)) s.

(** [cell->type[0] == '$'] *)
Definition is_internal (ty : string) : bool :=
  match ty with
  | String "$" _ => true
  | _ => false
  end.

(** [TopoSort<Cell*, compare_ptr_by_name<Cell>>] without edges: [sort]
    yields the nodes in the order of the comparison, that is by name. *)
Fixpoint insert_by_name (x : string) (l : list string) : list string :=
  match l with
  | [] => [x]
  | y :: l' => if String.leb x y then x :: l else y :: insert_by_name x l'
  end.

Definition sort_by_name (l : list string) : list string :=
  foldr insert_by_name [] l.

(** [design->selected(module, cell) && cell->type[0] == '$'] *)
Definition is_node (d : Design) (mname : string) (m : Module) (n : string) : bool :=
  match cells_ m !! n with
  | Some c => selected_member d mname n && is_internal (type c)
  | None => false
  end.

(** [cells.sorted] after the first loop of [optimize_compares]. *)
Definition sorted_cells (d : Design) (mname : string) (m : Module) : list string :=
  sort_by_name
    (filter (fun n => is_node d mname m n = true) (map fst (map_to_list (cells_ m)))).

(** [a[a_width-1]] put into bit 0 of [sig]. *)
Definition sign_bit_into (sig a : SigSpec) (a_width : Z) : Result SigSpec :=
  let? top := SigSpec_at a (a_width - 1) in
  SigSpec_set sig 0 top.

(** The branch for [x < 0] on signed [x], the same in both revisions. *)
Definition lt_signed (m : Module) (cell : string) (c : Cell) (a y : SigSpec)
    : Result Module :=
  let? (a_width, m) := parameter m cell "\A_WIDTH" in
  let a_width := as_int a_width in
  if 0 <? a_width then
    let? y' := sign_bit_into y a a_width in
    let? out := getPort c "\Y" in
    remove (connect m out y') cell
  else Ok m.

(** The branch for [x >= 0] on signed [x], the same in both revisions. *)
Definition ge_signed (m : Module) (cell : string) (c : Cell) (a y : SigSpec)
    : Result Module :=
  let? (y_width, m) := parameter m cell "\Y_WIDTH" in
  let? a_prime := SigSpec_fill S0 (as_int y_width) in
  let? (a_width, m) := parameter m cell "\A_WIDTH" in
  let a_width := as_int a_width in
  if 0 <? a_width then
    let? a_prime' := sign_bit_into a_prime a a_width in
    let? m' := remove m cell in
    addNot m' "$not" a_prime' y false
  else Ok m.

(** The cells on which the two revisions can differ: [$lt] and [$ge] with
    an unsigned A and a B that is constant zero. *)
Definition unsigned_zero_compare (c : Cell) : bool :=
  (String.eqb (type c) "$lt" || String.eqb (type c) "$ge")
  && negb (as_bool (param c "\A_SIGNED"))
  && match getPort c "\B" with
     | Ok b => is_fully_const b && is_fully_zero b
     | Abort _ => false
     end.

(** The cells that both revisions replace: [$lt] and [$ge] with a signed A
    of positive width and a B that is constant zero. *)
Definition signed_zero_compare (c : Cell) : bool :=
  (String.eqb (type c) "$lt" || String.eqb (type c) "$ge")
  && as_bool (param c "\A_SIGNED")
  && (0 <? as_int (param c "\A_WIDTH"))
  && match getPort c "\B" with
     | Ok b => is_fully_const b && is_fully_zero b
     | Abort _ => false
     end.

(** The parameters that the pass reads. *)
Definition read_params : list string := ["\Y_WIDTH"; "\A_SIGNED"; "\A_WIDTH"].

(** [c'] is [c], up to empty constants entered for parameters that the pass
    reads and [c] lacks. *)
Definition entered (c c' : Cell) : Prop :=
  type c' = type c /\ connections_ c' = connections_ c /\
  forall k, parameters c' !! k = parameters c !! k \/
            (k ∈ read_params /\ parameters c !! k = None /\
             parameters c' !! k = Some []).

Fixpoint for_cells (body : Module -> string -> Result Module) (m : Module)
    (sorted : list string) : Result Module :=
  match sorted with
  | [] => Ok m
  | cell :: sorted' => let? m' := body m cell in for_cells body m' sorted'
  end.

End OptCompareBase.

(** [optimize_compares] of passes/opt/opt_compare.cc, with the two
    replacements in functions of their own. *)
Module OptCompare.
Import OptCompareBase.

Definition replace_le_cell (cell : string) (m : Module) : Result Module :=
  let? c := deref m cell in
  let? a := getPort c "\A" in
  let? b := getPort c "\B" in
  let? (y_width, m) := parameter m cell "\Y_WIDTH" in
  let? y := SigSpec_fill S0 (as_int y_width) in
  if is_fully_const b && is_fully_zero b then
    let? (a_signed, m) := parameter m cell "\A_SIGNED" in
    if as_bool a_signed then lt_signed m cell c a y
    else (* return; what follows it in the source is never reached *) Ok m
  else Ok m.

Definition replace_ge_cell (cell : string) (m : Module) : Result Module :=
  let? c := deref m cell in
  let? a := getPort c "\A" in
  let? b := getPort c "\B" in
  let? y := getPort c "\Y" in
  if is_fully_const b && is_fully_zero b then
    let? (a_signed, m) := parameter m cell "\A_SIGNED" in
    if as_bool a_signed then ge_signed m cell c a y
    else (* return; what follows it in the source is never reached *) Ok m
  else Ok m.

Definition visit (m : Module) (cell : string) : Result Module :=
  let? c := deref m cell in
  if String.eqb (type c) "$lt" then replace_le_cell cell m
  else if String.eqb (type c) "$ge" then replace_ge_cell cell m
  else Ok m.

Definition optimize_compares (d : Design) (mname : string) (m : Module)
    : Result Module :=
  for_cells visit m (sorted_cells d mname m).

(** [OptCompare::execute]: [optimize_compares(design, module)] for every
    selected module, each module changed in place. *)
Fixpoint execute_modules (d : Design) (mnames : list string) : Result Design :=
  match mnames with
  | [] => Ok d
  | mname :: mnames' =>
      match modules_ d !! mname with
      | Some m =>
          let? m' := optimize_compares d mname m in
          execute_modules (RTLIL.set_module d mname m') mnames'
      | None => execute_modules d mnames'
      end
  end.

Definition execute (d : Design) : Result Design :=
  execute_modules d (selected_modules d).

End OptCompare.

(** [optimize_compares] of the other revision, with the replacements written
    out in the loop. *)
Module OptCompareInline.
Import OptCompareBase.

Definition visit (m : Module) (cell : string) : Result Module :=
  let? c := deref m cell in
  if String.eqb (type c) "$lt" then
    let? a := getPort c "\A" in
    let? b := getPort c "\B" in
    let? (y_width, m) := parameter m cell "\Y_WIDTH" in
    let? y := SigSpec_fill S0 (as_int y_width) in
    if is_fully_const b && is_fully_zero b then
      let? (a_signed, m) := parameter m cell "\A_SIGNED" in
      if as_bool a_signed then lt_signed m cell c a y
      else
        let? out := getPort c "\Y" in
        remove (connect m out y) cell
    else Ok m
  else if String.eqb (type c) "$ge" then
    let? a := getPort c "\A" in
    let? b := getPort c "\B" in
    let? y := getPort c "\Y" in
    if is_fully_const b && is_fully_zero b then
      let? (a_signed, m) := parameter m cell "\A_SIGNED" in
      if as_bool a_signed then ge_signed m cell c a y
      else
        let? (y_width, m) := parameter m cell "\Y_WIDTH" in
        let? a_prime := SigSpec_fill S1 (as_int y_width) in
        let? out := getPort c "\Y" in
        remove (connect m out a_prime) cell
    else Ok m
  else Ok m.

Definition optimize_compares (d : Design) (mname : string) (m : Module)
    : Result Module :=
  for_cells visit m (sorted_cells d mname m).

End OptCompareInline.

Module CompareSamples.

Definition compare_cell (ty : string) (is_signed : bool) : Cell :=
  mkCell ty
    (list_to_map [("\A", [WireBit "a" 0; WireBit "a" 1]);
                  ("\B", [ConstBit S0; ConstBit S0]);
                  ("\Y", [WireBit "y" 0])])
    (list_to_map [("\A_SIGNED", bool_const is_signed);
                  ("\B_SIGNED", bool_const is_signed);
                  ("\A_WIDTH", int_const 2);
                  ("\B_WIDTH", int_const 2);
                  ("\Y_WIDTH", int_const 1)]).

(** One module with the single cell [cmp]: [a < 2'b00] or [a >= 2'b00]. *)
Definition one_compare (ty : string) (is_signed : bool) : Module :=
  mkModule {["cmp" := compare_cell ty is_signed]} [].

Definition whole (m : Module) : Design :=
  mkDesign {["top" := m]} (fun _ => true) (fun _ _ => true).

(** Two signed comparisons with zero in one module. *)
Definition two_compares (ty1 ty2 : string) : Module :=
  mkModule {["cmp1" := compare_cell ty1 true; "cmp2" := compare_cell ty2 true]} [].

(** A comparison with zero whose parameters were never set. *)
Definition bare_compare (ty : string) : Cell :=
  mkCell ty
    (list_to_map [("\A", [WireBit "a" 0; WireBit "a" 1]);
                  ("\B", [ConstBit S0; ConstBit S0]);
                  ("\Y", [WireBit "z" 0])])
    ∅.

(** A signed [a < 0] beside a comparison without parameters. *)
Definition with_bare (ty : string) : Module :=
  mkModule {["cmp1" := compare_cell "$lt" true; "cmp2" := bare_compare ty]} [].

(** What [optimize_compares] of passes/opt/opt_compare.cc makes of a module
    that is the whole design. *)
Definition optimized (m : Module) : Module :=
  match OptCompare.optimize_compares (whole m) "top" m with
  | Ok m' => m'
  | Abort _ => m
  end.

End CompareSamples.

(** ** Reasoning about worker computations *)

Module WorkerLogic.
Import EquivInduct.

Section Logic.
Context {S : Type} `{EzSat S}.

(** [traced m w Q E]: started in [w], [m] either ends in a state whose trace
    extends that of [w] by some [delta] with [Q] holding of the result, the
    final state and [delta], or it fails with a failure in [E]. *)
Definition traced {A} (m : M S A) (w : Worker S)
    (Q : A -> Worker S -> list Event -> Prop) (E : Failure -> Prop) : Prop :=
  match m w with
  | Ok (a, w') => exists delta, trace w' = (trace w ++ delta)%list /\ Q a w' delta
  | Abort f => E f
  end.

(** The failure of the assertion in [create_timestep]. *)
Definition is_step_assert (f : Failure) : bool :=
  match f with AssertStepDefined _ => true | _ => false end.

(** What no part of a run changes. *)
Definition same_setup (w w' : Worker S) : Prop :=
  module_name w' = module_name w /\ sigmap w' = sigmap w /\ cells w' = cells w /\
  workset w' = workset w /\ max_seq w' = max_seq w.

(** *** Well-formed inputs *)

Definition bit_port (c : Cell) (port : string) : bool :=
  match connections_ c !! port with
  | Some [_] => true
  | _ => false
  end.

(** A cell that [create_timestep] can visit: owned by the module, and with
    one-bit inputs if it is a marker. *)
Definition cell_ok (m : Module) (cell : string) : bool :=
  match cells_ m !! cell with
  | Some c => if String.eqb (type c) "$equiv"
              then bit_port c "\A" && bit_port c "\B" else true
  | None => false
  end.

(** A cell of the workset that [run] can treat. *)
Definition target_ok (m : Module) (cell : string) : bool :=
  match cells_ m !! cell with
  | Some c => bit_port c "\A" && bit_port c "\B"
              && bool_decide (is_Some (connections_ c !! "\Y"))
  | None => false
  end.

Definition well_formed (w : Worker S) : bool :=
  forallb (cell_ok (module w)) (cells w) && forallb (target_ok (module w)) (workset w).

(** *** The shape of traces *)

(** Warnings that take the warning cache from [C] to [C']. *)
Inductive warns : gset string -> list Event -> gset string -> Prop :=
| warns_nil C : warns C [] C
| warns_cons C c ty delta C' :
    c ∉ C -> warns ({[c]} ∪ C) delta C' ->
    warns C (Log (MsgNoModel c ty) :: delta) C'.

(** The query that [run] makes for one cell of the workset at the end. *)
Definition marker_query (bit_a bit_b : SigBit) (step : Z) (s : S) : Z * bool :=
  let '(ez_a, s1) := importSigBit bit_a step s in
  let '(ez_b, s2) := importSigBit bit_b step s1 in
  let '(x, s3) := ez_XOR ez_a ez_b s2 in
  (x, fst (ez_solve [x] s3)).

(** One round of the closing loop: the trace it adds, the module it leaves
    and what it adds to the counter. *)
Definition marker_tr (sm : SigBit -> SigBit) (k : Z) (m : Module) (cell : string)
    (delta : list Event) (m' : Module) (n : Z) : Prop :=
  exists c a b y bit_a bit_b s x r,
    cells_ m !! cell = Some c /\
    getPort c "\A" = Ok a /\ getPort c "\B" = Ok b /\ getPort c "\Y" = Ok y /\
    to_single_sigbit (map sm a) = Ok bit_a /\
    to_single_sigbit (map sm b) = Ok bit_b /\
    marker_query bit_a bit_b (k + 1) s = (x, r) /\
    if r then
      delta = [Log (MsgTrying (map sm y)); Solve (QMarker cell) [x] true;
               Log MsgFailed] /\ m' = m /\ n = 0
    else
      delta = [Log (MsgTrying (map sm y)); Solve (QMarker cell) [x] false;
               Log MsgSuccess; SetPort cell "\B" a] /\
      m' = module_setPort m cell "\B" a /\ n = 1.

Inductive fallback_tr (sm : SigBit -> SigBit) (k : Z)
    : Module -> list string -> list Event -> Module -> Z -> Prop :=
| fallback_nil m : fallback_tr sm k m [] [] m 0
| fallback_cons m cell cs d1 m1 n1 d2 m2 n2 :
    marker_tr sm k m cell d1 m1 n1 ->
    fallback_tr sm k m1 cs d2 m2 n2 ->
    fallback_tr sm k m (cell :: cs) (d1 ++ d2) m2 (n1 + n2).

(** Rewriting the whole workset after a successful induction step. *)
Inductive alias_tr : Module -> list string -> list Event -> Module -> Prop :=
| alias_nil m : alias_tr m [] [] m
| alias_cons m cell cs c a delta m' :
    cells_ m !! cell = Some c -> getPort c "\A" = Ok a ->
    alias_tr (module_setPort m cell "\B" a) cs delta m' ->
    alias_tr m (cell :: cs) (SetPort cell "\B" a :: delta) m'.

(** The loop over the steps, with [n] rounds to go from [step], started with
    warning cache [C] on module [m]. *)
Inductive loop_tr (W : list string) (k : Z) (m : Module)
    : nat -> Z -> gset string -> list Event -> LoopExit -> Module -> Prop :=
| loop_end step C : loop_tr W k m O step C [] FellThrough m
| loop_diverges n step C cl v :
    loop_tr W k m (Datatypes.S n) step C
      [Log (MsgBase step cl v); Solve (QBase step) [] false; Log MsgDiverges]
      FellThrough m
| loop_holds n step C C' cl v cl' v' dw x da m' :
    warns C dw C' -> alias_tr m W da m' ->
    loop_tr W k m (Datatypes.S n) step C
      (Log (MsgBase step cl v) :: Solve (QBase step) [] true
         :: CreateTimestep (step + 1) :: dw
         ++ Log (MsgStep step cl' v') :: Solve (QStep step) [x] false
         :: Log (MsgHolds (Z.of_nat (length W))) :: da)
      Returned m'
| loop_next n step C C' cl v cl' v' dw x delta exit m' :
    warns C dw C' -> loop_tr W k m n (step + 1) C' delta exit m' ->
    loop_tr W k m (Datatypes.S n) step C
      (Log (MsgBase step cl v) :: Solve (QBase step) [] true
         :: CreateTimestep (step + 1) :: dw
         ++ Log (MsgStep step cl' v') :: Solve (QStep step) [x] true
         :: Log (MsgStepFailed step (bool_decide (step <> k))) :: delta)
      exit m'.

(** A whole run of a worker with setup [w]: trace, final module, successes. *)
Definition run_tr (w : Worker S) (delta : list Event) (m' : Module) (n : Z) : Prop :=
  exists dw C dl exit m1 df,
    delta = (Log (MsgFound (Z.of_nat (length (workset w))) (module_name w))
               :: CreateTimestep 1 :: dw ++ dl ++ df)%list /\
    warns (cell_warn_cache w) dw C /\
    loop_tr (workset w) (max_seq w) (module w) (Z.to_nat (max_seq w)) 1 C dl exit m1 /\
    match exit with
    | Returned => df = [] /\ m' = m1 /\ n = Z.of_nat (length (workset w))
    | FellThrough => fallback_tr (sigmap w) (max_seq w) m1 (workset w) df m' n
    end.

(** *** Reading traces *)

Definition timesteps (tr : list Event) : list Z :=
  omap (fun e => match e with CreateTimestep s => Some s | _ => None end) tr.

(** The cells for which "No SAT model available" was printed. *)
Definition warned (tr : list Event) : list string :=
  omap (fun e => match e with Log (MsgNoModel c _) => Some c | _ => None end) tr.

(** The types named in those warnings. *)
Definition warned_types (tr : list Event) : list string :=
  omap (fun e => match e with Log (MsgNoModel _ ty) => Some ty | _ => None end) tr.

Definition solver_calls (tr : list Event) : list (Query * list Z * bool) :=
  omap (fun e => match e with Solve q a r => Some (q, a, r) | _ => None end) tr.

Definition rewrites (tr : list Event) : list string :=
  omap (fun e => match e with SetPort c _ _ => Some c | _ => None end) tr.

(** Does the UNSAT answer to query [q] license rewriting [cell]? *)
Definition justifies (q : Query) (cell : string) : bool :=
  match q with
  | QStep _ => true
  | QMarker c => bool_decide (c = cell)
  | QBase _ => false
  end.

(** [guarded last tr]: every port write in [tr] comes after a solver call
    with answer UNSAT that licenses it, with no other solver call in
    between.  [last] is the licensing query pending when [tr] starts. *)
Fixpoint guarded (last : option Query) (tr : list Event) : bool :=
  match tr with
  | [] => true
  | Solve q _ r :: tr' => guarded (if r then None else Some q) tr'
  | SetPort c _ _ :: tr' =>
      match last with
      | Some q => justifies q c && guarded last tr'
      | None => false
      end
  | _ :: tr' => guarded last tr'
  end.

(** The module that results from making the port writes of [tr] on [m]. *)
Definition replay (tr : list Event) (m : Module) : Module :=
  foldl (fun m e => match e with
                    | SetPort c p sig => module_setPort m c p sig
                    | _ => m
                    end) m tr.

(** The marker [x] of [m] is proven for good: its two inputs are one signal. *)
Definition joined (m : Module) (x : string) : Prop :=
  exists c sig, cells_ m !! x = Some c /\ getPort c "\A" = Ok sig /\
                getPort c "\B" = Ok sig.

(** The marker [x], one of [cs], is not proven yet: its two inputs are not
    the same signal. *)
Definition unproven (m : Module) (cs : list string) (x : string) : Prop :=
  x ∈ cs /\
  exists c a b, cells_ m !! x = Some c /\ type c = "$equiv" /\
                getPort c "\A" = Ok a /\ getPort c "\B" = Ok b /\ a <> b.

(** Two cells that differ at most in what port B carries. *)
Definition same_but_B (c c' : Cell) : Prop :=
  type c' = type c /\ parameters c' = parameters c /\
  forall p, p <> "\B" -> connections_ c' !! p = connections_ c !! p.

(** Two modules with the same connections and the same cells, up to what
    the B ports of the cells carry. *)
Definition same_modulo_B (m m' : Module) : Prop :=
  connections m' = connections m /\
  forall x, option_Forall2 same_but_B (cells_ m !! x) (cells_ m' !! x).

(** The solver calls made for the marker [cell] in the closing loop, each
    with its assumptions and its answer. *)
Definition calls_for (cell : string) (tr : list Event) : list (list Z * bool) :=
  omap (fun e => match e with
                 | Solve (QMarker c) a r => if bool_decide (c = cell) then Some (a, r) else None
                 | _ => None
                 end) tr.

(** A worker as its constructor leaves it. *)
Definition fresh (w : Worker S) : Prop :=
  ez_step_is_consistent w = ∅ /\ cell_warn_cache w = ∅ /\ trace w = [].

(** What [create_timestep] and its loop body leave alone. *)
Definition keeps (w w' : Worker S) : Prop :=
  same_setup w w' /\ module w' = module w /\ success_counter w' = success_counter w.

(** What the two closing loops leave alone. *)
Definition keeps_encoding (w w' : Worker S) : Prop :=
  same_setup w w' /\ ez_step_is_consistent w' = ez_step_is_consistent w.

(** How [create_timestep] may fail: by its own assertion only if the step
    is already defined, otherwise only on a cell it cannot visit. *)
Definition timestep_failure (step : Z) (w : Worker S) (f : Failure) : Prop :=
  if is_step_assert f then is_Some (ez_step_is_consistent w !! step)
  else forallb (cell_ok (module w)) (cells w) = false.

(** What the closing loop does for the marker [cell]: one query, built
    from the canonical bits of its inputs at step [k + 1] in some solver
    state, and a write exactly when the answer is UNSAT. *)
Definition marker_outcome (sm : SigBit -> SigBit) (k : Z) (m : Module)
    (cell : string) (d : list Event) (m' : Module) : Prop :=
  exists c a b bit_a bit_b s x r,
    cells_ m !! cell = Some c /\
    getPort c "\A" = Ok a /\ getPort c "\B" = Ok b /\
    to_single_sigbit (map sm a) = Ok bit_a /\
    to_single_sigbit (map sm b) = Ok bit_b /\
    marker_query bit_a bit_b (k + 1) s = (x, r) /\
    calls_for cell d = [([x], r)] /\
    cells_ m' !! cell = Some (if r then c else setPort c "\B" a).

(** The tail of a trace that ends in a successful induction step. *)
Definition holds_tail (W : list string) (m : Module) (i : Z) (a : list Z)
    (d : list Event) (m' : Module) : Prop :=
  exists pre x da,
    d = (pre ++ Solve (QStep i) [x] false
           :: Log (MsgHolds (Z.of_nat (length W))) :: da)%list /\
    a = [x] /\ alias_tr m W da m'.

(** The query of the induction step once the next step is encoded with
    literal [c']: the negation of [c'], bound, is the single assumption.
    [s] is the solver state in which the negation is built. *)
Definition step_query (c' : Z) (s : S) : Z * bool :=
  let '(new_step_not_consistent, s1) := ez_NOT c' s in
  let '(_, s2) := ez_bind new_step_not_consistent s1 in
  (new_step_not_consistent, fst (ez_solve [new_step_not_consistent] s2)).

(** Every induction step query of the trace [d] is the query for the
    literal that [consistent] holds for the step after it, asked in some
    solver state, and it is recorded with the answer of the solver. *)
Definition step_queries (consistent : gmap Z Z) (d : list Event) : Prop :=
  forall i a r, Solve (QStep i) a r ∈ d ->
    exists c' s x, consistent !! (i + 1) = Some c' /\
                   step_query c' s = (x, r) /\ a = [x].

(** Did some induction step query of the trace come back UNSAT? *)
Definition step_unsat (tr : list Event) : bool :=
  existsb (fun e => match e with
                    | Solve (QStep _) _ false => true
                    | _ => false
                    end) tr.

(** The numbers 1, 2, ..., n as steps. *)
Definition steps_upto (n : nat) : list Z := map Z.of_nat (seq 1 n).

End Logic.

(** What the worker relies on from the back end when it treats a marker
    whose two inputs are one and the same canonical bit: a bit imported
    twice for one step yields one literal, and [x XOR x] cannot be
    satisfied. *)
Class EzSatLaws (S : Type) `{EzSat S} : Prop := {
  importSigBit_again : forall bit step s,
    fst (importSigBit bit step (snd (importSigBit bit step s)))
    = fst (importSigBit bit step s);
  xor_self_unsat : forall a s,
    fst (ez_solve [fst (ez_XOR a a s)] (snd (ez_XOR a a s))) = false;
}.

End WorkerLogic.

(** * Proofs *)

(** ** Rules for worker computations *)

Module WorkerRules.
Import EquivInduct WorkerLogic.

Section Rules.
Context {S : Type} `{EzSat S}.

Implicit Types (w : Worker S) (E : Failure -> Prop).

Lemma traced_ret {A} (a : A) w Q E : Q a w [] -> traced (ret a) w Q E.
Proof. intros HQ. exists []. by rewrite app_nil_r. Qed.

Lemma traced_bind {A B} (m : M S A) (k : A -> M S B) w Q E :
  traced m w (fun a w1 d1 => traced (k a) w1 (fun b w2 d2 => Q b w2 (d1 ++ d2)%list) E) E ->
  traced (bind m k) w Q E.
Proof.
  unfold traced, bind. destruct (m w) as [[a w1]|f]; [|done].
  intros (d1 & Ht1 & Hk). destruct (k a w1) as [[b w2]|f]; [|done].
  destruct Hk as (d2 & Ht2 & HQ). exists (d1 ++ d2)%list.
  split; [|done]. by rewrite Ht2, Ht1, app_assoc.
Qed.

Lemma traced_get w Q E : Q w w [] -> traced get w Q E.
Proof. intros HQ. exists []. by rewrite app_nil_r. Qed.

Lemma traced_modify (f : Worker S -> Worker S) w Q E :
  trace (f w) = trace w -> Q tt (f w) [] -> traced (modify f) w Q E.
Proof. intros Ht HQ. exists []. by rewrite app_nil_r. Qed.

Lemma traced_emit e w Q E :
  Q tt (set_trace (trace w ++ [e])%list w) [e] -> traced (emit e) w Q E.
Proof. intros HQ. by exists [e]. Qed.

Lemma traced_lift {A} (r : Result A) w Q E :
  match r with Ok a => Q a w [] | Abort f => E f end -> traced (lift r) w Q E.
Proof.
  unfold traced, lift. destruct r; [|done].
  intros HQ. exists []. by rewrite app_nil_r.
Qed.

Lemma traced_ez {A} (op : S -> A * S) w Q E :
  (forall a s, op (sat w) = (a, s) -> Q a (set_sat s w) []) -> traced (ez op) w Q E.
Proof.
  unfold traced, ez. destruct (op (sat w)) as [a s]. intros HQ.
  exists []. rewrite app_nil_r. split; [done|]. by apply HQ.
Qed.

Lemma traced_mono {A} (m : M S A) w (Q Q' : A -> Worker S -> list Event -> Prop) E E' :
  traced m w Q E ->
  (forall a w' d, Q a w' d -> Q' a w' d) -> (forall f, E f -> E' f) ->
  traced m w Q' E'.
Proof.
  unfold traced. destruct (m w) as [[a w']|f]; [|by auto].
  intros (d & Ht & HQ) HQQ _. exists d. auto.
Qed.

Lemma traced_ok {A} (m : M S A) w Q E a w' :
  traced m w Q E -> m w = Ok (a, w') ->
  exists delta, trace w' = (trace w ++ delta)%list /\ Q a w' delta.
Proof. unfold traced. intros Ht Hm. by rewrite Hm in Ht. Qed.

Lemma traced_abort {A} (m : M S A) w Q E f :
  traced m w Q E -> m w = Abort f -> E f.
Proof. unfold traced. intros Ht Hm. by rewrite Hm in Ht. Qed.

Lemma traced_total {A} (m : M S A) w Q :
  traced m w Q (fun _ => False) -> exists a w', m w = Ok (a, w').
Proof. unfold traced. destruct (m w) as [[a w']|f]; [eauto|done]. Qed.

(** The sequencing rule, with a specification for the first part. *)
Lemma traced_seq {A B} (m : M S A) (k : A -> M S B) w Q1 E1 Q E :
  traced m w Q1 E1 ->
  (forall f, E1 f -> E f) ->
  (forall a w1 d1, trace w1 = (trace w ++ d1)%list -> Q1 a w1 d1 ->
     traced (k a) w1 (fun b w2 d2 => Q b w2 (d1 ++ d2)%list) E) ->
  traced (bind m k) w Q E.
Proof.
  intros Hm HE Hk. apply traced_bind.
  unfold traced in Hm |- *. destruct (m w) as [[a w1]|f]; [|by auto].
  destruct Hm as (d1 & Ht & HQ). exists d1. split; [done|]. by apply Hk.
Qed.

Lemma traced_cell_of cell w Q E :
  match cells_ (module w) !! cell with
  | Some c => Q c w []
  | None => E (DanglingCell cell)
  end ->
  traced (cell_of cell) w Q E.
Proof.
  intros HQ. unfold cell_of. apply traced_bind, traced_get, traced_lift.
  unfold deref. by destruct (cells_ (module w) !! cell).
Qed.

Lemma traced_cell_getPort cell port w Q E :
  match cells_ (module w) !! cell with
  | Some c => match connections_ c !! port with
              | Some sig => Q sig w []
              | None => E (MissingPort port)
              end
  | None => E (DanglingCell cell)
  end ->
  traced (cell_getPort cell port) w Q E.
Proof.
  intros HQ. unfold cell_getPort. apply traced_bind, traced_cell_of.
  destruct (cells_ (module w) !! cell) as [c|]; [|done].
  apply traced_lift. unfold getPort. by destruct (connections_ c !! port).
Qed.

Lemma traced_mapped_bit sig w Q E :
  match to_single_sigbit (map (sigmap w) sig) with
  | Ok b => Q b w []
  | Abort f => E f
  end ->
  traced (mapped_bit sig) w Q E.
Proof.
  intros HQ. unfold mapped_bit. by apply traced_bind, traced_get, traced_lift.
Qed.

Lemma traced_solve q assumptions w Q E :
  (forall r s, ez_solve assumptions (sat w) = (r, s) ->
     Q r (set_trace (trace w ++ [Solve q assumptions r])%list (set_sat s w))
       [Solve q assumptions r]) ->
  traced (solve q assumptions) w Q E.
Proof.
  intros HQ. unfold solve. apply traced_bind, traced_ez. intros r s Hs.
  apply traced_bind, traced_emit, traced_ret. by apply HQ.
Qed.

Lemma traced_cell_setPort cell port sig w Q E :
  Q tt (set_trace (trace w ++ [SetPort cell port sig])%list
          (set_module (module_setPort (module w) cell port sig) w))
    [SetPort cell port sig] ->
  traced (cell_setPort cell port sig) w Q E.
Proof.
  intros HQ. unfold cell_setPort. apply traced_bind, traced_modify; [done|].
  by apply traced_emit.
Qed.

Lemma traced_consistent_at step w Q E :
  match ez_step_is_consistent w !! step with
  | Some e => Q e w []
  | None => Q 0 (set_consistent (<[step := 0]> (ez_step_is_consistent w)) w) []
  end ->
  traced (consistent_at step) w Q E.
Proof.
  intros HQ. unfold consistent_at. apply traced_bind, traced_get.
  destruct (ez_step_is_consistent w !! step).
  - by apply traced_ret.
  - apply traced_bind, traced_modify; [done|]. by apply traced_ret.
Qed.

End Rules.

(** One step of symbolic execution. *)
Ltac tstep :=
  lazymatch goal with
  | |- traced (bind _ _) _ _ _ => apply traced_bind
  | |- traced (ret _) _ _ _ => apply traced_ret
  | |- traced get _ _ _ => apply traced_get
  | |- traced (emit _) _ _ _ => apply traced_emit
  | |- traced (log _) _ _ _ => apply traced_emit
  | |- traced (lift _) _ _ _ => apply traced_lift
  | |- traced (ez _) _ _ _ => apply traced_ez; intros ? ? ?
  | |- traced (modify _) _ _ _ => apply traced_modify; [reflexivity|]
  | |- traced (add_success _) _ _ _ => apply traced_modify; [reflexivity|]
  | |- traced (cell_of _) _ _ _ => apply traced_cell_of
  | |- traced (cell_getPort _ _) _ _ _ => apply traced_cell_getPort
  | |- traced (mapped_bit _) _ _ _ => apply traced_mapped_bit
  | |- traced (solve _ _) _ _ _ => apply traced_solve; intros ? ? ?
  | |- traced (cell_setPort _ _ _) _ _ _ => apply traced_cell_setPort
  | |- traced (consistent_at _) _ _ _ => apply traced_consistent_at
  end; cbv beta.

End WorkerRules.

(** ** What each part of the worker does *)

Module WorkerSpecs.
Import EquivInduct WorkerLogic WorkerRules.

Section Specs.
Context {S : Type} `{EzSat S}.

Implicit Types (w : Worker S) (m : Module).

Lemma same_setup_refl w : same_setup w w.
Proof. by repeat split. Qed.

Lemma same_setup_trans w1 w2 w3 :
  same_setup w1 w2 -> same_setup w2 w3 -> same_setup w1 w3.
Proof.
  intros (?&?&?&?&?) (?&?&?&?&?). repeat split; congruence.
Qed.

Lemma warns_app C1 d1 C2 d2 C3 :
  warns C1 d1 C2 -> warns C2 d2 C3 -> warns C1 (d1 ++ d2) C3.
Proof.
  induction 1 as [|C c ty d C' Hc _ IH]; intros H2; [done|].
  simpl. constructor; auto.
Qed.

Lemma bit_port_getPort c port :
  bit_port c port = true -> exists b, getPort c port = Ok [b].
Proof.
  unfold bit_port, getPort. destruct (connections_ c !! port) as [[|b [|??]]|]; try done.
  eauto.
Qed.

Lemma keeps_refl w : keeps w w.
Proof. split; [apply same_setup_refl|done]. Qed.

Lemma keeps_trans w1 w2 w3 : keeps w1 w2 -> keeps w2 w3 -> keeps w1 w3.
Proof.
  intros (?&?&?) (?&?&?). split; [by eapply same_setup_trans|].
  split; congruence.
Qed.

Lemma timestep_cell_spec step terms cell w :
  traced (timestep_cell step terms cell) w
    (fun _ w' d =>
       keeps w w' /\ ez_step_is_consistent w' = ez_step_is_consistent w /\
       warns (cell_warn_cache w) d (cell_warn_cache w'))
    (fun f => is_step_assert f = false /\ cell_ok (module w) cell = false).
Proof.
  unfold timestep_cell, cell_ok.
  do 2 tstep.
  destruct (cells_ (module w) !! cell) as [c|] eqn:Hc; [|done].
  do 4 tstep. simpl.
  apply traced_seq with
    (Q1 := fun _ w1 d1 =>
             keeps w w1 /\ ez_step_is_consistent w1 = ez_step_is_consistent w /\
             warns (cell_warn_cache w) d1 (cell_warn_cache w1))
    (E1 := fun _ => False); [| done |].
  - destruct (negb a && negb (bool_decide (cell ∈ cell_warn_cache w))) eqn:Hwarn.
    + do 3 tstep. simpl. split_and!; try done.
      apply andb_prop in Hwarn as [_ Hin%negb_true_iff%bool_decide_eq_false].
      constructor; [done|constructor].
    + tstep. split_and!; try done; constructor.
  - intros _ w1 d1 _ (Hk & Hcons & Hw).
    assert (Hm : module w1 = module w) by apply Hk.
    destruct (type c =? "$equiv")%string; cycle 1.
    { tstep. rewrite app_nil_r. done. }
    unfold bit_port.
    do 2 tstep. rewrite Hm, Hc.
    destruct (connections_ c !! "\A") as [pa|]; [|done].
    do 2 tstep. unfold to_single_sigbit.
    destruct pa as [|ba [|??]]; simpl; try done.
    do 2 tstep. rewrite Hm, Hc.
    destruct (connections_ c !! "\B") as [pb|]; [|done].
    do 2 tstep. unfold to_single_sigbit.
    destruct pb as [|bb [|??]]; simpl; try done.
    case_bool_decide.
    + do 7 tstep. simpl. rewrite !app_nil_r.
      by split_and!.
    + tstep. rewrite app_nil_r. done.
Qed.

Lemma timestep_cells_spec step cs terms w :
  traced (foldM (timestep_cell step) cs terms) w
    (fun _ w' d =>
       keeps w w' /\ ez_step_is_consistent w' = ez_step_is_consistent w /\
       warns (cell_warn_cache w) d (cell_warn_cache w'))
    (fun f => is_step_assert f = false /\ forallb (cell_ok (module w)) cs = false).
Proof.
  revert terms w. induction cs as [|cell cs IH]; intros terms w; simpl.
  - tstep. split_and!; [apply keeps_refl|done|constructor].
  - eapply traced_seq; [apply timestep_cell_spec| |].
    + intros f [? ->]. done.
    + intros terms' w1 d1 _ (Hk & Hcons & Hw). cbv beta.
      eapply traced_mono; [apply IH| |].
      * intros _ w2 d2 (Hk2 & Hcons2 & Hw2). split_and!.
        -- by eapply keeps_trans.
        -- congruence.
        -- by eapply warns_app.
      * intros f [? Hf]. split; [done|].
        destruct Hk as (_ & <- & _). rewrite Hf. apply andb_false_r.
Qed.

Lemma create_timestep_spec step w :
  traced (create_timestep step) w
    (fun _ w' d =>
       keeps w w' /\ ez_step_is_consistent w !! step = None /\
       (exists e, ez_step_is_consistent w' = <[step := e]> (ez_step_is_consistent w)) /\
       exists dw, d = CreateTimestep step :: dw /\
                  warns (cell_warn_cache w) dw (cell_warn_cache w'))
    (timestep_failure step w).
Proof.
  unfold create_timestep. do 4 tstep. simpl.
  eapply traced_seq; [apply timestep_cells_spec| |].
  - intros f [Hf Hc]. unfold timestep_failure. by rewrite Hf.
  - intros terms w1 d1 _ (Hk & Hcons & Hw). simpl in *. do 2 tstep.
    rewrite Hcons.
    destruct (ez_step_is_consistent w !! step) as [e|] eqn:He.
    + tstep. unfold timestep_failure. simpl. by rewrite He.
    + do 3 tstep. simpl. rewrite !app_nil_r. split_and!; try done.
      * rewrite Hcons. eauto.
      * eauto.
Qed.

(** *** Rewriting cells *)

Lemma bit_port_setPort_ne c p q sig :
  p <> q -> bit_port (setPort c p sig) q = bit_port c q.
Proof. intros Hne. unfold bit_port, setPort. simpl. by rewrite lookup_insert_ne. Qed.

Lemma bit_port_setPort_eq c p sig :
  bit_port (setPort c p sig) p = match sig with [_] => true | _ => false end.
Proof. unfold bit_port, setPort. simpl. by rewrite lookup_insert_eq. Qed.

Lemma bit_port_inv c p : bit_port c p = true -> exists b, connections_ c !! p = Some [b].
Proof.
  unfold bit_port. destruct (connections_ c !! p) as [[|b [|??]]|]; try done. eauto.
Qed.

Lemma target_ok_alias m cell c a cell' :
  cells_ m !! cell = Some c -> getPort c "\A" = Ok a ->
  target_ok m cell' = true ->
  target_ok (module_setPort m cell "\B" a) cell' = true.
Proof.
  intros Hc Ha. unfold target_ok, module_setPort. simpl.
  destruct (decide (cell = cell')) as [<-|Hne]; [|by rewrite lookup_alter_ne].
  rewrite lookup_alter_eq, Hc. simpl.
  rewrite bit_port_setPort_ne, bit_port_setPort_eq by done.
  intros [[HA HB]%andb_prop HY]%andb_prop.
  rewrite HA. apply bit_port_inv in HA as [b HA].
  unfold getPort in Ha. rewrite HA in Ha. injection Ha as <-. simpl.
  revert HY. unfold setPort. simpl. by rewrite lookup_insert_ne.
Qed.

Lemma forallb_target_ok_alias m cell c a cs :
  cells_ m !! cell = Some c -> getPort c "\A" = Ok a ->
  forallb (target_ok m) cs = true ->
  forallb (target_ok (module_setPort m cell "\B" a)) cs = true.
Proof.
  intros Hc Ha. rewrite !forallb_forall. intros Hall x Hx.
  eapply target_ok_alias; eauto.
Qed.

Lemma target_ok_inv m cell :
  target_ok m cell = true ->
  exists c a b y, cells_ m !! cell = Some c /\ connections_ c !! "\A" = Some [a] /\
                  connections_ c !! "\B" = Some [b] /\ connections_ c !! "\Y" = Some y.
Proof.
  unfold target_ok. destruct (cells_ m !! cell) as [c|]; [|done].
  intros [[[a HA]%bit_port_inv [b HB]%bit_port_inv]%andb_prop
            [y HY]%bool_decide_eq_true]%andb_prop.
  by exists c, a, b, y.
Qed.

Lemma alias_all_spec cs w :
  traced (forM alias_B_to_A cs) w
    (fun _ w' d =>
       keeps_encoding w w' /\ success_counter w' = success_counter w /\
       alias_tr (module w) cs d (module w'))
    (fun f => is_step_assert f = false /\ forallb (target_ok (module w)) cs = false).
Proof.
  revert w. induction cs as [|cell cs IH]; intros w; simpl.
  - tstep. split_and!; try done. constructor.
  - assert (Hbad : forall c', (forall c a, cells_ (module w) !! cell = Some c ->
                       connections_ c !! "\A" = Some a -> False) ->
                     is_step_assert c' = false -> is_step_assert c' = false /\
                     target_ok (module w) cell && forallb (target_ok (module w)) cs = false).
    { intros f Hno ?. split; [done|]. apply andb_false_intro1, not_true_iff_false.
      intros (c & a & b & y & Hc & HA & _)%target_ok_inv. eauto. }
    unfold alias_B_to_A at 1. do 3 tstep.
    destruct (cells_ (module w) !! cell) as [c|] eqn:Hc;
      [|by apply Hbad; [intros ??; congruence|]].
    destruct (connections_ c !! "\A") as [a|] eqn:Ha;
      [|by apply Hbad; [intros ??; congruence|]].
    tstep. simpl.
    eapply traced_mono; [apply IH| |]; simpl.
    + intros _ w' d ((Hs & Hcons) & Hn & Hal). split_and!; try done.
      econstructor; [done| |done]. unfold getPort. by rewrite Ha.
    + intros f [? Hf]. split; [done|].
      destruct (target_ok (module w) cell) eqn:Hok; [|done]. simpl.
      destruct (forallb (target_ok (module w)) cs) eqn:Hall; [|done].
      eapply forallb_target_ok_alias in Hall; [|done|by unfold getPort; rewrite Ha].
      congruence.
Qed.

Lemma prove_cell_spec cell w :
  traced (prove_cell cell) w
    (fun _ w' d =>
       keeps_encoding w w' /\
       exists n, marker_tr (sigmap w) (max_seq w) (module w) cell d (module w') n /\
                 success_counter w' = success_counter w + n)
    (fun f => is_step_assert f = false /\ target_ok (module w) cell = false).
Proof.
  assert (Hbad : (forall c a b y, cells_ (module w) !! cell = Some c ->
                    connections_ c !! "\A" = Some [a] ->
                    connections_ c !! "\B" = Some [b] ->
                    connections_ c !! "\Y" = Some y -> False) ->
                 target_ok (module w) cell = false).
  { intros Hno. apply not_true_iff_false.
    intros (c & a & b & y & ? & ? & ? & ?)%target_ok_inv. eauto. }
  unfold prove_cell. do 2 tstep.
  destruct (cells_ (module w) !! cell) as [c|] eqn:Hc;
    [|by split; [|apply Hbad; intros; congruence]].
  destruct (connections_ c !! "\A") as [a|] eqn:HA;
    [|by split; [|apply Hbad; intros; congruence]].
  do 2 tstep.
  destruct (to_single_sigbit (map (sigmap w) a)) as [bit_a|f] eqn:Hbit_a.
  2:{ split; [by destruct a as [|? [|??]]; simplify_eq/=|].
      apply Hbad; intros. by simplify_eq/=. }
  do 2 tstep. rewrite Hc.
  destruct (connections_ c !! "\B") as [b|] eqn:HB;
    [|by split; [|apply Hbad; intros; congruence]].
  do 2 tstep.
  destruct (to_single_sigbit (map (sigmap w) b)) as [bit_b|f] eqn:Hbit_b.
  2:{ split; [by destruct b as [|? [|??]]; simplify_eq/=|].
      apply Hbad; intros. by simplify_eq/=. }
  do 8 tstep. simpl. rewrite Hc.
  destruct (connections_ c !! "\Y") as [y|] eqn:HY;
    [|by split; [|apply Hbad; intros; congruence]].
  do 6 tstep. simpl in *.
  assert (Hq : marker_query bit_a bit_b (max_seq w + 1) (sat w) = (a2, r)).
  { unfold marker_query. rewrite H0, H1, H2, H3. done. }
  destruct r; simpl.
  - tstep. simpl. split_and!; try done. exists 0. split; [|lia].
    exists c, a, b, y, bit_a, bit_b, (sat w), a2, true.
    unfold getPort. rewrite HA, HB, HY. by split_and!.
  - do 2 tstep. unfold alias_B_to_A. do 3 tstep. simpl. rewrite Hc, HA.
    do 2 tstep. simpl. split_and!; try done. exists 1. split; [|done].
    exists c, a, b, y, bit_a, bit_b, (sat w), a2, false.
    unfold getPort. rewrite HA, HB, HY. by split_and!.
Qed.

Lemma keeps_encoding_trans w1 w2 w3 :
  keeps_encoding w1 w2 -> keeps_encoding w2 w3 -> keeps_encoding w1 w3.
Proof.
  intros [? ?] [? ?]. split; [by eapply same_setup_trans|congruence].
Qed.

Lemma marker_tr_target_ok sm k m cell d m' n cs :
  marker_tr sm k m cell d m' n ->
  forallb (target_ok m) cs = true -> forallb (target_ok m') cs = true.
Proof.
  intros (c & a & b & y & bit_a & bit_b & s & x & r & Hc & Ha & _ & _ & _ & _ & _ & Hr).
  destruct r.
  - by destruct Hr as (_ & -> & _).
  - destruct Hr as (_ & -> & _). by apply forallb_target_ok_alias with c.
Qed.

Lemma fallback_spec cs w :
  traced (forM prove_cell cs) w
    (fun _ w' d =>
       keeps_encoding w w' /\
       exists n, fallback_tr (sigmap w) (max_seq w) (module w) cs d (module w') n /\
                 success_counter w' = success_counter w + n)
    (fun f => is_step_assert f = false /\ forallb (target_ok (module w)) cs = false).
Proof.
  revert w. induction cs as [|cell cs IH]; intros w; simpl.
  - tstep. split_and!; try done. exists 0. split; [constructor|lia].
  - eapply traced_seq; [apply prove_cell_spec| |].
    + intros f [? ->]. done.
    + intros _ w1 d1 _ (Hk & n1 & Hm & Hn1). cbv beta.
      eapply traced_mono; [apply IH| |].
      * intros _ w2 d2 (Hk2 & n2 & Hf & Hn2). split; [by eapply keeps_encoding_trans|].
        exists (n1 + n2). split; [|lia].
        destruct Hk as ((_ & Hsm & _ & _ & Hms) & _). rewrite Hsm, Hms in Hf.
        by econstructor.
      * intros f [? Hf]. split; [done|].
        destruct (forallb (target_ok (module w)) cs) eqn:Hall; [|apply andb_false_r].
        eapply marker_tr_target_ok in Hall; [|done]. congruence.
Qed.

(** *** The loop over the steps *)

Lemma timesteps_app d1 d2 : timesteps (d1 ++ d2) = (timesteps d1 ++ timesteps d2)%list.
Proof. apply omap_app. Qed.

Lemma warns_timesteps C d C' : warns C d C' -> timesteps d = [].
Proof. induction 1; [done|]. by simpl. Qed.

Lemma alias_tr_timesteps m cs d m' : alias_tr m cs d m' -> timesteps d = [].
Proof. induction 1; [done|]. by simpl. Qed.


Lemma well_formed_cells w :
  forallb (cell_ok (module w)) (cells w) = false -> well_formed w = false.
Proof. unfold well_formed. by intros ->. Qed.

Lemma well_formed_workset w :
  forallb (target_ok (module w)) (workset w) = false -> well_formed w = false.
Proof. unfold well_formed. intros ->. apply andb_false_r. Qed.

Lemma induct_spec n : forall step w,
  is_Some (ez_step_is_consistent w !! step) ->
  (forall s, step < s -> ez_step_is_consistent w !! s = None) ->
  traced (induct n step) w
    (fun exit w' d =>
       same_setup w w' /\
       loop_tr (workset w) (max_seq w) (module w) n step (cell_warn_cache w) d exit
         (module w') /\
       success_counter w' = success_counter w +
         match exit with
         | Returned => Z.of_nat (length (workset w))
         | FellThrough => 0
         end /\
       forall s, is_Some (ez_step_is_consistent w' !! s) <->
                 is_Some (ez_step_is_consistent w !! s) \/ s ∈ timesteps d)
    (fun f => is_step_assert f = false /\ well_formed w = false).
Proof.
  induction n as [|n IH]; intros step w [e He] Hnone; simpl.
  - tstep. split_and!; [apply same_setup_refl|constructor|lia|].
    intros s. split; [auto|]. intros [?|Hin]; [done|]. by apply elem_of_nil in Hin.
  - do 2 tstep. rewrite He. do 8 tstep. simpl.
    destruct r; simpl.
    2:{ do 3 tstep. simpl. split_and!; [by repeat split|constructor|lia|].
        intros s'. split; [auto|]. intros [?|Hin]; [done|]. by apply elem_of_nil in Hin. }
    eapply traced_seq; [apply create_timestep_spec| |].
    { intros f Hf. unfold timestep_failure in Hf. simpl in Hf.
      destruct (is_step_assert f).
      - rewrite Hnone in Hf by lia. by destruct Hf.
      - split; [done|]. by apply well_formed_cells. }
    intros _ w1 d1 _ (Hk & _ & [e1 He1] & dw & -> & Hw). simpl in *.
    destruct Hk as ((Hname & Hsm & Hcells & HW & Hk) & Hmod & Hcount). simpl in *.
    do 2 tstep. rewrite He1, lookup_insert_eq. do 10 tstep. simpl.
    destruct r; simpl.
    + (* the induction step has a counterexample: next round *)
      do 2 tstep. simpl.
      eapply traced_mono; [apply IH| |]; simpl.
      * rewrite He1, lookup_insert_eq. eauto.
      * intros s' Hs'. rewrite He1, lookup_insert_ne by lia. apply Hnone. lia.
      * intros exit w2 d2 ((?&?&?&?&?) & Hloop & Hc2 & Hdom). simpl in *.
        rewrite HW, Hk, Hmod in Hloop. rewrite HW in Hc2.
        split_and!; [repeat split; congruence| |congruence|].
        -- rewrite Hk. eapply loop_next; eauto.
        -- intros s'. rewrite Hdom, He1, lookup_insert_is_Some'.
           rewrite !timesteps_app, (warns_timesteps _ _ _ Hw). simpl.
           rewrite elem_of_cons. intuition (subst; eauto).
      * intros f [? Hf]. split; [done|]. revert Hf. unfold well_formed. simpl.
        by rewrite Hmod, Hcells, HW.
    + (* the induction step holds: rewrite the workset and return *)
      do 2 tstep. simpl. rewrite HW.
      eapply traced_seq; [apply alias_all_spec| |]; simpl.
      { intros f [? Hf]. split; [done|]. apply well_formed_workset.
        by rewrite Hmod in Hf. }
      intros _ w2 d2 _ (((?&?&?&?&?) & Hc2) & Hn2 & Hal). simpl in *.
      do 3 tstep. simpl. rewrite Hmod in Hal.
      split_and!; [repeat split; simpl; congruence| | |].
      * rewrite !app_nil_r. eapply loop_holds; eauto.
      * lia.
      * intros s'. rewrite Hc2, He1, lookup_insert_is_Some'.
        rewrite !app_nil_r, !timesteps_app, (warns_timesteps _ _ _ Hw). simpl.
        rewrite (alias_tr_timesteps _ _ _ _ Hal), elem_of_cons, elem_of_nil.
        intuition (subst; eauto).
Qed.


Lemma fallback_tr_timesteps sm k m cs d m' n :
  fallback_tr sm k m cs d m' n -> timesteps d = [].
Proof.
  induction 1 as [|m cell cs d1 m1 n1 d2 m2 n2 Hm _ IH]; [done|].
  rewrite timesteps_app, IH, app_nil_r.
  destruct Hm as (c & a & b & y & bit_a & bit_b & s & x & r & _ & _ & _ & _ & _ & _ & _ & Hr).
  by destruct r; destruct Hr as (-> & _).
Qed.

Lemma loop_tr_fell W k m n step C d exit m' :
  loop_tr W k m n step C d exit m' -> exit = FellThrough -> m' = m.
Proof. induction 1; auto; discriminate. Qed.

(** *** The whole run *)

Lemma run_spec w :
  (forall s, 1 <= s -> ez_step_is_consistent w !! s = None) ->
  traced run w
    (fun _ w' d =>
       same_setup w w' /\
       run_tr w d (module w') (success_counter w' - success_counter w) /\
       forall s, is_Some (ez_step_is_consistent w' !! s) <->
                 is_Some (ez_step_is_consistent w !! s) \/ s ∈ timesteps d)
    (fun f => is_step_assert f = false /\ well_formed w = false).
Proof.
  intros Hfresh. unfold run. do 4 tstep. simpl.
  eapply traced_seq; [apply create_timestep_spec| |].
  { intros f Hf. unfold timestep_failure in Hf. simpl in Hf.
    destruct (is_step_assert f).
    - rewrite Hfresh in Hf by lia. by destruct Hf.
    - split; [done|]. by apply well_formed_cells. }
  intros _ w1 d1 _ (Hk & _ & [e1 He1] & dw & -> & Hw). simpl in *.
  destruct Hk as ((Hname & Hsm & Hcells & HW & Hk) & Hmod & Hcount). simpl in *.
  eapply traced_seq; [apply induct_spec| |].
  - rewrite He1, lookup_insert_eq. eauto.
  - intros s Hs. rewrite He1, lookup_insert_ne by lia. apply Hfresh. lia.
  - intros f [? Hf]. split; [done|]. revert Hf. unfold well_formed.
    by rewrite Hmod, Hcells, HW.
  - intros exit w2 d2 _ ((?&?&?&?&?) & Hloop & Hc2 & Hdom). simpl in *.
    rewrite HW, Hk, Hmod in Hloop. rewrite HW in Hc2.
    assert (Hdom' : forall d3, timesteps d3 = [] ->
              forall s, is_Some (ez_step_is_consistent w2 !! s) <->
                is_Some (ez_step_is_consistent w !! s) \/
                s ∈ timesteps (Log (MsgFound (Z.of_nat (length (workset w))) (module_name w))
                                 :: (CreateTimestep 1 :: dw) ++ d2 ++ d3)).
    { intros d3 Hd3 s. rewrite Hdom, He1, lookup_insert_is_Some'. simpl.
      rewrite !timesteps_app, (warns_timesteps _ _ _ Hw), Hd3, app_nil_r. simpl.
      rewrite elem_of_cons. intuition (subst; eauto). }
    destruct exit.
    + tstep. split_and!; [repeat split; congruence| |by apply Hdom'].
      exists dw, (cell_warn_cache w1), d2, Returned, (module w2), [].
      split_and!; try done. lia.
    + eapply traced_mono; [apply fallback_spec| |]; simpl.
      * intros _ w3 d3 (((?&?&?&?&?) & Hc3) & n & Hf & Hn).
        split_and!; [repeat split; congruence| |].
        -- exists dw, (cell_warn_cache w1), d2, FellThrough, (module w2), d3.
           split_and!; try done. simpl.
           replace (success_counter w3 - success_counter w) with n by lia.
           congruence.
        -- intros s. rewrite Hc3. apply Hdom'. by eapply fallback_tr_timesteps.
      * intros f [? Hf]. split; [done|]. apply well_formed_workset.
        by rewrite <- (loop_tr_fell _ _ _ _ _ _ _ _ _ Hloop eq_refl).
Qed.

End Specs.




End WorkerSpecs.

(** ** Reading the trace of a run *)

Module TraceFacts.
Import EquivInduct WorkerLogic WorkerRules WorkerSpecs.

Section Facts.
Context {S : Type} `{EzSat S}.

Implicit Types (w : Worker S) (m : Module) (d : list Event).

(** *** Time steps *)

Lemma loop_tr_timesteps W k m n step C d exit m' :
  loop_tr W k m n step C d exit m' ->
  exists j, (j <= n)%nat /\
            timesteps d = map (fun i => step + Z.of_nat i) (seq 1 j).
Proof.
  induction 1 as [step C|n step C cl v|n step C C' cl v cl' v' dw x da m' Hw Hal
                 |n step C C' cl v cl' v' dw x d exit m' Hw _ (j & Hj & IH)].
  - by exists O.
  - exists O. split; [lia|done].
  - exists 1%nat. split; [lia|]. simpl.
    rewrite timesteps_app, (warns_timesteps _ _ _ Hw). simpl.
    by rewrite (alias_tr_timesteps _ _ _ _ Hal).
  - exists (Datatypes.S j). split; [lia|]. simpl.
    rewrite timesteps_app, (warns_timesteps _ _ _ Hw). simpl. f_equal.
    rewrite IH, <- (seq_shift j 1), map_map. apply map_ext. intros i. lia.
Qed.

Lemma run_tr_timesteps w d m' n :
  run_tr w d m' n ->
  exists j, (j <= Z.to_nat (max_seq w))%nat /\ timesteps d = steps_upto (Datatypes.S j).
Proof.
  intros (dw & C & dl & exit & m1 & df & -> & Hw & Hloop & Hexit).
  destruct (loop_tr_timesteps _ _ _ _ _ _ _ _ _ Hloop) as (j & Hj & Hdl).
  exists j. split; [done|]. simpl.
  rewrite !timesteps_app, (warns_timesteps _ _ _ Hw), Hdl. simpl.
  assert (timesteps df = []) as ->.
  { destruct exit; [by destruct Hexit as (-> & _)|by eapply fallback_tr_timesteps]. }
  rewrite app_nil_r. unfold steps_upto. simpl. f_equal.
  rewrite <- (seq_shift j 1), !map_map. apply map_ext. intros i. lia.
Qed.

Lemma steps_upto_NoDup n : NoDup (steps_upto n).
Proof.
  unfold steps_upto. apply NoDup_fmap_2; [intros ???; lia|apply NoDup_seq].
Qed.

(** *** Warnings *)

Lemma warned_app d1 d2 : warned (d1 ++ d2) = (warned d1 ++ warned d2)%list.
Proof. apply omap_app. Qed.

Lemma warns_grows C d C' : warns C d C' -> C ⊆ C'.
Proof. induction 1; set_solver. Qed.

Lemma warns_warned C d C' :
  warns C d C' -> NoDup (warned d) /\ forall c, c ∈ warned d -> (c ∉ C) /\ (c ∈ C').
Proof.
  induction 1 as [|C c ty d C' Hc Hw [IHnd IH]]; simpl.
  - split; [constructor|]. intros c Hin. by apply elem_of_nil in Hin.
  - split.
    + constructor; [|done]. intros Hin. apply IH in Hin. set_solver.
    + intros c' [->|Hin]%elem_of_cons.
      * split; [done|]. apply warns_grows in Hw. set_solver.
      * apply IH in Hin. set_solver.
Qed.

Lemma alias_tr_warned m cs d m' : alias_tr m cs d m' -> warned d = [].
Proof. induction 1; [done|]. by simpl. Qed.

Lemma fallback_tr_warned sm k m cs d m' n :
  fallback_tr sm k m cs d m' n -> warned d = [].
Proof.
  induction 1 as [|m cell cs d1 m1 n1 d2 m2 n2 Hm _ IH]; [done|].
  rewrite warned_app, IH, app_nil_r.
  destruct Hm as (c & a & b & y & bit_a & bit_b & s & x & r & _ & _ & _ & _ & _ & _ & _ & Hr).
  by destruct r; destruct Hr as (-> & _).
Qed.

Lemma loop_tr_warned W k m n step C d exit m' :
  loop_tr W k m n step C d exit m' ->
  NoDup (warned d) /\ forall c, c ∈ warned d -> c ∉ C.
Proof.
  induction 1 as [step C|n step C cl v|n step C C' cl v cl' v' dw x da m' Hw Hal
                 |n step C C' cl v cl' v' dw x d exit m' Hw _ [IHnd IH]]; simpl.
  - split; [constructor|]. intros c Hin. by apply elem_of_nil in Hin.
  - split; [constructor|]. intros c Hin. by apply elem_of_nil in Hin.
  - rewrite warned_app. simpl. rewrite (alias_tr_warned _ _ _ _ Hal), app_nil_r.
    destruct (warns_warned _ _ _ Hw) as [? Hin]. split; [done|]. intros c Hc.
    by apply Hin.
  - rewrite warned_app. simpl.
    destruct (warns_warned _ _ _ Hw) as [? Hin]. split.
    + apply NoDup_app. split_and!; [done| |done].
      intros c Hc Hc'. apply Hin in Hc. apply IH in Hc'. tauto.
    + intros c [Hc|Hc]%elem_of_app; [by apply Hin|].
      apply IH in Hc. apply warns_grows in Hw. set_solver.
Qed.

Lemma run_tr_warned w d m' n : run_tr w d m' n -> NoDup (warned d).
Proof.
  intros (dw & C & dl & exit & m1 & df & -> & Hw & Hloop & Hexit). simpl.
  rewrite !warned_app.
  assert (warned df = []) as ->.
  { destruct exit; [by destruct Hexit as (-> & _)|by eapply fallback_tr_warned]. }
  rewrite app_nil_r.
  destruct (warns_warned _ _ _ Hw) as [? Hin].
  destruct (loop_tr_warned _ _ _ _ _ _ _ _ _ Hloop) as [? Hin'].
  apply NoDup_app. split_and!; [done| |done].
  intros c Hc Hc'. apply Hin in Hc. apply Hin' in Hc'. tauto.
Qed.

End Facts.
End TraceFacts.

(** ** Port writes and the solver answers before them *)

Module GuardFacts.
Import EquivInduct WorkerLogic WorkerRules WorkerSpecs TraceFacts.

Section Facts.
Context {S : Type} `{EzSat S}.

Implicit Types (w : Worker S) (m : Module) (d : list Event).

Lemma guarded_warns C dw C' last rest :
  warns C dw C' -> guarded last (dw ++ rest) = guarded last rest.
Proof. induction 1; [done|]. by simpl. Qed.

Lemma guarded_alias m cs da m' i rest :
  alias_tr m cs da m' ->
  guarded (Some (QStep i)) (da ++ rest) = guarded (Some (QStep i)) rest.
Proof. induction 1; [done|]. by simpl. Qed.

Lemma guarded_fallback sm k m cs d m' n :
  fallback_tr sm k m cs d m' n -> forall last, guarded last d = true.
Proof.
  induction 1 as [|m cell cs d1 m1 n1 d2 m2 n2 Hm _ IH]; [done|]. intros last.
  destruct Hm as (c & a & b & y & bit_a & bit_b & s & x & r & _ & _ & _ & _ & _ & _ & _ & Hr).
  destruct r; destruct Hr as (-> & _); simpl; [by apply IH|].
  rewrite bool_decide_eq_true_2 by done. simpl. apply IH.
Qed.

Lemma guarded_loop W k m n step C d exit m' :
  loop_tr W k m n step C d exit m' ->
  forall last rest, (forall last', guarded last' rest = true) ->
                    guarded last (d ++ rest) = true.
Proof.
  induction 1 as [step C|n step C cl v|n step C C' cl v cl' v' dw x da m' Hw Hal
                 |n step C C' cl v cl' v' dw x d exit m' Hw _ IH];
    intros last rest Hrest; simpl; try done.
  - rewrite <- app_assoc, (guarded_warns _ _ _ _ _ Hw). simpl.
    by rewrite (guarded_alias _ _ _ _ _ _ Hal).
  - rewrite <- app_assoc, (guarded_warns _ _ _ _ _ Hw). simpl. by apply IH.
Qed.

Lemma guarded_run w d m' n : run_tr w d m' n -> guarded None d = true.
Proof.
  intros (dw & C & dl & exit & m1 & df & -> & Hw & Hloop & Hexit). simpl.
  rewrite (guarded_warns _ _ _ _ _ Hw).
  eapply guarded_loop; [done|]. intros last.
  destruct exit; [by destruct Hexit as (-> & _)|by eapply guarded_fallback].
Qed.

(** Every write in a guarded trace has its UNSAT answer in the trace. *)
Lemma guarded_justified d : forall last c,
  guarded last d = true -> c ∈ rewrites d ->
  (exists q, last = Some q /\ justifies q c = true) \/
  (exists q a, Solve q a false ∈ d /\ justifies q c = true).
Proof.
  induction d as [|e d IH]; intros last c Hg Hc; simpl in *.
  - by apply elem_of_nil in Hc.
  - destruct e as [msg|q a r|c' p sig|s]; simpl in *.
    + destruct (IH _ _ Hg Hc) as [?|(q & a & Hin & ?)]; [by left|].
      right. exists q, a. split; [by right|done].
    + destruct (IH _ _ Hg Hc) as [(q' & Hq' & ?)|(q' & a' & Hin & ?)].
      * right. destruct r; [done|]. injection Hq' as <-. exists q, a.
        split; [by left|done].
      * right. exists q', a'. split; [by right|done].
    + destruct last as [q|]; [|done]. apply andb_prop in Hg as [Hj Hg].
      apply elem_of_cons in Hc as [->|Hc]; [left; eauto|].
      destruct (IH _ _ Hg Hc) as [?|(q' & a' & Hin & ?)]; [by left|].
      right. exists q', a'. split; [by right|done].
    + destruct (IH _ _ Hg Hc) as [?|(q & a & Hin & ?)]; [by left|].
      right. exists q, a. split; [by right|done].
Qed.

(** Without an UNSAT answer a guarded trace has no write. *)
Lemma guarded_all_sat d :
  guarded None d = true ->
  (forall q a r, Solve q a r ∈ d -> r = true) ->
  rewrites d = [].
Proof.
  intros Hg Hsat. destruct (rewrites d) as [|c cs] eqn:Hr; [done|].
  destruct (guarded_justified d None c Hg) as [(q & ? & _)|(q & a & Hin & _)].
  - rewrite Hr. by left.
  - done.
  - by apply Hsat in Hin.
Qed.

(** *** The module is what the writes make of it *)

Lemma replay_app d1 d2 m : replay (d1 ++ d2) m = replay d2 (replay d1 m).
Proof. apply foldl_app. Qed.

Lemma replay_warns C dw C' m : warns C dw C' -> replay dw m = m.
Proof. intros Hw. revert m. induction Hw; [done|]. intros m. simpl. apply IHHw. Qed.

Lemma replay_alias m cs da m' : alias_tr m cs da m' -> m' = replay da m.
Proof. induction 1; [done|]. by simpl. Qed.

Lemma replay_fallback sm k m cs d m' n :
  fallback_tr sm k m cs d m' n -> m' = replay d m.
Proof.
  induction 1 as [|m cell cs d1 m1 n1 d2 m2 n2 Hm _ IH]; [done|].
  rewrite replay_app, IH. f_equal.
  destruct Hm as (c & a & b & y & bit_a & bit_b & s & x & r & _ & _ & _ & _ & _ & _ & _ & Hr).
  by destruct r; destruct Hr as (-> & -> & _).
Qed.

Lemma replay_loop W k m n step C d exit m' :
  loop_tr W k m n step C d exit m' -> m' = replay d m.
Proof.
  induction 1 as [step C|n step C cl v|n step C C' cl v cl' v' dw x da m' Hw Hal
                 |n step C C' cl v cl' v' dw x d exit m' Hw _ IH];
    simpl; try done.
  - rewrite replay_app, (replay_warns _ _ _ _ Hw). simpl. by eapply replay_alias.
  - rewrite replay_app, (replay_warns _ _ _ _ Hw). by simpl.
Qed.

Lemma replay_run w d m' n : run_tr w d m' n -> m' = replay d (module w).
Proof.
  intros (dw & C & dl & exit & m1 & df & -> & Hw & Hloop & Hexit). simpl.
  rewrite !replay_app, (replay_warns _ _ _ _ Hw), <- (replay_loop _ _ _ _ _ _ _ _ _ Hloop).
  destruct exit; [by destruct Hexit as (-> & -> & _)|by eapply replay_fallback].
Qed.

Lemma replay_no_rewrites d m : rewrites d = [] -> replay d m = m.
Proof.
  revert m. induction d as [|e d IH]; intros m Hr; [done|].
  destruct e; simpl in *; try by apply IH. done.
Qed.

Lemma replay_changes d : forall m c,
  cells_ (replay d m) !! c <> cells_ m !! c -> c ∈ rewrites d.
Proof.
  induction d as [|e d IH]; intros m c Hne; [done|].
  destruct e as [msg|q a r|c' p sig|s]; simpl in *; try by eapply IH.
  destruct (decide (c' = c)) as [->|Hc]; [by left|]. right.
  apply (IH (module_setPort m c' p sig)). simpl. by rewrite lookup_alter_ne.
Qed.

End Facts.
End GuardFacts.

(** ** What the rewriting loops do to the cells *)

Module CellFacts.
Import EquivInduct WorkerLogic WorkerRules WorkerSpecs TraceFacts GuardFacts.

Section Facts.
Context {S : Type} `{EzSat S}.

Implicit Types (w : Worker S) (m : Module) (d : list Event).

Lemma setPort_twice c p sig : setPort (setPort c p sig) p sig = setPort c p sig.
Proof. unfold setPort. simpl. by rewrite insert_insert_eq. Qed.

Lemma getPort_setPort_ne c p q sig : p <> q -> getPort (setPort c p sig) q = getPort c q.
Proof. intros Hne. unfold getPort, setPort. simpl. by rewrite lookup_insert_ne. Qed.

Lemma getPort_setPort_eq c p sig : getPort (setPort c p sig) p = Ok sig.
Proof. unfold getPort, setPort. simpl. by rewrite lookup_insert_eq. Qed.

Lemma alias_tr_cells m cs da m' :
  alias_tr m cs da m' ->
  (forall c, c ∉ cs -> cells_ m' !! c = cells_ m !! c) /\
  (forall c, c ∈ cs -> exists cell a,
      cells_ m !! c = Some cell /\ getPort cell "\A" = Ok a /\
      cells_ m' !! c = Some (setPort cell "\B" a)).
Proof.
  induction 1 as [|m cell cs c a da m' Hc Ha _ [IHout IHin]].
  - split; [done|]. intros c Hin. by apply elem_of_nil in Hin.
  - split.
    + intros c' [Hne Hnin]%not_elem_of_cons. rewrite IHout by done. simpl.
      by rewrite lookup_alter_ne.
    + intros c' Hin. destruct (decide (c' ∈ cs)) as [Hcs|Hcs].
      * destruct (IHin _ Hcs) as (cell1 & a1 & Hc1 & Ha1 & Hc'). simpl in Hc1.
        destruct (decide (cell = c')) as [->|Hne].
        -- rewrite lookup_alter_eq, Hc in Hc1. injection Hc1 as <-.
           rewrite getPort_setPort_ne in Ha1 by done.
           assert (a1 = a) as -> by congruence.
           exists c, a. by rewrite Hc', setPort_twice.
        -- rewrite lookup_alter_ne in Hc1 by done. by exists cell1, a1.
      * apply elem_of_cons in Hin as [->|?]; [|done].
        exists c, a. rewrite IHout by done. simpl.
        by rewrite lookup_alter_eq, Hc.
Qed.

Lemma alias_tr_events m cs da m' :
  alias_tr m cs da m' -> solver_calls da = [] /\ rewrites da = cs.
Proof.
  induction 1 as [|m cell cs c a da m' Hc Ha _ [IH1 IH2]]; [done|].
  simpl. split; [done|]. by f_equal.
Qed.

(** *** The closing loop *)

Lemma calls_for_app c d1 d2 : calls_for c (d1 ++ d2) = (calls_for c d1 ++ calls_for c d2)%list.
Proof. apply omap_app. Qed.

Lemma rewrites_app d1 d2 : rewrites (d1 ++ d2) = (rewrites d1 ++ rewrites d2)%list.
Proof. apply omap_app. Qed.

Lemma solver_calls_app d1 d2 :
  solver_calls (d1 ++ d2) = (solver_calls d1 ++ solver_calls d2)%list.
Proof. apply omap_app. Qed.

Lemma marker_tr_other sm k m cell d m' n c :
  marker_tr sm k m cell d m' n -> c <> cell ->
  cells_ m' !! c = cells_ m !! c /\ calls_for c d = [].
Proof.
  intros (c0 & a & b & y & bit_a & bit_b & s & x & r & _ & _ & _ & _ & _ & _ & _ & Hr) Hne.
  destruct r; destruct Hr as (-> & -> & _); simpl.
  - by rewrite bool_decide_eq_false_2.
  - by rewrite lookup_alter_ne, bool_decide_eq_false_2.
Qed.

Lemma fallback_tr_other sm k m cs d m' n c :
  fallback_tr sm k m cs d m' n -> c ∉ cs ->
  cells_ m' !! c = cells_ m !! c /\ calls_for c d = [].
Proof.
  induction 1 as [|m cell cs d1 m1 n1 d2 m2 n2 Hm _ IH]; [done|].
  intros [Hne Hnin]%not_elem_of_cons.
  destruct (marker_tr_other _ _ _ _ _ _ _ c Hm Hne) as [Hc1 Hd1].
  destruct (IH Hnin) as [Hc2 Hd2].
  by rewrite calls_for_app, Hd1, Hd2, Hc2, Hc1.
Qed.

Lemma fallback_tr_marker sm k m cs d m' n :
  fallback_tr sm k m cs d m' n -> NoDup cs ->
  forall cell, cell ∈ cs -> marker_outcome sm k m cell d m'.
Proof.
  induction 1 as [|m cell cs d1 m1 n1 d2 m2 n2 Hm Hf IH].
  { intros _ cell Hin. by apply elem_of_nil in Hin. }
  intros [Hnin Hnd]%NoDup_cons cell' [->|Hin]%elem_of_cons.
  - destruct (fallback_tr_other _ _ _ _ _ _ _ cell Hf Hnin) as [Hc2 Hd2].
    destruct Hm as (c & a & b & y & bit_a & bit_b & s & x & r
                    & Hc & Ha & Hb & Hy & Hba & Hbb & Hq & Hr).
    exists c, a, b, bit_a, bit_b, s, x, r. split_and!; try done.
    + rewrite calls_for_app, Hd2, app_nil_r.
      destruct r; destruct Hr as (-> & _); simpl; by rewrite bool_decide_eq_true_2.
    + rewrite Hc2. destruct r; destruct Hr as (_ & -> & _); [done|]. simpl.
      by rewrite lookup_alter_eq, Hc.
  - assert (cell' <> cell) as Hne by (intros ->; done).
    destruct (marker_tr_other _ _ _ _ _ _ _ cell' Hm Hne) as [Hc1 Hd1].
    destruct (IH Hnd _ Hin) as (c & a & b & bit_a & bit_b & s & x & r
                                & Hc & Ha & Hb & Hba & Hbb & Hq & Hcalls & Hc').
    exists c, a, b, bit_a, bit_b, s, x, r. split_and!; try done.
    + by rewrite <- Hc1.
    + by rewrite calls_for_app, Hd1.
Qed.

Lemma fallback_tr_count sm k m cs d m' n :
  fallback_tr sm k m cs d m' n -> n = Z.of_nat (length (rewrites d)).
Proof.
  induction 1 as [|m cell cs d1 m1 n1 d2 m2 n2 Hm _ IH]; [done|].
  rewrite rewrites_app, length_app, IH.
  destruct Hm as (c & a & b & y & bit_a & bit_b & s & x & r & _ & _ & _ & _ & _ & _ & _ & Hr).
  destruct r; destruct Hr as (-> & _ & ->); simpl; lia.
Qed.

Lemma fallback_tr_no_step sm k m cs d m' n q a r :
  fallback_tr sm k m cs d m' n -> Solve q a r ∈ d -> exists c, q = QMarker c.
Proof.
  induction 1 as [|m cell cs d1 m1 n1 d2 m2 n2 Hm _ IH]; intros Hin.
  { by apply elem_of_nil in Hin. }
  apply elem_of_app in Hin as [Hin|Hin]; [|by apply IH].
  destruct Hm as (c & a' & b & y & bit_a & bit_b & s & x & r' & _ & _ & _ & _ & _ & _ & _ & Hr).
  destruct r'; destruct Hr as (-> & _);
    repeat (apply elem_of_cons in Hin as [Hin|Hin]; [simplify_eq; eauto|]);
    by apply elem_of_nil in Hin.
Qed.

End Facts.
End CellFacts.

(** ** Runs of a fresh worker *)

Module RunFacts.
Import EquivInduct WorkerLogic WorkerRules WorkerSpecs TraceFacts GuardFacts CellFacts.

Section Facts.
Context {S : Type} `{EzSat S}.

Implicit Types (w : Worker S) (m : Module) (d : list Event).

(** A run of a fresh worker either completes as [run_tr] says, or stops on
    a failure other than the assertion of [create_timestep], and only if
    the worker is not well formed. *)
Lemma run_fresh w :
  fresh w ->
  match run w with
  | Ok (_, w') =>
      same_setup w w' /\
      run_tr w (trace w') (module w') (success_counter w' - success_counter w) /\
      forall s, is_Some (ez_step_is_consistent w' !! s) <-> s ∈ timesteps (trace w')
  | Abort f => is_step_assert f = false /\ well_formed w = false
  end.
Proof.
  intros (Hcons & _ & Htr).
  assert (Hspec := run_spec w). unfold traced in Hspec.
  destruct (run w) as [[[] w']|f].
  - destruct Hspec as (d & Hd & Hs & Hrun & Hdom).
    { intros s _. by rewrite Hcons, lookup_empty. }
    rewrite Htr in Hd. simpl in Hd. subst d. split_and!; try done.
    intros s. rewrite Hdom, Hcons, lookup_empty. split; [|by right].
    intros [[? ?]|?]; done.
  - apply Hspec. intros s _. by rewrite Hcons, lookup_empty.
Qed.

Lemma run_returns w :
  fresh w -> well_formed w = true ->
  exists w', run w = Ok (tt, w') /\ same_setup w w' /\
             run_tr w (trace w') (module w') (success_counter w' - success_counter w).
Proof.
  intros Hf Hwf. assert (Hrun := run_fresh w Hf).
  destruct (run w) as [[[] w']|f].
  - exists w'. by destruct Hrun as (? & ? & _).
  - destruct Hrun as [_ ?]. congruence.
Qed.

(** *** A successful induction step ends the run *)

Lemma warns_no_solve C dw C' q a r : warns C dw C' -> Solve q a r ∉ dw.
Proof.
  induction 1; [apply not_elem_of_nil|]. by apply not_elem_of_cons.
Qed.

Lemma loop_tr_step_unsat W k m n step C d exit m' i a :
  loop_tr W k m n step C d exit m' -> Solve (QStep i) a false ∈ d ->
  exit = Returned /\ holds_tail W m i a d m'.
Proof.
  induction 1 as [step C|n step C cl v|n step C C' cl v cl' v' dw x da m' Hw Hal
                 |n step C C' cl v cl' v' dw x d exit m' Hw _ IH]; intros Hin.
  - by apply elem_of_nil in Hin.
  - repeat (apply elem_of_cons in Hin as [Hin|Hin]; [done|]).
    by apply elem_of_nil in Hin.
  - split; [done|].
    do 3 (apply elem_of_cons in Hin as [Hin|Hin]; [done|]).
    apply elem_of_app in Hin as [Hin|Hin]; [by apply (warns_no_solve _ _ _ _ _ _ Hw) in Hin|].
    apply elem_of_cons in Hin as [Hin|Hin]; [done|].
    apply elem_of_cons in Hin as [Hin|Hin].
    + injection Hin as -> ->.
      exists (Log (MsgBase step cl v) :: Solve (QBase step) [] true
                :: CreateTimestep (step + 1) :: dw ++ [Log (MsgStep step cl' v')])%list, x, da.
      split_and!; try done. simpl. by rewrite <- app_assoc.
    + apply elem_of_cons in Hin as [Hin|Hin]; [done|].
      destruct (alias_tr_events _ _ _ _ Hal) as [Hnone _].
      exfalso. clear -Hin Hnone. induction da as [|e da IH]; [by apply elem_of_nil in Hin|].
      apply elem_of_cons in Hin as [<-|Hin]; [done|].
      destruct e; simpl in Hnone; try done; by apply IH.
  - do 3 (apply elem_of_cons in Hin as [Hin|Hin]; [done|]).
    apply elem_of_app in Hin as [Hin|Hin]; [by apply (warns_no_solve _ _ _ _ _ _ Hw) in Hin|].
    do 3 (apply elem_of_cons in Hin as [Hin|Hin]; [done|]).
    destruct (IH Hin) as (-> & pre & x' & da & -> & -> & Hal). split; [done|].
    exists (Log (MsgBase step cl v) :: Solve (QBase step) [] true
              :: CreateTimestep (step + 1) :: dw
              ++ Log (MsgStep step cl' v') :: Solve (QStep step) [x] true
              :: Log (MsgStepFailed step (bool_decide (step <> k))) :: pre)%list, x', da.
    split_and!; try done. simpl. rewrite <- !app_assoc. simpl. done.
Qed.

Lemma run_tr_step_unsat w d m' n i a :
  run_tr w d m' n -> Solve (QStep i) a false ∈ d ->
  holds_tail (workset w) (module w) i a d m' /\ n = Z.of_nat (length (workset w)).
Proof.
  intros (dw & C & dl & exit & m1 & df & -> & Hw & Hloop & Hexit) Hin.
  do 2 (apply elem_of_cons in Hin as [Hin|Hin]; [done|]).
  apply elem_of_app in Hin as [Hin|Hin]; [by apply (warns_no_solve _ _ _ _ _ _ Hw) in Hin|].
  apply elem_of_app in Hin as [Hin|Hin].
  - destruct (loop_tr_step_unsat _ _ _ _ _ _ _ _ _ _ _ Hloop Hin)
      as (-> & pre & x & da & -> & -> & Hal).
    destruct Hexit as (-> & -> & ->). split; [|done].
    exists (Log (MsgFound (Z.of_nat (length (workset w))) (module_name w))
              :: CreateTimestep 1 :: dw ++ pre)%list, x, da.
    split_and!; try done. simpl. by rewrite app_nil_r, <- !app_assoc.
  - destruct exit; [destruct Hexit as (-> & _); by apply elem_of_nil in Hin|].
    by destruct (fallback_tr_no_step _ _ _ _ _ _ _ _ _ _ Hexit Hin).
Qed.

(** *** Without one, the closing loop treats every marker *)

Lemma run_tr_no_step_unsat w d m' n :
  run_tr w d m' n -> (forall i a, Solve (QStep i) a false ∉ d) ->
  exists d0 df, d = (d0 ++ df)%list /\ (forall c, calls_for c d0 = []) /\
                fallback_tr (sigmap w) (max_seq w) (module w) (workset w) df m' n.
Proof.
  intros (dw & C & dl & exit & m1 & df & -> & Hw & Hloop & Hexit) Hno.
  destruct exit.
  - (* a returning loop has an UNSAT step query *)
    assert (exists i x, Solve (QStep i) [x] false ∈ dl) as (i & x & Hin).
    { clear -Hloop. remember Returned as exit eqn:He.
      induction Hloop as [| |n step C C' cl v cl' v' dw x da m' Hw Hal
                         |n step C C' cl v cl' v' dw x d exit m' Hw _ IH]; try done.
      - exists step, x. do 3 right. apply elem_of_app. right. by right; left.
      - destruct (IH He) as (i & x' & Hin). exists i, x'. do 3 right.
        apply elem_of_app. right. by do 3 right. }
    exfalso. eapply (Hno i [x]). do 2 right. apply elem_of_app. right.
    apply elem_of_app. by left.
  - rewrite (loop_tr_fell _ _ _ _ _ _ _ _ _ Hloop eq_refl) in Hexit.
    exists (Log (MsgFound (Z.of_nat (length (workset w))) (module_name w))
              :: CreateTimestep 1 :: dw ++ dl)%list, df.
    split_and!; [by simpl; rewrite <- app_assoc| |done].
    intros c. simpl. rewrite calls_for_app.
    assert (calls_for c dw = []) as ->.
    { clear -Hw. induction Hw; [done|]. by simpl. }
    simpl. clear -Hloop.
    induction Hloop as [| |n step C C' cl v cl' v' dw x da m' Hw Hal
                       |n step C C' cl v cl' v' dw x d exit m' Hw _ IH]; try done.
    + simpl. rewrite calls_for_app.
      assert (calls_for c dw = []) as -> by (clear -Hw; induction Hw; [done|]; by simpl).
      simpl. clear -Hal. induction Hal; [done|]. by simpl.
    + simpl. rewrite calls_for_app.
      assert (calls_for c dw = []) as -> by (clear -Hw; induction Hw; [done|]; by simpl).
      by simpl.
Qed.

Lemma loop_tr_returned W k m n step C d m' :
  loop_tr W k m n step C d Returned m' -> exists da, alias_tr m W da m'.
Proof.
  remember Returned as exit eqn:He. intros Hloop.
  induction Hloop; try done; eauto.
Qed.

Lemma warns_no_holds C dw C' z : warns C dw C' -> Log (MsgHolds z) ∉ dw.
Proof.
  induction 1; [apply not_elem_of_nil|]. by apply not_elem_of_cons.
Qed.

Lemma fallback_tr_no_holds sm k m cs d m' n z :
  fallback_tr sm k m cs d m' n -> Log (MsgHolds z) ∉ d.
Proof.
  induction 1 as [|m cell cs d1 m1 n1 d2 m2 n2 Hm _ IH]; [apply not_elem_of_nil|].
  apply not_elem_of_app. split; [|done].
  destruct Hm as (c & a' & b & y & bit_a & bit_b & s & x' & r
                  & _ & _ & _ & _ & _ & _ & _ & Hr).
  destruct r; destruct Hr as (-> & _);
    repeat (apply not_elem_of_cons; split; [done|]); apply not_elem_of_nil.
Qed.

Lemma loop_tr_no_holds W k m n step C d exit m' z :
  loop_tr W k m n step C d exit m' -> exit = FellThrough -> Log (MsgHolds z) ∉ d.
Proof.
  induction 1 as [step C|n step C cl v|n step C C' cl v cl' v' dw x da m' Hw Hal
                 |n step C C' cl v cl' v' dw x d exit m' Hw _ IH]; intros He; try done.
  - apply not_elem_of_nil.
  - repeat (apply not_elem_of_cons; split; [done|]); apply not_elem_of_nil.
  - do 3 (apply not_elem_of_cons; split; [done|]). apply not_elem_of_app.
    split; [by eapply warns_no_holds|].
    do 3 (apply not_elem_of_cons; split; [done|]). by apply IH.
Qed.

(** A run ends in one of two ways. *)
Lemma run_tr_cases w d m' n :
  run_tr w d m' n ->
  (exists da, alias_tr (module w) (workset w) da m') \/
  (exists d0 df, d = (d0 ++ df)%list /\ (forall c, calls_for c d0 = []) /\
                 (forall i a, Solve (QStep i) a false ∉ d) /\
                 fallback_tr (sigmap w) (max_seq w) (module w) (workset w) df m' n).
Proof.
  intros Hrun.
  destruct Hrun as (dw & C & dl & exit & m1 & df & Hd & Hw & Hloop & Hexit).
  destruct exit.
  - left. destruct Hexit as (_ & -> & _). by eapply loop_tr_returned.
  - right.
    assert (Hrun : run_tr w d m' n) by (by exists dw, C, dl, FellThrough, m1, df).
    assert (Hno : forall i a, Solve (QStep i) a false ∉ d).
    { intros i a Hin.
      destruct (run_tr_step_unsat _ _ _ _ _ _ Hrun Hin) as [(pre & x & da & Hd' & _ & _) _].
      (* the trace of a run that fell through has no "holds" message *)
      assert (Hholds : Log (MsgHolds (Z.of_nat (length (workset w)))) ∈ d).
      { rewrite Hd'. apply elem_of_app. right. by right; left. }
      rewrite Hd in Hholds.
      do 2 (apply elem_of_cons in Hholds as [?|Hholds]; [done|]).
      apply elem_of_app in Hholds as [Hholds|Hholds];
        [by eapply warns_no_holds|].
      apply elem_of_app in Hholds as [Hholds|Hholds].
      - by eapply loop_tr_no_holds.
      - by eapply fallback_tr_no_holds. }
    destruct (run_tr_no_step_unsat _ _ _ _ Hrun Hno) as (d0 & df' & ? & ? & ?).
    by exists d0, df'.
Qed.

End Facts.
End RunFacts.

(** ** The induction step query *)

Module StepFacts.
Import EquivInduct WorkerLogic WorkerRules WorkerSpecs TraceFacts GuardFacts CellFacts
  RunFacts.

Section Facts.
Context {S : Type} `{EzSat S}.

Implicit Types (w : Worker S) (m : Module) (d : list Event).

Lemma alias_tr_no_solve m cs da m' q a r : alias_tr m cs da m' -> Solve q a r ∉ da.
Proof.
  induction 1; [apply not_elem_of_nil|]. by apply not_elem_of_cons.
Qed.

Lemma step_queries_nil (cons : gmap Z Z) : step_queries cons [].
Proof. intros i a r Hin. by apply elem_of_nil in Hin. Qed.

(** One round of the loop that reaches its induction step query. *)
Lemma step_queries_round (cons : gmap Z Z) step cl v C dw C' cl' v' e1 s x r dz :
  warns C dw C' -> cons !! (step + 1) = Some e1 -> step_query e1 s = (x, r) ->
  (forall i a r', Solve (QStep i) a r' ∈ dz ->
     exists c' s' x', cons !! (i + 1) = Some c' /\ step_query c' s' = (x', r') /\ a = [x']) ->
  step_queries cons
    (Log (MsgBase step cl v) :: Solve (QBase step) [] true
       :: CreateTimestep (step + 1) :: dw
       ++ Log (MsgStep step cl' v') :: Solve (QStep step) [x] r :: dz).
Proof.
  intros Hw He1 Hq Hdz i a r' Hin.
  do 3 (apply elem_of_cons in Hin as [Hin|Hin]; [done|]).
  apply elem_of_app in Hin as [Hin|Hin].
  { by apply (warns_no_solve _ _ _ _ _ _ Hw) in Hin. }
  apply elem_of_cons in Hin as [Hin|Hin]; [done|].
  apply elem_of_cons in Hin as [Hin|Hin]; [|by apply Hdz].
  simplify_eq. by exists e1, s, x.
Qed.

(** The loop over the steps keeps the literals of the steps that are
    encoded, and each of its induction step queries assumes the negation of
    the literal of the step after it. *)
Lemma induct_queries n : forall step w,
  is_Some (ez_step_is_consistent w !! step) ->
  traced (induct n step) w
    (fun _ w' d =>
       (forall s e, ez_step_is_consistent w !! s = Some e ->
                    ez_step_is_consistent w' !! s = Some e) /\
       step_queries (ez_step_is_consistent w') d)
    (fun _ => True).
Proof.
  induction n as [|n IH]; intros step w [e He]; simpl.
  - tstep. split; [done|]. apply step_queries_nil.
  - do 2 tstep. rewrite He. do 8 tstep. simpl.
    destruct r; simpl.
    2:{ do 3 tstep. simpl. split; [done|].
        intros i a' r' Hin.
        repeat (apply elem_of_cons in Hin as [Hin|Hin]; [done|]).
        by apply elem_of_nil in Hin. }
    eapply traced_seq; [apply create_timestep_spec|done|].
    intros _ w1 d1 _ (Hk & Hnew & [e1 He1] & dw & -> & Hw). simpl in *.
    do 2 tstep. rewrite He1, lookup_insert_eq. do 10 tstep. simpl in *.
    lazymatch goal with
    | Hnot : ez_NOT e1 (sat w1) = (?x, ?s1), Hbind : ez_bind ?x ?s1 = (_, ?s2),
      Hsolve : ez_solve [?x] ?s2 = (?r0, _) |- _ =>
        assert (Hq : step_query e1 (sat w1) = (x, r0))
          by (unfold step_query; by rewrite Hnot, Hbind, Hsolve)
    end.
    assert (Hgrow : forall s e0, ez_step_is_consistent w !! s = Some e0 ->
              (<[step + 1 := e1]> (ez_step_is_consistent w) : gmap Z Z) !! s = Some e0).
    { intros s' e0 Hs. rewrite lookup_insert_ne; [done|]. intros <-. congruence. }
    destruct r; simpl.
    + do 2 tstep. simpl.
      eapply traced_mono; [apply IH| |done]; simpl.
      * rewrite He1, lookup_insert_eq. eauto.
      * intros exit w2 d2 [Hg2 Hq2]. simpl in *. rewrite He1 in Hg2. split.
        -- intros s' e0 Hs. by apply Hg2, Hgrow.
        -- eapply step_queries_round; [done| |done|].
           ++ apply Hg2. by rewrite lookup_insert_eq.
           ++ intros i2 a2 r2 Hin2. apply elem_of_cons in Hin2 as [?|Hin2]; [done|].
              by apply Hq2.
    + do 2 tstep. simpl.
      eapply traced_seq; [apply alias_all_spec|done|]; simpl.
      intros _ w2 d2 _ ((_ & Hc2) & _ & Hal). simpl in *.
      do 3 tstep. simpl. rewrite Hc2, He1. split; [done|].
      rewrite !app_nil_r.
      eapply step_queries_round; [done| |done|].
      * by rewrite lookup_insert_eq.
      * intros i2 a2 r2 Hin2. apply elem_of_cons in Hin2 as [?|Hin2]; [done|].
        by apply (alias_tr_no_solve _ _ _ _ _ _ _ Hal) in Hin2.
Qed.

(** A run keeps no induction step query but those that [run] makes: each
    assumes the negation of the literal of the step after it. *)
Lemma run_queries w :
  traced run w (fun _ w' d => step_queries (ez_step_is_consistent w') d) (fun _ => True).
Proof.
  unfold run. do 4 tstep. simpl.
  eapply traced_seq; [apply create_timestep_spec|done|].
  intros _ w1 d1 _ (Hk & Hnew & [e1 He1] & dw & -> & Hw). simpl in *.
  eapply traced_seq; [apply induct_queries|done|].
  { rewrite He1, lookup_insert_eq. eauto. }
  intros exit w2 d2 _ [Hg2 Hq2]. simpl in *.
  assert (Hfront : forall cons dz i a r,
            step_queries cons dz ->
            Solve (QStep i) a r ∈
              ([Log (MsgFound (Z.of_nat (length (workset w))) (module_name w))] ++
               (CreateTimestep 1 :: dw) ++ dz)%list ->
            exists c' s x, cons !! (i + 1) = Some c' /\
                           step_query c' s = (x, r) /\ a = [x]).
  { intros cons dz i a r Hdz Hin.
    apply elem_of_app in Hin as [Hin|Hin].
    { apply elem_of_cons in Hin as [Hin|Hin]; [done|]. by apply elem_of_nil in Hin. }
    apply elem_of_app in Hin as [Hin|Hin]; [|by apply Hdz].
    apply elem_of_cons in Hin as [Hin|Hin]; [done|].
    by apply (warns_no_solve _ _ _ _ _ _ Hw) in Hin. }
  destruct exit.
  - tstep. intros i a r Hin. apply (Hfront _ d2); [done|].
    revert Hin. by rewrite !app_nil_r.
  - eapply traced_mono; [apply fallback_spec| |done]; simpl.
    intros _ w3 d3 ((_ & Hc3) & n & Hf & _) i a r Hin. rewrite Hc3.
    apply (Hfront _ (d2 ++ d3)%list); [|done].
    intros i2 a2 r2 [Hin2|Hin2]%elem_of_app; [by apply Hq2|].
    by destruct (fallback_tr_no_step _ _ _ _ _ _ _ _ _ _ Hf Hin2).
Qed.

(** In a run of a fresh worker that completes, every induction step query
    assumes the negation of the literal of the step after it. *)
Lemma run_step_queries w w' :
  fresh w -> run w = Ok (tt, w') ->
  step_queries (ez_step_is_consistent w') (trace w').
Proof.
  intros (_ & _ & Htr) Hrun.
  destruct (traced_ok _ _ _ _ _ _ (run_queries w) Hrun) as (d & Hd & Hq).
  rewrite Htr in Hd. simpl in Hd. by rewrite Hd.
Qed.

(** A base case that is satisfiable is followed by the induction step query
    of its step. *)
Lemma loop_tr_step_asked W k m n step C d exit m' i a :
  loop_tr W k m n step C d exit m' -> Solve (QBase i) a true ∈ d ->
  exists x r, Solve (QStep i) [x] r ∈ d.
Proof.
  induction 1 as [step C|n step C cl v|n step C C' cl v cl' v' dw x da m' Hw Hal
                 |n step C C' cl v cl' v' dw x d exit m' Hw _ IH]; intros Hin.
  - by apply elem_of_nil in Hin.
  - repeat (apply elem_of_cons in Hin as [Hin|Hin]; [done|]).
    by apply elem_of_nil in Hin.
  - apply elem_of_cons in Hin as [Hin|Hin]; [done|].
    apply elem_of_cons in Hin as [Hin|Hin].
    + injection Hin as -> ->. exists x, false.
      do 3 right. apply elem_of_app. right. right. left.
    + apply elem_of_cons in Hin as [Hin|Hin]; [done|].
      apply elem_of_app in Hin as [Hin|Hin];
        [by apply (warns_no_solve _ _ _ _ _ _ Hw) in Hin|].
      do 3 (apply elem_of_cons in Hin as [Hin|Hin]; [done|]).
      by apply (alias_tr_no_solve _ _ _ _ _ _ _ Hal) in Hin.
  - apply elem_of_cons in Hin as [Hin|Hin]; [done|].
    apply elem_of_cons in Hin as [Hin|Hin].
    + injection Hin as -> ->. exists x, true.
      do 3 right. apply elem_of_app. right. right. left.
    + apply elem_of_cons in Hin as [Hin|Hin]; [done|].
      apply elem_of_app in Hin as [Hin|Hin];
        [by apply (warns_no_solve _ _ _ _ _ _ Hw) in Hin|].
      do 3 (apply elem_of_cons in Hin as [Hin|Hin]; [done|]).
      destruct (IH Hin) as (x' & r' & Hin'). exists x', r'.
      do 3 right. apply elem_of_app. right. by do 3 right.
Qed.

Lemma run_tr_step_asked w d m' n i a :
  run_tr w d m' n -> Solve (QBase i) a true ∈ d ->
  exists x r, Solve (QStep i) [x] r ∈ d.
Proof.
  intros (dw & C & dl & exit & m1 & df & -> & Hw & Hloop & Hexit) Hin.
  do 2 (apply elem_of_cons in Hin as [Hin|Hin]; [done|]).
  apply elem_of_app in Hin as [Hin|Hin]; [by apply (warns_no_solve _ _ _ _ _ _ Hw) in Hin|].
  apply elem_of_app in Hin as [Hin|Hin].
  - destruct (loop_tr_step_asked _ _ _ _ _ _ _ _ _ _ _ Hloop Hin) as (x & r & Hin').
    exists x, r. do 2 right. apply elem_of_app. right. apply elem_of_app. by left.
  - destruct exit; [destruct Hexit as (-> & _); by apply elem_of_nil in Hin|].
    by destruct (fallback_tr_no_step _ _ _ _ _ _ _ _ _ _ Hexit Hin).
Qed.

(** With a positive bound the run opens with the base case of step 1. *)
Lemma run_tr_base_asked w d m' n :
  run_tr w d m' n -> 1 <= max_seq w -> exists r, Solve (QBase 1) [] r ∈ d.
Proof.
  intros (dw & C & dl & exit & m1 & df & -> & Hw & Hloop & Hexit) Hk.
  assert (Hfirst : exists r, Solve (QBase 1) [] r ∈ dl).
  { destruct (Z.to_nat (max_seq w)) as [|n0] eqn:Hn; [lia|].
    inversion Hloop; subst.
    - exists false. right. left.
    - exists true. right. left.
    - exists true. right. left. }
  destruct Hfirst as [r Hr]. exists r.
  do 2 right. apply elem_of_app. right. apply elem_of_app. by left.
Qed.

End Facts.
End StepFacts.

(** * The induction worker: claims *)

Section WorkerClaims.
Import EquivInduct WorkerLogic WorkerRules WorkerSpecs TraceFacts GuardFacts CellFacts RunFacts
  StepFacts.
Context {S : Type} `{EzSat S}.

Implicit Types (w : Worker S).


(** C2.  In a run of a fresh, well-formed worker every write to a port
    comes directly after a solver call that answered UNSAT and that is either
    the induction step query or the query for the very cell written; the
    module changes only through these writes; and if every solver call of the
    run answered SAT the module is as it was. *)
Theorem C2_rewrite_only_after_unsat w :
  fresh w -> well_formed w = true ->
  exists w', run w = Ok (tt, w') /\
    guarded None (trace w') = true /\
    module w' = replay (trace w') (module w) /\
    (forall c, cells_ (module w') !! c <> cells_ (module w) !! c ->
               c ∈ rewrites (trace w')) /\
    (forall c, c ∈ rewrites (trace w') ->
               exists q a, Solve q a false ∈ trace w' /\ justifies q c = true) /\
    ((forall q a r, Solve q a r ∈ trace w' -> r = true) -> module w' = module w).
Proof.
  intros Hf Hwf. destruct (run_returns w Hf Hwf) as (w' & Hrun & _ & Htr).
  exists w'. split; [done|].
  assert (Hg := guarded_run _ _ _ _ Htr). assert (Hm := replay_run _ _ _ _ Htr).
  split_and!; try done.
  - intros c. rewrite Hm. apply replay_changes.
  - intros c Hc. by destruct (guarded_justified _ _ _ Hg Hc) as [(q & ? & _)|?].
  - intros Hsat. rewrite Hm. apply replay_no_rewrites. by apply guarded_all_sat.
Qed.

(** C3.  A run of a fresh, well-formed worker completes with the trace of
    [run_tr]: with a positive bound it opens with the base case of step 1,
    and every base case that is satisfiable is followed by the induction
    step query of its step.  Every induction step query, of step [i] say,
    is solved under a single assumption, the negation ([ez.NOT], then
    [ez.bind]) of the literal of [ez_step_is_consistent[i + 1]], and is
    recorded with the answer of the solver.  If that answer is UNSAT, then
    nothing but the "holds" message and the port writes follow the query in
    the trace (no further solver call), every cell of the workset has its B
    port set to its A port, no other cell changes, and the success counter
    has grown by the size of the workset. *)
Theorem C3_step_unsat_proves_workset w :
  fresh w -> well_formed w = true ->
  exists w', run w = Ok (tt, w') /\
    run_tr w (trace w') (module w') (success_counter w' - success_counter w) /\
    (1 <= max_seq w -> exists r, Solve (QBase 1) [] r ∈ trace w') /\
    (forall i a, Solve (QBase i) a true ∈ trace w' ->
       exists x r, Solve (QStep i) [x] r ∈ trace w') /\
    step_queries (ez_step_is_consistent w') (trace w') /\
    forall i a, Solve (QStep i) a false ∈ trace w' ->
      (exists c' s pre x da,
          ez_step_is_consistent w' !! (i + 1) = Some c' /\
          step_query c' s = (x, false) /\
          trace w' = (pre ++ Solve (QStep i) [x] false
                        :: Log (MsgHolds (Z.of_nat (length (workset w)))) :: da)%list /\
          a = [x] /\ solver_calls da = [] /\ rewrites da = workset w) /\
      (forall c, c ∈ workset w -> exists cell sa,
          cells_ (module w) !! c = Some cell /\ getPort cell "\A" = Ok sa /\
          cells_ (module w') !! c = Some (setPort cell "\B" sa)) /\
      (forall c, c ∉ workset w -> cells_ (module w') !! c = cells_ (module w) !! c) /\
      success_counter w' = success_counter w + Z.of_nat (length (workset w)).
Proof.
  intros Hf Hwf. destruct (run_returns w Hf Hwf) as (w' & Hrun & _ & Htr).
  assert (Hq := run_step_queries w w' Hf Hrun).
  exists w'. split; [done|]. split; [done|].
  split; [by apply (run_tr_base_asked _ _ _ _ Htr)|].
  split; [intros i a; by apply (run_tr_step_asked _ _ _ _ _ _ Htr)|].
  split; [done|]. intros i a Hin.
  destruct (run_tr_step_unsat _ _ _ _ _ _ Htr Hin) as [(pre & x & da & Hd & -> & Hal) Hn].
  destruct (alias_tr_events _ _ _ _ Hal) as [Hcalls Hrw].
  destruct (alias_tr_cells _ _ _ _ Hal) as [Hout Hin'].
  destruct (Hq _ _ _ Hin) as (c' & s & x' & Hc' & Hsq & [= <-]).
  split_and!; try done; [by exists c', s, pre, x, da|lia].
Qed.


(** C7.  A run of a fresh worker calls [create_timestep] for the steps
    1, 2, ..., j + 1 in this order, for some [j] not above the bound: no
    step twice.  The steps for which [ez_step_is_consistent] is defined at
    the end are exactly these, and if the run fails at all it is not by the
    assertion that the step was undefined. *)
Theorem C7_timesteps_defined_once w :
  fresh w ->
  match run w with
  | Ok (_, w') =>
      (exists j, (j <= Z.to_nat (max_seq w))%nat /\
                 timesteps (trace w') = steps_upto (Datatypes.S j)) /\
      NoDup (timesteps (trace w')) /\
      (forall s, is_Some (ez_step_is_consistent w' !! s) <-> s ∈ timesteps (trace w'))
  | Abort f => is_step_assert f = false
  end.
Proof.
  intros Hf. assert (Hrun := run_fresh w Hf).
  destruct (run w) as [[[] w']|f]; [|by destruct Hrun].
  destruct Hrun as (_ & Htr & Hdom).
  destruct (run_tr_timesteps _ _ _ _ Htr) as (j & Hj & Hts).
  split_and!; [by exists j| |done]. rewrite Hts. apply steps_upto_NoDup.
Qed.

(** C8, as amended.  In a run of a fresh, well-formed worker no cell is
    named in two "No SAT model available" warnings. *)
Theorem C8_one_warning_per_cell w :
  fresh w -> well_formed w = true ->
  exists w', run w = Ok (tt, w') /\ NoDup (warned (trace w')).
Proof.
  intros Hf Hwf. destruct (run_returns w Hf Hwf) as (w' & Hrun & _ & Htr).
  exists w'. split; [done|]. by eapply run_tr_warned.
Qed.

End WorkerClaims.

(** ** Markers whose inputs are one canonical bit *)

Section CanonicalClaims.
Import EquivInduct WorkerLogic WorkerRules WorkerSpecs TraceFacts GuardFacts CellFacts RunFacts.
Context {S : Type} `{EzSatLaws S}.

Implicit Types (w : Worker S).

Lemma marker_query_same bit step s : snd (marker_query bit bit step s) = false.
Proof.
  unfold marker_query.
  assert (Hagain := importSigBit_again bit step s).
  destruct (importSigBit bit step s) as [ez_a s1]. simpl in Hagain.
  destruct (importSigBit bit step s1) as [ez_b s2]. simpl in Hagain. subst ez_b.
  assert (Hxor := xor_self_unsat ez_a s2).
  destruct (ez_XOR ez_a ez_a s2) as [x s3]. by simpl in *.
Qed.

Lemma collect_unproven_keeps m sel : forall acc W x,
  collect_unproven m sel acc = Ok W -> x ∈ acc -> x ∈ W.
Proof.
  induction sel as [|cell sel IH]; intros acc W x Hcol Hx; simpl in Hcol.
  - by injection Hcol as <-.
  - destruct (deref m cell) as [c|]; [|done]. simpl in Hcol.
    destruct (type c =? "$equiv")%string; [|by eapply IH].
    destruct (getPort c "\A") as [a|]; [|done].
    destruct (getPort c "\B") as [b|]; [|done]. simpl in Hcol.
    case_bool_decide; eapply IH; try done. by right.
Qed.

Lemma collect_unproven_includes m sel : forall acc W cell c a b,
  collect_unproven m sel acc = Ok W -> cell ∈ sel ->
  cells_ m !! cell = Some c -> type c = "$equiv" ->
  getPort c "\A" = Ok a -> getPort c "\B" = Ok b -> a <> b ->
  cell ∈ W.
Proof.
  induction sel as [|cell' sel IH]; intros acc W cell c a b Hcol Hin Hc Hty Ha Hb Hne.
  { by apply elem_of_nil in Hin. }
  simpl in Hcol. unfold deref in Hcol.
  apply elem_of_cons in Hin as [<-|Hin].
  - rewrite Hc in Hcol. simpl in Hcol. rewrite Hty, Ha, Hb in Hcol. simpl in Hcol.
    rewrite bool_decide_eq_true_2 in Hcol by done.
    eapply collect_unproven_keeps; [done|by left].
  - destruct (cells_ m !! cell') as [c'|]; [|done]. simpl in Hcol.
    destruct (type c' =? "$equiv")%string; [|by eapply IH].
    destruct (getPort c' "\A") as [a'|]; [|done].
    destruct (getPort c' "\B") as [b'|]; [|done]. simpl in Hcol.
    case_bool_decide; by eapply IH.
Qed.

Lemma timestep_cell_canonical step terms cell w c a b :
  cells_ (module w) !! cell = Some c -> type c = "$equiv" ->
  getPort c "\A" = Ok [a] -> getPort c "\B" = Ok [b] ->
  sigmap w a = sigmap w b ->
  exists w1, timestep_cell step terms cell w = Ok (terms, w1) /\
             sat w1 = snd (importCell c step (sat w)).
Proof.
  intros Hc Hty Ha Hb Hcanon.
  assert (HA : connections_ c !! "\A" = Some [a]).
  { unfold getPort in Ha. by destruct (connections_ c !! "\A"); simplify_eq. }
  assert (HB : connections_ c !! "\B" = Some [b]).
  { unfold getPort in Hb. by destruct (connections_ c !! "\B"); simplify_eq. }
  assert (Ht : traced (timestep_cell step terms cell) w
                 (fun t' w1 _ => t' = terms /\ sat w1 = snd (importCell c step (sat w)))
                 (fun _ => False)).
  { unfold timestep_cell. do 2 tstep. rewrite Hc. do 4 tstep. simpl.
    match goal with Himp : importCell _ _ _ = _ |- _ => rewrite Himp end. simpl.
    apply traced_seq with
      (Q1 := fun _ w1 _ => module w1 = module w /\ sigmap w1 = sigmap w /\ sat w1 = s)
      (E1 := fun _ => False); [|done|].
    - destruct (negb a0 && negb (bool_decide (cell ∈ cell_warn_cache w))).
      + by do 3 tstep.
      + by tstep.
    - intros _ w1 d1 _ (Hm & Hsm & Hs). rewrite Hty. simpl.
      do 2 tstep. rewrite Hm, Hc, HA. do 2 tstep. simpl.
      do 2 tstep. rewrite Hm, Hc, HB. do 2 tstep. simpl.
      rewrite Hsm, Hcanon, bool_decide_eq_false_2 by (by intros []).
      by tstep. }
  unfold traced in Ht. destruct (timestep_cell step terms cell w) as [[t' w1]|]; [|done].
  destruct Ht as (_ & _ & -> & Hs). by exists w1.
Qed.

(** C5.  Take a marker of a fresh, well-formed worker whose A and B ports
    are different bits with one canonical bit.  Visiting it in
    [create_timestep] calls nothing but [importCell] and adds no term to
    [ez_equal_terms]; the driver's collection puts it into the workset; and
    if it is in the workset, the run ends with its B port set to its A
    port. *)
Theorem C5_canonically_equal_marker w cell c a b :
  fresh w -> well_formed w = true -> NoDup (workset w) ->
  cells_ (module w) !! cell = Some c -> type c = "$equiv" ->
  getPort c "\A" = Ok [a] -> getPort c "\B" = Ok [b] -> a <> b ->
  sigmap w a = sigmap w b ->
  (forall step terms w0, module w0 = module w -> sigmap w0 = sigmap w ->
     exists w1, timestep_cell step terms cell w0 = Ok (terms, w1) /\
                sat w1 = snd (importCell c step (sat w0))) /\
  (forall sel W, cell ∈ sel -> collect_unproven (module w) sel [] = Ok W -> cell ∈ W) /\
  (cell ∈ workset w ->
     exists w', run w = Ok (tt, w') /\
                cells_ (module w') !! cell = Some (setPort c "\B" [a])).
Proof.
  intros Hf Hwf Hnd Hc Hty Ha Hb Hne Hcanon. split_and!.
  - intros step terms w0 Hm Hsm. eapply timestep_cell_canonical; try done.
    + by rewrite Hm.
    + by rewrite Hsm.
  - intros sel W Hin Hcol. eapply collect_unproven_includes; try done. congruence.
  - intros Hin. destruct (run_returns w Hf Hwf) as (w' & Hrun & _ & Htr).
    exists w'. split; [done|].
    destruct (run_tr_cases _ _ _ _ Htr) as [(da & Hal)|(d0 & df & _ & _ & _ & Hfb)].
    + destruct (alias_tr_cells _ _ _ _ Hal) as [_ Hin'].
      destruct (Hin' _ Hin) as (c' & a' & Hc' & Ha' & ->). congruence.
    + destruct (fallback_tr_marker _ _ _ _ _ _ _ Hfb Hnd _ Hin)
        as (c' & a' & b' & bit_a & bit_b & s & x & r
            & Hc' & Ha' & Hb' & Hba & Hbb & Hq & _ & ->).
      assert (c' = c) as -> by congruence.
      assert (a' = [a]) as -> by congruence. assert (b' = [b]) as -> by congruence.
      simpl in Hba, Hbb. injection Hba as <-. injection Hbb as <-.
      rewrite Hcanon in Hq. assert (Hsame := marker_query_same (sigmap w b) (max_seq w + 1) s).
      rewrite Hq in Hsame. simpl in Hsame. by subst r.
Qed.

End CanonicalClaims.

(** * The reference solver obeys the laws *)

Module RefSatFacts.
Import RefSat WorkerLogic.

Lemma index_of_app_new key l :
  index_of key l = None -> index_of key (l ++ [key]) = Some (length l).
Proof.
  induction l as [|k l IH]; simpl.
  - by rewrite bool_decide_eq_true_2.
  - case_bool_decide; [done|]. destruct (index_of key l); [done|].
    intros _. by rewrite IH.
Qed.

Lemma import_bit_again bit step s :
  fst (import_bit bit step (snd (import_bit bit step s))) = fst (import_bit bit step s).
Proof.
  unfold import_bit. destruct (canon s bit) as [wire off|st] eqn:Hcanon.
  - destruct (index_of (WireBit wire off, step) (literals s)) as [k|] eqn:Hk; simpl.
    + by rewrite Hcanon, Hk.
    + by rewrite Hcanon, index_of_app_new.
  - destruct st; simpl; by rewrite Hcanon.
Qed.

Lemma eval_xor_self ex asg a :
  eval (length (ex ++ [ExXor a a])) (ex ++ [ExXor a a]) asg
    (- (Z.of_nat (length ex) + 1)) = false.
Proof.
  rewrite length_app. simpl. rewrite Nat.add_1_r. simpl.
  rewrite (proj2 (Z.eqb_neq _ 1)) by lia.
  rewrite (proj2 (Z.eqb_neq _ 2)) by lia.
  rewrite (proj2 (Z.ltb_ge 0 _)) by lia.
  rewrite (proj2 (Z.eqb_neq _ 0)) by lia.
  replace (Z.to_nat (- - (Z.of_nat (length ex) + 1) - 1)) with (length ex) by lia.
  rewrite lookup_app_r, Nat.sub_diag by done. simpl. apply xorb_nilpotent.
Qed.

Lemma solve_xor_self a s :
  fst (solve [fst (expression (ExXor a a) s)] (snd (expression (ExXor a a) s))) = false.
Proof.
  unfold solve, expression. simpl. apply not_true_iff_false.
  intros (asg & _ & Hall)%existsb_exists.
  rewrite forallb_app in Hall. apply andb_prop in Hall as [_ Hx]. simpl in Hx.
  by rewrite eval_xor_self in Hx.
Qed.

#[global] Instance RefSat_laws : EzSatLaws Ez.
Proof.
  split.
  - apply import_bit_again.
  - apply solve_xor_self.
Qed.

End RefSatFacts.

(** * Runs on the sample designs *)

Section SampleRuns.
Import EquivInduct WorkerLogic RefSat RefSatFacts Samples.

(** C1, at the failing input.  On the marker between the constants 0 and 1
    the base case of step 1 is UNSAT and "Circuit inherently diverges!" is
    logged; the closing loop then runs all the same, its query is UNSAT as
    well, and the B port of the marker is rewritten from 1 to 0. *)
Theorem C1_divergent_marker_is_rewritten :
  exists st,
    execute (S := Ez) host_extra_args ["equiv_induct"] divergent = Ok st /\
    solver_calls (output st) = [(QBase 1, [], false); (QMarker "eq", [-4], false)] /\
    Log MsgDiverges ∈ output st /\
    rewrites (output st) = ["eq"] /\
    total st = 1 /\
    port_of divergent "eq" "\B" = Ok [ConstBit S1] /\
    port_of (design st) "eq" "\B" = Ok [ConstBit S0].
Proof.
  eexists. split; [vm_compute; reflexivity|].
  split_and!; try (vm_compute; reflexivity).
  apply list_elem_of_In. vm_compute. tauto.
Qed.

(** C8 as stated fails: two cells of the one type [$mystery], for which the
    encoder has no model, draw two warnings in one run. *)
Lemma C8_two_warnings_for_one_type :
  (forall c step s, type c = "$mystery" -> fst (import_cell c step s) = false) /\
  exists w', run (worker_on two_blackboxes ["eq"] 1) = Ok (tt, w') /\
             warned (trace w') = ["u1"; "u2"] /\
             warned_types (trace w') = ["$mystery"; "$mystery"].
Proof.
  split.
  - intros c step s Hty. unfold import_cell. by rewrite Hty.
  - eexists. split; [vm_compute; reflexivity|]. split; vm_compute; reflexivity.
Qed.

Lemma C2_rewrite_only_after_unsat_witness :
  exists w', run (worker_on aliased ["eq"] 4) = Ok (tt, w') /\
             guarded None (trace w') = true /\
             module w' = replay (trace w') (module (worker_on aliased ["eq"] 4)).
Proof.
  destruct (C2_rewrite_only_after_unsat (worker_on aliased ["eq"] 4))
    as (w' & Hrun & Hg & Hm & _).
  - repeat split.
  - vm_compute. reflexivity.
  - exists w'. repeat split; assumption.
Defined.

(** In the run on [aliased] the induction step query of step 1 is UNSAT. *)
Example aliased_step_unsat :
  Solve (QStep 1) [-5] false ∈ trace (after_run (worker_on aliased ["eq"] 4)).
Proof. apply list_elem_of_In. vm_compute. tauto. Qed.

Lemma C3_step_unsat_proves_workset_witness :
  (exists w', run (worker_on aliased ["eq"] 4) = Ok (tt, w') /\
     run_tr (worker_on aliased ["eq"] 4) (trace w') (module w')
       (success_counter w' - success_counter (worker_on aliased ["eq"] 4)) /\
     (1 <= max_seq (worker_on aliased ["eq"] 4) ->
      exists r, Solve (QBase 1) [] r ∈ trace w') /\
     (forall i a, Solve (QBase i) a true ∈ trace w' ->
        exists x r, Solve (QStep i) [x] r ∈ trace w') /\
     step_queries (ez_step_is_consistent w') (trace w') /\
     forall i a, Solve (QStep i) a false ∈ trace w' ->
       (exists c' s pre x da,
           ez_step_is_consistent w' !! (i + 1) = Some c' /\
           step_query c' s = (x, false) /\
           trace w' = (pre ++ Solve (QStep i) [x] false
                         :: Log (MsgHolds (Z.of_nat (length (workset (worker_on aliased ["eq"] 4)))))
                         :: da)%list /\
           a = [x] /\ solver_calls da = [] /\
           rewrites da = workset (worker_on aliased ["eq"] 4)) /\
       (forall c, c ∈ workset (worker_on aliased ["eq"] 4) -> exists cell sa,
           cells_ (module (worker_on aliased ["eq"] 4)) !! c = Some cell /\
           getPort cell "\A" = Ok sa /\
           cells_ (module w') !! c = Some (setPort cell "\B" sa)) /\
       (forall c, c ∉ workset (worker_on aliased ["eq"] 4) ->
           cells_ (module w') !! c = cells_ (module (worker_on aliased ["eq"] 4)) !! c) /\
       success_counter w' = success_counter (worker_on aliased ["eq"] 4)
                            + Z.of_nat (length (workset (worker_on aliased ["eq"] 4)))) /\
  run (worker_on aliased ["eq"] 4) = Ok (tt, after_run (worker_on aliased ["eq"] 4)) /\
  solver_calls (trace (after_run (worker_on aliased ["eq"] 4)))
  = [(QBase 1, [], true); (QStep 1, [-5], false)] /\
  ez_step_is_consistent (after_run (worker_on aliased ["eq"] 4)) !! 2 = Some (-4) /\
  rewrites (trace (after_run (worker_on aliased ["eq"] 4))) = ["eq"] /\
  port_of aliased "eq" "\B" = Ok (wire "b") /\
  cells_ (module (after_run (worker_on aliased ["eq"] 4))) !! "eq"
  = Some (equiv (wire "a") (wire "a") (wire "y")) /\
  success_counter (after_run (worker_on aliased ["eq"] 4)) = 1.
Proof.
  split.
  - apply (C3_step_unsat_proves_workset (worker_on aliased ["eq"] 4)).
    + repeat split.
    + vm_compute. reflexivity.
  - do 6 (split; [vm_compute; reflexivity|]). vm_compute. reflexivity.
Defined.

(** In the run on [two_blackboxes] with bound 1 no induction step query is
    UNSAT. *)
Example two_blackboxes_no_step_unsat :
  step_unsat (trace (after_run (worker_on two_blackboxes ["eq"] 1))) = false.
Proof. vm_compute. reflexivity. Qed.


Lemma C5_canonically_equal_marker_witness :
  exists w', run (worker_on aliased ["eq"] 4) = Ok (tt, w') /\
             cells_ (module w') !! "eq"
             = Some (setPort (equiv [WireBit "a" 0] [WireBit "b" 0] [WireBit "y" 0])
                       "\B" [WireBit "a" 0]).
Proof.
  destruct (C5_canonically_equal_marker (worker_on aliased ["eq"] 4) "eq"
              (equiv [WireBit "a" 0] [WireBit "b" 0] [WireBit "y" 0])
              (WireBit "a" 0) (WireBit "b" 0)) as (_ & _ & Hrun).
  - repeat split.
  - vm_compute. reflexivity.
  - apply NoDup_singleton.
  - vm_compute. reflexivity.
  - reflexivity.
  - vm_compute. reflexivity.
  - vm_compute. reflexivity.
  - discriminate.
  - vm_compute. reflexivity.
  - apply Hrun. by left.
Defined.

Lemma C7_timesteps_defined_once_witness :
  match run (worker_on aliased ["eq"] 4) with
  | Ok (_, w') =>
      (exists j, (j <= Z.to_nat 4)%nat /\
                 timesteps (trace w') = steps_upto (Datatypes.S j)) /\
      NoDup (timesteps (trace w')) /\
      (forall s, is_Some (ez_step_is_consistent w' !! s) <-> s ∈ timesteps (trace w'))
  | Abort f => is_step_assert f = false
  end.
Proof.
  apply (C7_timesteps_defined_once (worker_on aliased ["eq"] 4)). repeat split.
Defined.

Lemma C8_one_warning_per_cell_witness :
  exists w', run (worker_on two_blackboxes ["eq"] 1) = Ok (tt, w') /\
             NoDup (warned (trace w')).
Proof.
  apply (C8_one_warning_per_cell (worker_on two_blackboxes ["eq"] 1)).
  - repeat split.
  - vm_compute. reflexivity.
Defined.

End SampleRuns.

(** * The option loop of [execute] *)

Section OptionClaims.
Import EquivInduct WorkerLogic RefSat Samples.










(** A depth beyond the range of [int]: [-seq 2147483648] gives [INT_MIN],
    no round of the induction is run, and the one marker is settled by its
    own query. *)
Example seq_beyond_int :
  parse_args ["equiv_induct"; "-seq"; "2147483648"] = (INT_MIN, 3%nat) /\
  parse_args ["equiv_induct"; "-seq"; "99999999999999999999"] = (-1, 3%nat) /\
  exists st,
    execute (S := Ez) host_extra_args ["equiv_induct"; "-seq"; "2147483648"] aliased = Ok st /\
    solver_calls (output st) = [(QMarker "eq", [-3], false)].
Proof.
  split; [reflexivity|]. split; [reflexivity|].
  eexists. split; vm_compute; reflexivity.
Qed.

End OptionClaims.

(** * The two revisions of [optimize_compares] *)

Section ParameterFacts.
Import OptCompareBase.

Implicit Types (m : Module) (c : Cell) (k : string).

Lemma set_cell_same m x c : cells_ m !! x = Some c -> set_cell m x c = m.
Proof.
  intros Hc. destruct m as [cs conn]. unfold set_cell. simpl in *.
  by rewrite insert_id.
Qed.

Lemma set_cell_set_cell m x c1 c2 : set_cell (set_cell m x c1) x c2 = set_cell m x c2.
Proof. unfold set_cell. simpl. by rewrite insert_insert_eq. Qed.

Lemma lookup_set_cell m x c : cells_ (set_cell m x c) !! x = Some c.
Proof. unfold set_cell. simpl. by rewrite lookup_insert_eq. Qed.

Lemma lookup_set_cell_ne m x c y : x <> y -> cells_ (set_cell m x c) !! y = cells_ m !! y.
Proof. intros Hne. unfold set_cell. simpl. by rewrite lookup_insert_ne. Qed.

Lemma parameter_eq m x c k :
  cells_ m !! x = Some c ->
  parameter m x k = Ok (param c k, set_cell m x (enter_param c k)).
Proof. intros Hc. unfold parameter, deref. by rewrite Hc. Qed.

Lemma type_enter_param c k : type (enter_param c k) = type c.
Proof. unfold enter_param. by destruct (parameters c !! k). Qed.

Lemma connections_enter_param c k : connections_ (enter_param c k) = connections_ c.
Proof. unfold enter_param. by destruct (parameters c !! k). Qed.

Lemma getPort_enter_param c k p : getPort (enter_param c k) p = getPort c p.
Proof. unfold getPort. by rewrite connections_enter_param. Qed.

Lemma parameters_enter_param c k k' :
  parameters (enter_param c k) !! k'
  = if bool_decide (k' = k) then Some (param c k) else parameters c !! k'.
Proof.
  unfold enter_param, param. case_bool_decide as Hk.
  - subst k'. destruct (parameters c !! k) eqn:Hp; simpl; [done|].
    by rewrite lookup_insert_eq.
  - destruct (parameters c !! k) eqn:Hp; simpl; [done|].
    by rewrite lookup_insert_ne.
Qed.

Lemma param_enter_param c k k' : param (enter_param c k) k' = param c k'.
Proof.
  unfold param at 1. rewrite parameters_enter_param. case_bool_decide; [by subst|done].
Qed.

(** An access to a parameter that is there leaves the cell as it is. *)
Lemma enter_param_present c k : is_Some (parameters c !! k) -> enter_param c k = c.
Proof. intros [v Hv]. unfold enter_param. by rewrite Hv. Qed.

Lemma present_enter_param c k : is_Some (parameters (enter_param c k) !! k).
Proof. rewrite parameters_enter_param, bool_decide_eq_true_2; eauto. Qed.

Lemma present_enter_param_other c k k' :
  is_Some (parameters c !! k') -> is_Some (parameters (enter_param c k) !! k').
Proof. intros Hp. rewrite parameters_enter_param. case_bool_decide; eauto. Qed.

Lemma entered_refl c : entered c c.
Proof. split_and!; try done. by left. Qed.

Lemma entered_trans c1 c2 c3 : entered c1 c2 -> entered c2 c3 -> entered c1 c3.
Proof.
  intros (Ht1 & Hc1 & Hp1) (Ht2 & Hc2 & Hp2). split_and!; [congruence|congruence|].
  intros k. destruct (Hp2 k) as [H2|(Hk & Hn2 & Hs2)], (Hp1 k) as [H1|(Hk' & Hn1 & Hs1)].
  - left. congruence.
  - right. split_and!; [done|done|congruence].
  - right. split_and!; [done|congruence|done].
  - congruence.
Qed.

Lemma entered_enter_param c k : k ∈ read_params -> entered c (enter_param c k).
Proof.
  intros Hk. split_and!; [apply type_enter_param|apply connections_enter_param|].
  intros k'. rewrite parameters_enter_param. case_bool_decide as Hkk; [subst k'|by left].
  unfold param. destruct (parameters c !! k) eqn:Hp; [by left|by right].
Qed.

Lemma entered_param c c' k : entered c c' -> param c' k = param c k.
Proof.
  intros (_ & _ & Hp). unfold param.
  destruct (Hp k) as [->|(_ & -> & ->)]; done.
Qed.

Lemma entered_getPort c c' p : entered c c' -> getPort c' p = getPort c p.
Proof. intros (_ & Hc & _). unfold getPort. by rewrite Hc. Qed.

Lemma entered_unsigned_zero_compare c c' :
  entered c c' -> unsigned_zero_compare c' = unsigned_zero_compare c.
Proof.
  intros He. unfold unsigned_zero_compare.
  rewrite (entered_param _ _ _ He), (entered_getPort _ _ _ He).
  destruct He as (-> & _). done.
Qed.

Lemma entered_signed_zero_compare c c' :
  entered c c' -> signed_zero_compare c' = signed_zero_compare c.
Proof.
  intros He. unfold signed_zero_compare.
  rewrite !(entered_param _ _ _ He), (entered_getPort _ _ _ He).
  destruct He as (-> & _). done.
Qed.

(** A cell that has the parameters that the pass reads is not changed by
    entering them. *)
Lemma entered_all_present c c' :
  entered c c' -> (forall k, k ∈ read_params -> is_Some (parameters c !! k)) -> c' = c.
Proof.
  intros (Ht & Hc & Hp) Hall. destruct c as [ty co pa], c' as [ty' co' pa']. simpl in *.
  f_equal; try done. apply map_eq. intros k.
  destruct (Hp k) as [?|(Hk & Hn & _)]; [done|].
  destruct (Hall k Hk) as [v Hv]. congruence.
Qed.

Lemma parameter_present m x c k :
  cells_ m !! x = Some c -> is_Some (parameters c !! k) ->
  parameter m x k = Ok (param c k, m).
Proof.
  intros Hc Hk. rewrite (parameter_eq _ _ _ _ Hc), enter_param_present by done.
  by rewrite set_cell_same.
Qed.

Lemma remove_set_cell m x c :
  remove (set_cell m x c) x = Ok (mkModule (delete x (cells_ m)) (connections m)).
Proof.
  unfold remove. rewrite lookup_set_cell. unfold set_cell. simpl.
  by rewrite delete_insert_eq.
Qed.

Lemma remove_connect_set_cell m x c lhs rhs :
  remove (connect (set_cell m x c) lhs rhs) x
  = Ok (mkModule (delete x (cells_ m)) (connections m ++ [(lhs, rhs)])).
Proof.
  unfold remove, connect, set_cell. simpl.
  by rewrite lookup_insert_eq, delete_insert_eq.
Qed.

End ParameterFacts.

Section CompareClaims.
Import OptCompareBase CompareSamples.

(** On every other cell the two loop bodies do the same. *)
Lemma visit_agrees m cell c :
  deref m cell = Ok c -> unsigned_zero_compare c = false ->
  OptCompare.visit m cell = OptCompareInline.visit m cell.
Proof.
  intros Hc Hu. unfold OptCompare.visit, OptCompareInline.visit,
    OptCompare.replace_le_cell, OptCompare.replace_ge_cell, unsigned_zero_compare in *.
  rewrite Hc. simpl.
  assert (Hcell : cells_ m !! cell = Some c).
  { unfold deref in Hc. by destruct (cells_ m !! cell); simplify_eq. }
  destruct (type c =? "$lt")%string; simpl in *.
  - destruct (getPort c "\A"); [|done]. simpl.
    destruct (getPort c "\B") as [b|]; [|done]. simpl.
    rewrite (parameter_eq _ _ _ _ Hcell). simpl.
    destruct (SigSpec_fill S0 (as_int (param c "\Y_WIDTH"))); [|done]. simpl.
    destruct (is_fully_const b && is_fully_zero b); [|done].
    rewrite (parameter_eq _ _ _ _ (lookup_set_cell _ _ _)). simpl.
    rewrite param_enter_param.
    by destruct (as_bool (param c "\A_SIGNED")).
  - destruct (type c =? "$ge")%string; [|done]. simpl in *.
    destruct (getPort c "\A"); [|done]. simpl.
    destruct (getPort c "\B") as [b|]; [|done]. simpl.
    destruct (getPort c "\Y"); [|done]. simpl.
    destruct (is_fully_const b && is_fully_zero b); [|done].
    rewrite (parameter_eq _ _ _ _ Hcell). simpl.
    by destruct (as_bool (param c "\A_SIGNED")).
Qed.

(** C10, at the failing input.  On a module whose only cell is an unsigned
    [a < 0] the revision with the replacements written out connects the
    output to constant 0 and removes the cell, while the revision with
    [replace_le_cell] returns the module as it was; likewise for an unsigned
    [a >= 0], which the first replaces by constant 1.  On the signed
    comparisons the two agree. *)
Theorem C10_unsigned_compare_left_in_place :
  OptCompareInline.optimize_compares (whole (one_compare "$lt" false)) "top"
    (one_compare "$lt" false)
  = Ok (mkModule ∅ [([WireBit "y" 0], [ConstBit S0])]) /\
  OptCompare.optimize_compares (whole (one_compare "$lt" false)) "top"
    (one_compare "$lt" false)
  = Ok (one_compare "$lt" false) /\
  OptCompareInline.optimize_compares (whole (one_compare "$ge" false)) "top"
    (one_compare "$ge" false)
  = Ok (mkModule ∅ [([WireBit "y" 0], [ConstBit S1])]) /\
  OptCompare.optimize_compares (whole (one_compare "$ge" false)) "top"
    (one_compare "$ge" false)
  = Ok (one_compare "$ge" false) /\
  OptCompare.optimize_compares (whole (one_compare "$lt" true)) "top"
    (one_compare "$lt" true)
  = OptCompareInline.optimize_compares (whole (one_compare "$lt" true)) "top"
      (one_compare "$lt" true) /\
  OptCompare.optimize_compares (whole (one_compare "$ge" true)) "top"
    (one_compare "$ge" true)
  = OptCompareInline.optimize_compares (whole (one_compare "$ge" true)) "top"
      (one_compare "$ge" true).
Proof. split_and!; vm_compute; reflexivity. Qed.

End CompareClaims.

(** * More about the induction pass *)

Module PassFacts.
Import EquivInduct WorkerLogic WorkerRules WorkerSpecs TraceFacts GuardFacts CellFacts RunFacts.

(** ** Traces without a port write *)

Section Traces.
Context {S : Type} `{EzSat S}.

Implicit Types (w : Worker S) (m : Module) (d : list Event).

Lemma warns_rewrites C dw C' : warns C dw C' -> rewrites dw = [].
Proof. induction 1; [done|]. by simpl. Qed.

Lemma loop_tr_rewrites W k m n step C d exit m' :
  loop_tr W k m n step C d exit m' ->
  match exit with Returned => rewrites d = W | FellThrough => rewrites d = [] end.
Proof.
  induction 1 as [step C|n step C cl v|n step C C' cl v cl' v' dw x da m' Hw Hal
                 |n step C C' cl v cl' v' dw x d exit m' Hw _ IH]; simpl; try done.
  - rewrite rewrites_app, (warns_rewrites _ _ _ Hw). simpl.
    by destruct (alias_tr_events _ _ _ _ Hal).
  - rewrite rewrites_app, (warns_rewrites _ _ _ Hw). simpl. by destruct exit.
Qed.

(** A run that proves nothing writes nothing. *)
Lemma run_tr_quiet w d m' :
  workset w <> [] -> run_tr w d m' 0 -> rewrites d = [].
Proof.
  intros HW (dw & C & dl & exit & m1 & df & -> & Hw & Hloop & Hexit). simpl.
  rewrite !rewrites_app, (warns_rewrites _ _ _ Hw). simpl.
  apply loop_tr_rewrites in Hloop. destruct exit.
  - destruct Hexit as (_ & _ & Hn). destruct (workset w); [done|]. simpl in Hn. lia.
  - rewrite Hloop. simpl. apply fallback_tr_count in Hexit.
    destruct (rewrites df); [done|]. simpl in Hexit. lia.
Qed.

(** *** What is written stays proven *)

Lemma cells_setPort_eq m cell p sig :
  cells_ (module_setPort m cell p sig) !! cell
  = (fun c => setPort c p sig) <$> cells_ m !! cell.
Proof. apply lookup_alter_eq. Qed.

Lemma cells_setPort_ne m cell p sig x :
  x <> cell -> cells_ (module_setPort m cell p sig) !! x = cells_ m !! x.
Proof. intros Hne. by apply lookup_alter_ne. Qed.

Lemma joined_setPort_here m cell c a :
  cells_ m !! cell = Some c -> getPort c "\A" = Ok a ->
  joined (module_setPort m cell "\B" a) cell.
Proof.
  intros Hc Ha. exists (setPort c "\B" a), a.
  rewrite cells_setPort_eq, Hc, getPort_setPort_ne, getPort_setPort_eq by done. done.
Qed.

Lemma joined_setPort m cell c a x :
  cells_ m !! cell = Some c -> getPort c "\A" = Ok a ->
  joined m x -> joined (module_setPort m cell "\B" a) x.
Proof.
  intros Hc Ha (c' & sig & Hc' & HA & HB). destruct (decide (x = cell)) as [->|Hne].
  - exact (joined_setPort_here _ _ _ _ Hc Ha).
  - exists c', sig. by rewrite cells_setPort_ne.
Qed.

Lemma alias_tr_joined m cs da m' :
  alias_tr m cs da m' ->
  (forall x, joined m x -> joined m' x) /\ (forall x, x ∈ cs -> joined m' x).
Proof.
  induction 1 as [|m cell cs c a da m' Hc Ha _ [IH1 IH2]].
  - split; [done|]. intros x Hx. by apply elem_of_nil in Hx.
  - split.
    + intros x Hx. exact (IH1 _ (joined_setPort _ _ _ _ _ Hc Ha Hx)).
    + intros x [->|Hx]%elem_of_cons; [|by apply IH2].
      exact (IH1 _ (joined_setPort_here _ _ _ _ Hc Ha)).
Qed.

Lemma fallback_tr_joined sm k m cs d m' n :
  fallback_tr sm k m cs d m' n ->
  (forall x, joined m x -> joined m' x) /\ (forall x, x ∈ rewrites d -> joined m' x).
Proof.
  induction 1 as [|m cell cs d1 m1 n1 d2 m2 n2 Hm _ [IH1 IH2]].
  - split; [done|]. intros x Hx. by apply elem_of_nil in Hx.
  - destruct Hm as (c & a & b & y & bit_a & bit_b & s & x0 & r & Hc & Ha & _ & _ & _ & _ & _ & Hr).
    destruct r; destruct Hr as (-> & -> & _).
    + split; [done|]. intros x Hx. rewrite rewrites_app in Hx. simpl in Hx. by apply IH2.
    + split.
      * intros x Hx. exact (IH1 _ (joined_setPort _ _ _ _ _ Hc Ha Hx)).
      * intros x Hx. rewrite rewrites_app in Hx. simpl in Hx.
        apply elem_of_cons in Hx as [->|Hx]; [|by apply IH2].
        exact (IH1 _ (joined_setPort_here _ _ _ _ Hc Ha)).
Qed.

Lemma run_tr_joined w d m' n x :
  run_tr w d m' n -> x ∈ rewrites d -> joined m' x.
Proof.
  intros (dw & C & dl & exit & m1 & df & -> & Hw & Hloop & Hexit). simpl.
  rewrite !rewrites_app, (warns_rewrites _ _ _ Hw). simpl.
  pose proof (loop_tr_rewrites _ _ _ _ _ _ _ _ _ Hloop) as Hr. destruct exit.
  - destruct Hexit as (-> & -> & _). rewrite app_nil_r, Hr. intros Hx.
    destruct (loop_tr_returned _ _ _ _ _ _ _ _ Hloop) as [da Hal].
    by eapply alias_tr_joined.
  - rewrite Hr. simpl. by eapply fallback_tr_joined.
Qed.

(** *** The counter and the solver calls *)

Lemma run_tr_count w d m' n : run_tr w d m' n -> n = Z.of_nat (length (rewrites d)).
Proof.
  intros (dw & C & dl & exit & m1 & df & -> & Hw & Hloop & Hexit). simpl.
  rewrite !rewrites_app, (warns_rewrites _ _ _ Hw). simpl.
  apply loop_tr_rewrites in Hloop. destruct exit.
  - destruct Hexit as (-> & _ & ->). by rewrite app_nil_r, Hloop.
  - rewrite Hloop. simpl. by eapply fallback_tr_count.
Qed.

Lemma warns_solver_calls C dw C' : warns C dw C' -> solver_calls dw = [].
Proof. induction 1; [done|]. by simpl. Qed.

Lemma fallback_tr_queries sm k m cs d m' n :
  fallback_tr sm k m cs d m' n ->
  map (fun c => fst (fst c)) (solver_calls d) = map QMarker cs.
Proof.
  induction 1 as [|m cell cs d1 m1 n1 d2 m2 n2 Hm _ IH]; [done|].
  rewrite solver_calls_app, map_app, IH.
  destruct Hm as (c & a & b & y & bit_a & bit_b & s & x & r & _ & _ & _ & _ & _ & _ & _ & Hr).
  by destruct r; destruct Hr as (-> & _).
Qed.

Lemma loop_tr_calls W k m n step C d exit m' :
  loop_tr W k m n step C d exit m' ->
  (length (solver_calls d) <= 2 * n)%nat /\
  (exit = Returned -> 1 <= length (solver_calls d))%nat.
Proof.
  induction 1 as [step C|n step C cl v|n step C C' cl v cl' v' dw x da m' Hw Hal
                 |n step C C' cl v cl' v' dw x d exit m' Hw _ [IH1 IH2]]; simpl.
  - split; [lia|done].
  - split; [lia|done].
  - rewrite solver_calls_app, (warns_solver_calls _ _ _ Hw). simpl.
    destruct (alias_tr_events _ _ _ _ Hal) as [-> _]. simpl. lia.
  - rewrite solver_calls_app, (warns_solver_calls _ _ _ Hw). simpl. lia.
Qed.

Lemma run_tr_calls w d m' n :
  run_tr w d m' n ->
  (length (solver_calls d) <= 2 * Z.to_nat (max_seq w) + length (workset w))%nat.
Proof.
  intros (dw & C & dl & exit & m1 & df & -> & Hw & Hloop & Hexit). simpl.
  rewrite !solver_calls_app, (warns_solver_calls _ _ _ Hw), !length_app. simpl.
  destruct (loop_tr_calls _ _ _ _ _ _ _ _ _ Hloop) as [Hl _]. destruct exit.
  - destruct Hexit as (-> & _). simpl. lia.
  - apply fallback_tr_queries in Hexit.
    apply (f_equal length) in Hexit. rewrite !length_map in Hexit. lia.
Qed.

(** *** The module up to the B ports *)

Lemma same_but_B_refl c : same_but_B c c.
Proof. by split_and!. Qed.

Lemma same_modulo_B_refl m : same_modulo_B m m.
Proof.
  split; [done|]. intros x. destruct (cells_ m !! x); constructor. apply same_but_B_refl.
Qed.

Lemma same_modulo_B_trans m1 m2 m3 :
  same_modulo_B m1 m2 -> same_modulo_B m2 m3 -> same_modulo_B m1 m3.
Proof.
  intros [Hc1 Hx1] [Hc2 Hx2]. split; [congruence|]. intros x.
  specialize (Hx1 x). specialize (Hx2 x).
  destruct Hx1 as [c1 c2 (? & ? & Hp1)|]; inversion Hx2 as [c2' c3 (? & ? & Hp2)|];
    simplify_eq; constructor.
  split_and!; try congruence. intros p Hp. by rewrite Hp2, Hp1.
Qed.

Lemma setPort_modulo_B m x a : same_modulo_B m (module_setPort m x "\B" a).
Proof.
  split; [done|]. intros y. destruct (decide (y = x)) as [->|Hne].
  - rewrite cells_setPort_eq. destruct (cells_ m !! x); constructor.
    split_and!; try done. intros p Hp. simpl. by rewrite lookup_insert_ne.
  - rewrite cells_setPort_ne by done. destruct (cells_ m !! y); constructor.
    apply same_but_B_refl.
Qed.

Lemma alias_tr_modulo_B m cs da m' : alias_tr m cs da m' -> same_modulo_B m m'.
Proof.
  induction 1 as [|m cell cs c a da m' Hc Ha _ IH]; [apply same_modulo_B_refl|].
  eapply same_modulo_B_trans; [apply setPort_modulo_B|done].
Qed.

Lemma fallback_tr_modulo_B sm k m cs d m' n :
  fallback_tr sm k m cs d m' n -> same_modulo_B m m'.
Proof.
  induction 1 as [|m cell cs d1 m1 n1 d2 m2 n2 Hm _ IH]; [apply same_modulo_B_refl|].
  destruct Hm as (c & a & b & y & bit_a & bit_b & s & x & r & _ & _ & _ & _ & _ & _ & _ & Hr).
  destruct r; destruct Hr as (_ & -> & _); [done|].
  eapply same_modulo_B_trans; [apply setPort_modulo_B|done].
Qed.

Lemma run_tr_modulo_B w d m' n : run_tr w d m' n -> same_modulo_B (module w) m'.
Proof.
  intros (dw & C & dl & exit & m1 & df & _ & _ & Hloop & Hexit). destruct exit.
  - destruct Hexit as (_ & -> & _).
    destruct (loop_tr_returned _ _ _ _ _ _ _ _ Hloop) as [da Hal].
    by eapply alias_tr_modulo_B.
  - rewrite (loop_tr_fell _ _ _ _ _ _ _ _ _ Hloop eq_refl) in Hexit.
    by eapply fallback_tr_modulo_B.
Qed.

(** *** Joined inputs stay joined *)

Lemma run_tr_keeps_joined w d m' n x :
  run_tr w d m' n -> joined (module w) x -> joined m' x.
Proof.
  intros (dw & C & dl & exit & m1 & df & _ & _ & Hloop & Hexit). destruct exit.
  - destruct Hexit as (_ & -> & _).
    destruct (loop_tr_returned _ _ _ _ _ _ _ _ Hloop) as [da Hal].
    by apply (alias_tr_joined _ _ _ _ Hal).
  - rewrite (loop_tr_fell _ _ _ _ _ _ _ _ _ Hloop eq_refl) in Hexit.
    by apply (fallback_tr_joined _ _ _ _ _ _ _ Hexit).
Qed.

(** *** Cells that cannot be visited *)

Lemma timestep_cell_bad step terms cell w :
  cell_ok (module w) cell = false ->
  traced (timestep_cell step terms cell) w
    (fun _ _ _ => False) (fun f => is_step_assert f = false).
Proof.
  unfold timestep_cell, cell_ok. intros Hbad. do 2 tstep.
  destruct (cells_ (module w) !! cell) as [c|] eqn:Hc; [|done].
  do 4 tstep. simpl.
  apply traced_seq with
    (Q1 := fun _ w1 _ => module w1 = module w /\ sigmap w1 = sigmap w)
    (E1 := fun _ => False); [|done|].
  { destruct (negb a && negb (bool_decide (cell ∈ cell_warn_cache w))).
    - by do 3 tstep.
    - by tstep. }
  intros _ w1 _ _ [Hm Hsm].
  destruct (type c =? "$equiv")%string; [|done].
  unfold bit_port in Hbad.
  do 2 tstep. rewrite Hm, Hc.
  destruct (connections_ c !! "\A") as [pa|]; [|done].
  do 2 tstep. destruct pa as [|ba [|??]]; simpl; try done.
  do 2 tstep. rewrite Hm, Hc.
  destruct (connections_ c !! "\B") as [pb|]; [|done].
  do 2 tstep. destruct pb as [|bb [|??]]; simpl; try done.
Qed.

Lemma timestep_cells_bad step cs : forall terms w,
  forallb (cell_ok (module w)) cs = false ->
  traced (foldM (timestep_cell step) cs terms) w
    (fun _ _ _ => False) (fun f => is_step_assert f = false).
Proof.
  induction cs as [|cell cs IH]; intros terms w Hbad; simpl in *; [done|].
  destruct (cell_ok (module w) cell) eqn:Hcell.
  - eapply traced_seq; [apply timestep_cell_spec|by intros f [? _]|].
    intros terms1 w1 _ _ ((_ & Hm & _) & _). cbv beta.
    eapply traced_mono; [apply IH| |]; try done. by rewrite Hm.
  - eapply traced_seq; [by apply timestep_cell_bad|done|done].
Qed.

Lemma create_timestep_bad step w :
  forallb (cell_ok (module w)) (cells w) = false ->
  traced (create_timestep step) w
    (fun _ _ _ => False) (fun f => is_step_assert f = false).
Proof.
  intros Hbad. unfold create_timestep. do 4 tstep. simpl.
  eapply traced_seq; [by apply timestep_cells_bad|done|done].
Qed.

Lemma create_timestep_defined step w :
  is_Some (ez_step_is_consistent w !! step) ->
  forallb (cell_ok (module w)) (cells w) = true ->
  traced (create_timestep step) w
    (fun _ _ _ => False) (fun f => f = AssertStepDefined step).
Proof.
  intros [e He] Hok. unfold create_timestep. do 4 tstep. simpl.
  eapply traced_seq; [apply timestep_cells_spec| |].
  - simpl. intros f [_ Hf]. congruence.
  - intros terms w1 _ _ (_ & Hcons & _). simpl in *. do 2 tstep.
    rewrite Hcons, He. by tstep.
Qed.

End Traces.

(** ** The workset of the driver *)

Lemma collect_unproven_inv m sel : forall acc W x,
  collect_unproven m sel acc = Ok W -> x ∈ W -> x ∈ acc \/ unproven m sel x.
Proof.
  induction sel as [|cell sel IH]; intros acc W x Hcol Hx; simpl in Hcol.
  { left. by injection Hcol as <-. }
  assert (Hsel : unproven m sel x -> unproven m (cell :: sel) x).
  { intros [? ?]. split; [by right|done]. }
  unfold deref in Hcol. destruct (cells_ m !! cell) as [c|] eqn:Hc; [|done].
  simpl in Hcol.
  destruct (type c =? "$equiv")%string eqn:Hty;
    [|by destruct (IH _ _ _ Hcol Hx); auto].
  destruct (getPort c "\A") as [a|] eqn:Ha; [|done].
  destruct (getPort c "\B") as [b|] eqn:Hb; [|done]. simpl in Hcol.
  case_bool_decide as Hne; [|by destruct (IH _ _ _ Hcol Hx); auto].
  destruct (IH _ _ _ Hcol Hx) as [[->|?]%elem_of_cons|?]; auto.
  right. split; [by left|]. apply String.eqb_eq in Hty. by exists c, a, b.
Qed.

Lemma collect_unproven_spec m sel W x :
  collect_unproven m sel [] = Ok W -> x ∈ W <-> unproven m sel x.
Proof.
  intros Hcol. split.
  - intros Hx. destruct (collect_unproven_inv _ _ _ _ _ Hcol Hx) as [Hnil|?]; [|done].
    by apply elem_of_nil in Hnil.
  - intros (Hx & c & a & b & ? & ? & ? & ? & ?).
    by eapply collect_unproven_includes.
Qed.

Lemma collect_unproven_total m sel : forall acc,
  forallb (cell_ok m) sel = true -> exists W, collect_unproven m sel acc = Ok W.
Proof.
  induction sel as [|cell sel IH]; intros acc Hok; simpl; [eauto|].
  simpl in Hok. apply andb_prop in Hok as [Hcell Hsel].
  unfold cell_ok in Hcell. unfold deref.
  destruct (cells_ m !! cell) as [c|]; [|done]. simpl.
  destruct (type c =? "$equiv")%string; [|by apply IH].
  apply andb_prop in Hcell as [[a Ha]%bit_port_inv [b Hb]%bit_port_inv].
  unfold getPort. rewrite Ha, Hb. simpl. case_bool_decide; by apply IH.
Qed.

Lemma elem_of_selected_cells d mname m x :
  x ∈ selected_cells d mname m <->
  selected_member d mname x = true /\ is_Some (cells_ m !! x).
Proof.
  unfold selected_cells. rewrite list_elem_of_filter, list_elem_of_fmap.
  split.
  - intros [? ([x' c] & -> & Hin%elem_of_map_to_list)]. split; [done|by exists c].
  - intros [? [c Hc]]. split; [done|]. exists (x, c). split; [done|].
    by apply elem_of_map_to_list.
Qed.

Lemma NoDup_selected_cells d mname m : NoDup (selected_cells d mname m).
Proof. apply NoDup_filter, NoDup_fst_map_to_list. Qed.

Lemma collect_unproven_NoDup m sel : forall acc W,
  collect_unproven m sel acc = Ok W ->
  NoDup sel -> NoDup acc -> (forall x, x ∈ sel -> x ∈ acc -> False) -> NoDup W.
Proof.
  induction sel as [|cell sel IH]; intros acc W Hcol Hsel Hacc Hdis; simpl in Hcol.
  { by injection Hcol as <-. }
  apply NoDup_cons in Hsel as [Hcell Hsel].
  assert (Hdis' : forall x, x ∈ sel -> x ∈ acc -> False).
  { intros x Hx. apply Hdis. by right. }
  destruct (deref m cell) as [c|]; [|done]. simpl in Hcol.
  destruct (type c =? "$equiv")%string; [|by eapply IH].
  destruct (getPort c "\A") as [a|]; [|done].
  destruct (getPort c "\B") as [b|]; [|done]. simpl in Hcol.
  case_bool_decide; [|by eapply IH].
  eapply IH; [done|done| |].
  - apply NoDup_cons. split; [|done]. intros Hin. apply (Hdis cell); [by left|done].
  - intros x Hx [->|Hin]%elem_of_cons; [done|by eapply Hdis'].
Qed.

(** The driver fails while it collects the workset exactly if a selected
    cell is not there or is a marker without port A or B. *)
Lemma collect_unproven_ok m sel : forall acc,
  is_ok (collect_unproven m sel acc) = true <->
  forall x, x ∈ sel ->
    exists c, cells_ m !! x = Some c /\
              (type c = "$equiv" ->
               is_Some (connections_ c !! "\A") /\ is_Some (connections_ c !! "\B")).
Proof.
  induction sel as [|cell sel IH]; intros acc; simpl.
  { split; [|done]. intros _ x Hx. by apply elem_of_nil in Hx. }
  unfold deref, getPort.
  destruct (cells_ m !! cell) as [c|] eqn:Hc; simpl; cycle 1.
  { split; [done|]. intros Hall. destruct (Hall cell) as (c & ? & _); [by left|congruence]. }
  assert (Hcons : forall P : string -> Prop,
            P cell -> ((forall x, x ∈ sel -> P x) <-> forall x, x ∈ cell :: sel -> P x)).
  { intros P Hcell. split; intros Hall x Hx.
    - apply elem_of_cons in Hx as [->|Hx]; auto.
    - apply Hall. by right. }
  destruct (String.eqb_spec (type c) "$equiv") as [Hty|Hty]; cycle 1.
  { rewrite IH. apply Hcons. by exists c. }
  destruct (connections_ c !! "\A") as [a|] eqn:Ha; simpl; cycle 1.
  { split; [done|]. intros Hall. destruct (Hall cell) as (c' & ? & Hp); [by left|].
    simplify_eq. destruct (Hp Hty) as [[? ?] _]. congruence. }
  destruct (connections_ c !! "\B") as [b|] eqn:Hb; simpl; cycle 1.
  { split; [done|]. intros Hall. destruct (Hall cell) as (c' & ? & Hp); [by left|].
    simplify_eq. destruct (Hp Hty) as [_ [? ?]]. congruence. }
  assert (Hcell : exists c0, cells_ m !! cell = Some c0 /\
            (type c0 = "$equiv" ->
             is_Some (connections_ c0 !! "\A") /\ is_Some (connections_ c0 !! "\B"))).
  { exists c. split; [done|]. intros _. rewrite Ha, Hb. eauto. }
  case_bool_decide; rewrite IH; by apply Hcons.
Qed.

(** Nothing is collected from cells whose inputs are joined. *)
Lemma collect_unproven_joined m sel : forall acc,
  (forall x, x ∈ sel ->
     exists c, cells_ m !! x = Some c /\ (type c = "$equiv" -> joined m x)) ->
  collect_unproven m sel acc = Ok acc.
Proof.
  induction sel as [|cell sel IH]; intros acc Hall; simpl; [done|].
  destruct (Hall cell) as (c & Hc & Hj); [by left|].
  assert (Hsel : forall x, x ∈ sel ->
            exists c, cells_ m !! x = Some c /\ (type c = "$equiv" -> joined m x)).
  { intros x Hx. apply Hall. by right. }
  unfold deref. rewrite Hc. simpl.
  destruct (String.eqb_spec (type c) "$equiv") as [Hty|Hty]; [|by apply IH].
  destruct (Hj Hty) as (c' & sig & Hc' & HA & HB). simplify_eq.
  rewrite HA, HB. simpl. rewrite bool_decide_eq_false_2 by (by intros []). by apply IH.
Qed.

(** ** The loop over the modules *)

Section Modules.
Context {S : Type} `{EzSat S}.

(** The three ways through the body of the loop. *)
Lemma execute_module_inv k st mname st' :
  execute_module (S := S) k st mname = Ok st' ->
  (modules_ (design st) !! mname = None /\ st' = st) \/
  (exists m, modules_ (design st) !! mname = Some m /\
     collect_unproven m (selected_cells (design st) mname m) [] = Ok [] /\
     st' = mkPassState (design st) (total st)
             (output st ++ [Log (MsgNoneFound mname)])) \/
  (exists m W (w' : Worker S),
     modules_ (design st) !! mname = Some m /\
     collect_unproven m (selected_cells (design st) mname m) [] = Ok W /\ W <> [] /\
     run (EquivInductWorker (design st) mname m W k) = Ok (tt, w') /\
     st' = mkPassState (RTLIL.set_module (design st) mname (module w'))
             (total st + success_counter w') (output st ++ trace w')).
Proof.
  unfold execute_module. intros Hex.
  destruct (modules_ (design st) !! mname) as [m|]; [|left; by simplify_eq].
  right. destruct (collect_unproven m _ []) as [W|] eqn:Hcol; [|done]. simpl in Hex.
  destruct W as [|x W]; [left; exists m; by simplify_eq|].
  right. destruct (run _) as [[[] w']|] eqn:Hrun; [|done]. simpl in Hex.
  exists m, (x :: W), w'. by simplify_eq.
Qed.

Lemma fresh_EquivInductWorker d mname m W k :
  fresh (EquivInductWorker (S := S) d mname m W k).
Proof. done. Qed.

Lemma run_worker_tr d mname m W k (w' : Worker S) :
  run (EquivInductWorker d mname m W k) = Ok (tt, w') ->
  run_tr (EquivInductWorker d mname m W k) (trace w') (module w') (success_counter w').
Proof.
  intros Hrun. pose proof (run_fresh _ (fresh_EquivInductWorker d mname m W k)) as Hf.
  rewrite Hrun in Hf. destruct Hf as (_ & Htr & _). simpl in Htr.
  by rewrite Z.sub_0_r in Htr.
Qed.

Lemma execute_module_count k st mname st' :
  execute_module (S := S) k st mname = Ok st' ->
  total st' - Z.of_nat (length (rewrites (output st')))
  = total st - Z.of_nat (length (rewrites (output st))) /\
  exists delta, output st' = (output st ++ delta)%list.
Proof.
  intros [[_ ->]|[(m & _ & _ & ->)|(m & W & w' & _ & _ & _ & Hrun & ->)]]%execute_module_inv;
    simpl.
  - split; [done|]. exists []. by rewrite app_nil_r.
  - rewrite rewrites_app, length_app. simpl. split; [lia|eauto].
  - apply run_worker_tr, run_tr_count in Hrun.
    rewrite rewrites_app, length_app. split; [lia|eauto].
Qed.

Lemma execute_modules_count k names : forall st st',
  execute_modules (S := S) k st names = Ok st' ->
  total st' - Z.of_nat (length (rewrites (output st')))
  = total st - Z.of_nat (length (rewrites (output st))) /\
  exists delta, output st' = (output st ++ delta)%list.
Proof.
  induction names as [|mname names IH]; intros st st' Hex; simpl in Hex.
  { simplify_eq. split; [done|]. exists []. by rewrite app_nil_r. }
  destruct (execute_module k st mname) as [st1|] eqn:H1; [|done]. simpl in Hex.
  destruct (execute_module_count _ _ _ _ H1) as [Hn1 [d1 Hd1]].
  destruct (IH _ _ Hex) as [Hn2 [d2 Hd2]]. split; [lia|].
  exists (d1 ++ d2)%list. by rewrite Hd2, Hd1, app_assoc.
Qed.

Lemma option_same_modulo_B_trans (o1 o2 o3 : option Module) :
  option_Forall2 same_modulo_B o1 o2 -> option_Forall2 same_modulo_B o2 o3 ->
  option_Forall2 same_modulo_B o1 o3.
Proof.
  intros H12 H23. destruct H12; inversion H23; simplify_eq; constructor.
  by eapply same_modulo_B_trans.
Qed.

Lemma option_same_modulo_B_refl (o : option Module) : option_Forall2 same_modulo_B o o.
Proof. destruct o; constructor. apply same_modulo_B_refl. Qed.

Lemma execute_module_frame k st mname st' :
  execute_module (S := S) k st mname = Ok st' ->
  selected_module (design st') = selected_module (design st) /\
  selected_member (design st') = selected_member (design st) /\
  forall x, option_Forall2 same_modulo_B (modules_ (design st) !! x)
                                         (modules_ (design st') !! x) /\
            (x <> mname -> modules_ (design st') !! x = modules_ (design st) !! x).
Proof.
  intros [[_ ->]|[(m & _ & _ & ->)|(m & W & w' & Hm & _ & _ & Hrun & ->)]]%execute_module_inv;
    simpl; split_and!; try done; try (intros x; split; [apply option_same_modulo_B_refl|done]).
  intros x. destruct (decide (x = mname)) as [->|Hne].
  - rewrite lookup_insert_eq, Hm. split; [|done]. constructor.
    apply run_worker_tr in Hrun. by apply run_tr_modulo_B in Hrun.
  - rewrite lookup_insert_ne by done. split; [apply option_same_modulo_B_refl|done].
Qed.

Lemma execute_modules_frame k names : forall st st',
  execute_modules (S := S) k st names = Ok st' ->
  selected_module (design st') = selected_module (design st) /\
  selected_member (design st') = selected_member (design st) /\
  forall x, option_Forall2 same_modulo_B (modules_ (design st) !! x)
                                         (modules_ (design st') !! x) /\
            (x ∉ names -> modules_ (design st') !! x = modules_ (design st) !! x).
Proof.
  induction names as [|mname names IH]; intros st st' Hex; simpl in Hex.
  { simplify_eq. split_and!; try done. intros x. split; [apply option_same_modulo_B_refl|done]. }
  destruct (execute_module k st mname) as [st1|] eqn:H1; [|done]. simpl in Hex.
  destruct (execute_module_frame _ _ _ _ H1) as (Hs1 & Hm1 & Hx1).
  destruct (IH _ _ Hex) as (Hs2 & Hm2 & Hx2). split_and!; try congruence.
  intros x. destruct (Hx1 x) as [Ha1 Hb1]. destruct (Hx2 x) as [Ha2 Hb2]. split.
  - by eapply option_same_modulo_B_trans.
  - intros [Hne Hnin]%not_elem_of_cons. by rewrite Hb2, Hb1.
Qed.

Lemma elem_of_selected_modules d x :
  x ∈ selected_modules d <-> selected_module d x = true /\ is_Some (modules_ d !! x).
Proof.
  unfold selected_modules. rewrite list_elem_of_filter, list_elem_of_fmap.
  split.
  - intros [? ([x' c] & -> & Hin%elem_of_map_to_list)]. split; [done|by exists c].
  - intros [? [c Hc]]. split; [done|]. exists (x, c). split; [done|].
    by apply elem_of_map_to_list.
Qed.

End Modules.

End PassFacts.

(** * The induction worker: what a run does and does not do *)

Section WorkerExtras.
Import EquivInduct WorkerLogic WorkerRules WorkerSpecs TraceFacts GuardFacts CellFacts RunFacts.
Import PassFacts.
Context {S : Type} `{EzSat S}.

Implicit Types (w : Worker S).

(** X1.  The success counter counts the port writes: a run of a fresh worker
    that returns has added to the counter the number of [setPort] calls it
    made. *)
Theorem run_counts_its_writes w :
  fresh w ->
  match run w with
  | Ok (_, w') =>
      success_counter w' = success_counter w + Z.of_nat (length (rewrites (trace w')))
  | Abort _ => True
  end.
Proof.
  intros Hf. assert (Hrun := run_fresh w Hf).
  destruct (run w) as [[[] w']|f]; [|done].
  destruct Hrun as (_ & Htr & _). apply run_tr_count in Htr. lia.
Qed.

(** X2.  A run writes nothing but B ports: it leaves the fields of the
    worker that describe the task as they were, the connections of the
    module too, and no cell is added or removed or changed in its type, its
    parameters or a port other than B. *)
Theorem run_writes_only_B w :
  fresh w ->
  match run w with
  | Ok (_, w') => same_setup w w' /\ same_modulo_B (module w) (module w')
  | Abort _ => True
  end.
Proof.
  intros Hf. assert (Hrun := run_fresh w Hf).
  destruct (run w) as [[[] w']|f]; [|done].
  destruct Hrun as (Hs & Htr & _). split; [done|]. by eapply run_tr_modulo_B.
Qed.

(** X3.  A run never separates the inputs of a marker: a cell whose ports A
    and B carry one signal before the run has them carry one signal after
    it, and so has every cell that the run writes. *)
Theorem run_keeps_markers_joined w :
  fresh w ->
  match run w with
  | Ok (_, w') =>
      (forall x, joined (module w) x -> joined (module w') x) /\
      (forall x, x ∈ rewrites (trace w') -> joined (module w') x)
  | Abort _ => True
  end.
Proof.
  intros Hf. assert (Hrun := run_fresh w Hf).
  destruct (run w) as [[[] w']|f]; [|done].
  destruct Hrun as (_ & Htr & _). split; intros x Hx.
  - by eapply run_tr_keeps_joined.
  - by eapply run_tr_joined.
Qed.

(** X4.  The work of a run is bounded: it calls the solver at most twice for
    each step up to the bound and once for each cell of the workset. *)
Theorem run_solver_calls_bounded w :
  fresh w ->
  match run w with
  | Ok (_, w') =>
      (length (solver_calls (trace w'))
       <= 2 * Z.to_nat (max_seq w) + length (workset w))%nat
  | Abort _ => True
  end.
Proof.
  intros Hf. assert (Hrun := run_fresh w Hf).
  destruct (run w) as [[[] w']|f]; [|done].
  destruct Hrun as (_ & Htr & _). by eapply run_tr_calls.
Qed.

(** X5.  With a bound below 1 the loop over the steps is not entered: the
    run creates time step 1 only and asks the solver about each cell of the
    workset in turn, and about nothing else. *)
Theorem run_without_steps w :
  fresh w -> max_seq w <= 0 ->
  match run w with
  | Ok (_, w') =>
      timesteps (trace w') = [1] /\
      map (fun c => fst (fst c)) (solver_calls (trace w')) = map QMarker (workset w)
  | Abort _ => True
  end.
Proof.
  intros Hf Hk. assert (Hrun := run_fresh w Hf).
  destruct (run w) as [[[] w']|f]; [|done].
  destruct Hrun as (_ & Htr & _). split.
  - destruct (run_tr_timesteps _ _ _ _ Htr) as (j & Hj & ->).
    by replace j with O by lia.
  - destruct Htr as (dw & C & dl & exit & m1 & df & -> & Hw & Hloop & Hexit).
    replace (Z.to_nat (max_seq w)) with O in Hloop by lia.
    inversion Hloop; subst. simpl.
    rewrite solver_calls_app, (warns_solver_calls _ _ _ Hw). simpl.
    by eapply fallback_tr_queries.
Qed.

(** X6.  [create_timestep] may be called once for a step: called for a
    step that has its consistency expression already, on cells that it can
    visit, it fails with the assertion of its last but one line. *)
Theorem create_timestep_asserts_new_step step w :
  is_Some (ez_step_is_consistent w !! step) ->
  forallb (cell_ok (module w)) (cells w) = true ->
  create_timestep step w = Abort (AssertStepDefined step).
Proof.
  intros He Hok. assert (Hspec := create_timestep_defined step w He Hok).
  unfold traced in Hspec. destruct (create_timestep step w) as [[[] w']|f].
  - by destruct Hspec as (? & _ & ?).
  - by rewrite Hspec.
Qed.

(** X7.  A run fails, and not by the assertion of [create_timestep], if one
    of the selected cells is not owned by the module or is a marker that
    lacks port A or B or has one of them wider or narrower than one bit. *)
Theorem run_fails_on_malformed_cell w :
  forallb (cell_ok (module w)) (cells w) = false ->
  exists f, run w = Abort f /\ is_step_assert f = false.
Proof.
  intros Hbad.
  assert (Hspec : traced run w (fun _ _ _ => False) (fun f => is_step_assert f = false)).
  { unfold run. do 4 tstep. simpl.
    eapply traced_seq; [by apply create_timestep_bad|done|done]. }
  unfold traced in Hspec. destruct (run w) as [[[] w']|f].
  - by destruct Hspec as (? & _ & ?).
  - by exists f.
Qed.

(** X19.  [create_timestep] for a step that is not defined yet, on cells
    that it can visit, returns; it enters the one expression for this step
    into [ez_step_is_consistent], may warn and add to the warning cache, and
    does nothing else: no solver call, no port write, the module and the
    counter as they were. *)
Theorem create_timestep_defines_step step w :
  ez_step_is_consistent w !! step = None ->
  forallb (cell_ok (module w)) (cells w) = true ->
  exists w' e dw,
    create_timestep step w = Ok (tt, w') /\
    ez_step_is_consistent w' = <[step := e]> (ez_step_is_consistent w) /\
    same_setup w w' /\ module w' = module w /\
    success_counter w' = success_counter w /\
    cell_warn_cache w ⊆ cell_warn_cache w' /\
    trace w' = (trace w ++ CreateTimestep step :: dw)%list /\
    solver_calls dw = [] /\ rewrites dw = [].
Proof.
  intros Hnone Hok. assert (Hspec := create_timestep_spec step w).
  unfold traced in Hspec. destruct (create_timestep step w) as [[[] w']|f].
  - destruct Hspec as (d & Hd & (Hs & Hm & Hn) & _ & [e He] & dw & -> & Hw).
    exists w', e, dw. split_and!; try done.
    + by eapply warns_grows.
    + by eapply warns_solver_calls.
    + by eapply warns_rewrites.
  - unfold timestep_failure in Hspec. destruct (is_step_assert f).
    + rewrite Hnone in Hspec. by destruct Hspec.
    + congruence.
Qed.

End WorkerExtras.

(** * The induction pass: the driver *)

Section DriverExtras.
Import EquivInduct WorkerLogic WorkerRules WorkerSpecs TraceFacts GuardFacts CellFacts RunFacts.
Import PassFacts RefSat Samples.
Context {S : Type} `{EzSat S}.

(** X8.  The workset that [execute] hands to a worker holds each selected
    [$equiv] cell whose ports A and B are not the same signal, once, and
    nothing else. *)
Theorem workset_of_driver d mname m W :
  collect_unproven m (selected_cells d mname m) [] = Ok W ->
  NoDup W /\
  forall x, x ∈ W <->
    selected_member d mname x = true /\
    exists c a b, cells_ m !! x = Some c /\ type c = "$equiv" /\
                  getPort c "\A" = Ok a /\ getPort c "\B" = Ok b /\ a <> b.
Proof.
  intros Hcol. split.
  - eapply collect_unproven_NoDup; [done|apply NoDup_selected_cells|constructor|].
    intros x _ Hx. by apply elem_of_nil in Hx.
  - intros x. rewrite (collect_unproven_spec _ _ _ _ Hcol). unfold unproven.
    rewrite elem_of_selected_cells. split.
    + intros [[? _] ?]. by split.
    + intros [? (c & a & b & Hc & ?)]. split; [split; [done|by exists c]|].
      by exists c, a, b.
Qed.

(** X9.  Collecting the workset of a module succeeds exactly if every
    selected [$equiv] cell has a port A and a port B; otherwise [execute]
    fails on the missing port before a worker is made. *)
Theorem workset_needs_both_ports d mname m :
  is_ok (collect_unproven m (selected_cells d mname m) []) = true <->
  forall x c, selected_member d mname x = true -> cells_ m !! x = Some c ->
              type c = "$equiv" ->
              is_Some (connections_ c !! "\A") /\ is_Some (connections_ c !! "\B").
Proof.
  rewrite collect_unproven_ok. split.
  - intros Hall x c Hsel Hc Hty. destruct (Hall x) as (c' & Hc' & Hp).
    { apply elem_of_selected_cells. split; [done|by exists c]. }
    simplify_eq. by apply Hp.
  - intros Hall x [Hsel [c Hc]]%elem_of_selected_cells. exists c. split; [done|].
    by apply (Hall x).
Qed.

(** X10.  A module in which every selected marker has its two inputs joined
    is skipped: [execute] says that it found no unproven cell, makes no
    worker, and leaves the design and the count as they are. *)
Theorem proven_module_is_skipped k st mname m :
  modules_ (design st) !! mname = Some m ->
  (forall x c, selected_member (design st) mname x = true -> cells_ m !! x = Some c ->
               type c = "$equiv" -> joined m x) ->
  execute_module (S := S) k st mname
  = Ok (mkPassState (design st) (total st) (output st ++ [Log (MsgNoneFound mname)])).
Proof.
  intros Hm Hj. unfold execute_module. rewrite Hm.
  rewrite collect_unproven_joined; [done|].
  intros x [Hsel [c Hc]]%elem_of_selected_cells. exists c. split; [done|].
  by apply (Hj x).
Qed.

(** X11.  The count that [execute] reports is the number of port writes of
    the whole pass: the output starts with the header, ends with the
    "Proved" line, and the number in that line is the number of [setPort]
    calls. *)
Theorem execute_reports_its_writes extra_args args d :
  match execute (S := S) extra_args args d with
  | Ok st =>
      total st = Z.of_nat (length (rewrites (output st))) /\
      head (output st) = Some (Log MsgHeader) /\
      last (output st) = Some (Log (MsgProved (total st)))
  | Abort _ => True
  end.
Proof.
  unfold execute. destruct (parse_args args) as [max_seq argidx].
  destruct (extra_args args argidx d) as [d'|]; [|done]. simpl.
  destruct (execute_modules max_seq _ _) as [st|] eqn:Hex; [|done]. simpl.
  destruct (execute_modules_count _ _ _ _ Hex) as [Hn [delta Hd]]. simpl in Hn, Hd.
  rewrite rewrites_app, length_app, last_snoc. simpl. split_and!; [lia| |done].
  by rewrite Hd.
Qed.

(** X12.  The pass changes nothing but B ports of cells of selected
    modules: the selection stays, every module keeps its connections and
    its cells up to what their B ports carry, and a module that is not
    selected is not touched at all. *)
Theorem execute_writes_only_B extra_args args d :
  match execute (S := S) extra_args args d with
  | Ok st =>
      exists d', extra_args args (snd (parse_args args)) d = Ok d' /\
        selected_module (design st) = selected_module d' /\
        selected_member (design st) = selected_member d' /\
        forall x,
          option_Forall2 same_modulo_B (modules_ d' !! x) (modules_ (design st) !! x) /\
          (selected_module d' x = false -> modules_ (design st) !! x = modules_ d' !! x)
  | Abort _ => True
  end.
Proof.
  unfold execute. destruct (parse_args args) as [max_seq argidx]. simpl.
  destruct (extra_args args argidx d) as [d'|]; [|done]. simpl.
  destruct (execute_modules max_seq _ _) as [st|] eqn:Hex; [|done]. simpl.
  destruct (execute_modules_frame _ _ _ _ Hex) as (Hs & Hm & Hx). simpl in *.
  exists d'. split_and!; try done. intros x. destruct (Hx x) as [Ha Hb].
  split; [done|]. intros Hsel. apply Hb.
  intros [Hsel' _]%elem_of_selected_modules. congruence.
Qed.

End DriverExtras.

(** * The induction pass on the sample designs *)

Section ExtraRuns.
Import EquivInduct WorkerLogic RefSat Samples.

Lemma run_counts_its_writes_witness :
  match run (worker_on aliased ["eq"] 4) with
  | Ok (_, w') =>
      success_counter w'
      = success_counter (worker_on aliased ["eq"] 4)
        + Z.of_nat (length (rewrites (trace w')))
  | Abort _ => True
  end.
Proof. apply (run_counts_its_writes (worker_on aliased ["eq"] 4)). repeat split. Defined.

Lemma run_writes_only_B_witness :
  match run (worker_on aliased ["eq"] 4) with
  | Ok (_, w') =>
      same_setup (worker_on aliased ["eq"] 4) w' /\
      same_modulo_B (module (worker_on aliased ["eq"] 4)) (module w')
  | Abort _ => True
  end.
Proof. apply (run_writes_only_B (worker_on aliased ["eq"] 4)). repeat split. Defined.

Lemma run_keeps_markers_joined_witness :
  match run (worker_on aliased ["eq"] 4) with
  | Ok (_, w') =>
      (forall x, joined (module (worker_on aliased ["eq"] 4)) x -> joined (module w') x) /\
      (forall x, x ∈ rewrites (trace w') -> joined (module w') x)
  | Abort _ => True
  end.
Proof. apply (run_keeps_markers_joined (worker_on aliased ["eq"] 4)). repeat split. Defined.

Lemma run_solver_calls_bounded_witness :
  match run (worker_on two_blackboxes ["eq"] 4) with
  | Ok (_, w') =>
      (length (solver_calls (trace w'))
       <= 2 * Z.to_nat (max_seq (worker_on two_blackboxes ["eq"] 4))
          + length (workset (worker_on two_blackboxes ["eq"] 4)))%nat
  | Abort _ => True
  end.
Proof.
  apply (run_solver_calls_bounded (worker_on two_blackboxes ["eq"] 4)). repeat split.
Defined.

Lemma run_without_steps_witness :
  match run (worker_on aliased ["eq"] 0) with
  | Ok (_, w') =>
      timesteps (trace w') = [1] /\
      map (fun c => fst (fst c)) (solver_calls (trace w'))
      = map QMarker (workset (worker_on aliased ["eq"] 0))
  | Abort _ => True
  end.
Proof.
  apply (run_without_steps (worker_on aliased ["eq"] 0)); [repeat split|simpl; lia].
Defined.

Lemma create_timestep_asserts_new_step_witness :
  create_timestep 1 (after_run (worker_on aliased ["eq"] 4))
  = Abort (AssertStepDefined 1).
Proof.
  apply (create_timestep_asserts_new_step 1 (after_run (worker_on aliased ["eq"] 4))).
  - vm_compute. eexists. reflexivity.
  - vm_compute. reflexivity.
Defined.

Lemma run_fails_on_malformed_cell_witness :
  exists f, run (worker_on wide_marker ["eq"] 4) = Abort f /\ is_step_assert f = false.
Proof.
  apply (run_fails_on_malformed_cell (worker_on wide_marker ["eq"] 4)).
  vm_compute. reflexivity.
Defined.

Lemma workset_of_driver_witness :
  NoDup ["eq"] /\
  forall x, x ∈ ["eq"] <->
    selected_member aliased "top" x = true /\
    exists c a b, cells_ (top_of aliased) !! x = Some c /\ type c = "$equiv" /\
                  getPort c "\A" = Ok a /\ getPort c "\B" = Ok b /\ a <> b.
Proof.
  apply (workset_of_driver aliased "top" (top_of aliased) ["eq"]).
  vm_compute. reflexivity.
Defined.

Lemma proven_module_is_skipped_witness :
  execute_module (S := Ez) 4 (mkPassState proven 0 []) "top"
  = Ok (mkPassState proven 0 [Log (MsgNoneFound "top")]).
Proof.
  apply (proven_module_is_skipped (S := Ez) 4 (mkPassState proven 0 []) "top" (top_of proven)).
  - vm_compute. reflexivity.
  - intros x c _ Hc _. exists c, (wire "a").
    change (cells_ (top_of proven)) with
      (<["eq" := equiv (wire "a") (wire "a") (wire "y")]> (∅ : gmap string Cell)) in Hc.
    destruct (decide (x = "eq")) as [->|Hne].
    + rewrite lookup_insert_eq in Hc. injection Hc as <-. split; [reflexivity|].
      split; vm_compute; reflexivity.
    + rewrite lookup_insert_ne, lookup_empty in Hc by done. discriminate.
Defined.

Lemma create_timestep_defines_step_witness :
  exists w' e dw,
    create_timestep 7 (worker_on two_blackboxes ["eq"] 4) = Ok (tt, w') /\
    ez_step_is_consistent w'
    = <[7 := e]> (ez_step_is_consistent (worker_on two_blackboxes ["eq"] 4)) /\
    same_setup (worker_on two_blackboxes ["eq"] 4) w' /\
    module w' = module (worker_on two_blackboxes ["eq"] 4) /\
    success_counter w' = success_counter (worker_on two_blackboxes ["eq"] 4) /\
    cell_warn_cache (worker_on two_blackboxes ["eq"] 4) ⊆ cell_warn_cache w' /\
    trace w' = (trace (worker_on two_blackboxes ["eq"] 4) ++ CreateTimestep 7 :: dw)%list /\
    solver_calls dw = [] /\ rewrites dw = [].
Proof.
  apply (create_timestep_defines_step 7 (worker_on two_blackboxes ["eq"] 4));
    vm_compute; reflexivity.
Defined.

(** What the samples show of these runs: the aliased marker is proven by
    one write, with the count at 1; with bound 0 the one solver call is
    the query for the marker. *)
Example aliased_run_counts :
  success_counter (after_run (worker_on aliased ["eq"] 4)) = 1 /\
  rewrites (trace (after_run (worker_on aliased ["eq"] 4))) = ["eq"] /\
  map (fun c => fst (fst c)) (solver_calls (trace (after_run (worker_on aliased ["eq"] 0))))
  = [QMarker "eq"].
Proof. split_and!; vm_compute; reflexivity. Qed.

End ExtraRuns.

(** * [opt_compare]: what the pass does to a module *)

Module CompareFacts.
Import OptCompareBase OptCompare PassFacts.

Implicit Types (m : Module) (c : Cell) (l : list string).

(** ** The order of the visit *)

Lemma insert_by_name_perm x l : insert_by_name x l ≡ₚ x :: l.
Proof.
  induction l as [|y l IH]; simpl; [done|].
  destruct (String.leb x y); [done|]. rewrite IH. apply Permutation_swap.
Qed.

Lemma sort_by_name_perm l : sort_by_name l ≡ₚ l.
Proof.
  induction l as [|x l IH]; simpl; [done|]. by rewrite insert_by_name_perm, IH.
Qed.

Lemma elem_of_sorted_cells d mname m x :
  x ∈ sorted_cells d mname m <-> is_node d mname m x = true.
Proof.
  unfold sorted_cells. rewrite sort_by_name_perm, list_elem_of_filter, list_elem_of_fmap.
  split; [by intros [? _]|]. intros Hn. split; [done|].
  unfold is_node in Hn. destruct (cells_ m !! x) as [c|] eqn:Hc; [|done].
  exists (x, c). split; [done|]. by apply elem_of_map_to_list.
Qed.

Lemma NoDup_sorted_cells d mname m : NoDup (sorted_cells d mname m).
Proof.
  unfold sorted_cells. rewrite sort_by_name_perm.
  apply NoDup_filter, NoDup_fst_map_to_list.
Qed.

(** ** One visit *)

Ltac enter_steps :=
  repeat progress
    (rewrite ?param_enter_param, ?getPort_enter_param, ?type_enter_param,
       ?set_cell_set_cell;
     try (erewrite parameter_eq by apply lookup_set_cell);
     cbn [result_bind]).

Ltac present :=
  repeat first [apply present_enter_param | apply present_enter_param_other].

Ltac entered_steps :=
  repeat first
    [ apply entered_refl
    | eapply entered_trans; [|apply entered_enter_param; set_solver] ].

(** A visit that succeeds leaves the module alone but for the parameters
    that it enters into the cell, or, on a signed comparison with zero,
    removes the cell and either adds a connection or adds the cell [$not].
    In the first case a second visit of the cell changes nothing. *)
Lemma visit_inv m x c m' :
  cells_ m !! x = Some c -> visit m x = Ok m' ->
  (signed_zero_compare c = false /\
   exists c', entered c c' /\ m' = set_cell m x c' /\
     (forall m2, cells_ m2 !! x = Some c' -> visit m2 x = Ok m2) /\
     ((type c =? "$lt")%string || (type c =? "$ge")%string = false -> c' = c)) \/
  (signed_zero_compare c = true /\ type c = "$lt" /\
   exists out y', m' = mkModule (delete x (cells_ m)) (connections m ++ [(out, y')])) \/
  (signed_zero_compare c = true /\ type c = "$ge" /\
   delete x (cells_ m) !! "$not" = None /\
   exists n, type n = "$not" /\
             m' = mkModule (<["$not" := n]> (delete x (cells_ m))) (connections m)).
Proof.
  intros Hc.
  unfold visit at 1, replace_le_cell, replace_ge_cell, signed_zero_compare, deref.
  rewrite Hc. cbn [result_bind].
  destruct (String.eqb_spec (type c) "$lt") as [Hlt|Hlt]; cbn [result_bind orb andb].
  - rewrite ?Hc. cbn [result_bind].
    destruct (getPort c "\A") as [a|] eqn:Ha; [|done]. cbn [result_bind].
    destruct (getPort c "\B") as [b|] eqn:Hb; [|done]. cbn [result_bind].
    rewrite (parameter_eq _ _ _ _ Hc). cbn [result_bind].
    destruct (SigSpec_fill S0 _) as [y|] eqn:Hy; [|done]. cbn [result_bind].
    destruct (is_fully_const b && is_fully_zero b) eqn:Hz.
    2:{ intros [= <-]. left. split; [by rewrite andb_false_r|].
        refine (ex_intro _ _ (conj _ (conj eq_refl (conj _ _)))); [entered_steps| |done].
        intros m2 Hc2. unfold visit, replace_le_cell, deref. rewrite Hc2.
        cbn [result_bind]. enter_steps. rewrite Hlt, Ha, Hb. cbn [result_bind].
        rewrite (parameter_present _ _ _ _ Hc2) by present. enter_steps.
        by rewrite Hy, Hz. }
    unfold lt_signed. enter_steps.
    destruct (as_bool (param c "\A_SIGNED")) eqn:Hs.
    2:{ intros [= <-]. left. split; [done|].
        refine (ex_intro _ _ (conj _ (conj eq_refl (conj _ _)))); [entered_steps| |done].
        intros m2 Hc2. unfold visit, replace_le_cell, deref. rewrite Hc2.
        cbn [result_bind]. enter_steps. rewrite Hlt, Ha, Hb. cbn [result_bind].
        rewrite (parameter_present _ _ _ _ Hc2) by present. enter_steps.
        rewrite Hy, Hz. cbn [result_bind].
        rewrite (parameter_present _ _ _ _ Hc2) by present. enter_steps.
        by rewrite Hs. }
    destruct (0 <? as_int (param c "\A_WIDTH")) eqn:Hw.
    2:{ intros [= <-]. left. split; [done|].
        refine (ex_intro _ _ (conj _ (conj eq_refl (conj _ _)))); [entered_steps| |done].
        intros m2 Hc2. unfold visit, replace_le_cell, lt_signed, deref. rewrite Hc2.
        cbn [result_bind]. enter_steps. rewrite Hlt, Ha, Hb. cbn [result_bind].
        rewrite (parameter_present _ _ _ _ Hc2) by present. enter_steps.
        rewrite Hy, Hz. cbn [result_bind].
        rewrite (parameter_present _ _ _ _ Hc2) by present. enter_steps.
        rewrite Hs.
        rewrite (parameter_present _ _ _ _ Hc2) by present. enter_steps.
        by rewrite Hw. }
    destruct (sign_bit_into y a _) as [y'|]; [|done]. cbn [result_bind].
    destruct (getPort c "\Y") as [out|]; [|done]. cbn [result_bind].
    rewrite remove_connect_set_cell.
    intros [= <-]. right; left. split_and!; try done. by exists out, y'.
  - destruct (String.eqb_spec (type c) "$ge") as [Hge|Hge]; cbn [result_bind orb andb].
    2:{ intros [= <-]. left. split; [done|]. exists c.
        split; [apply entered_refl|]. split; [by rewrite set_cell_same|]. split; [|done].
        intros m2 Hc2. unfold visit, deref. rewrite Hc2. cbn [result_bind].
        destruct (String.eqb_spec (type c) "$lt"); [done|].
        by destruct (String.eqb_spec (type c) "$ge"). }
    assert (Hnlt : (type c =? "$lt")%string = false) by (by rewrite Hge).
    rewrite ?Hc. cbn [result_bind].
    destruct (getPort c "\A") as [a|] eqn:Ha; [|done]. cbn [result_bind].
    destruct (getPort c "\B") as [b|] eqn:Hb; [|done]. cbn [result_bind].
    destruct (getPort c "\Y") as [y|] eqn:Hy; [|done]. cbn [result_bind].
    destruct (is_fully_const b && is_fully_zero b) eqn:Hz.
    2:{ intros [= <-]. left. split; [by rewrite andb_false_r|]. exists c.
        split; [apply entered_refl|]. split; [by rewrite set_cell_same|]. split; [|done].
        intros m2 Hc2. unfold visit, replace_ge_cell, deref. rewrite Hc2.
        cbn [result_bind]. rewrite Hnlt, Hge, Ha, Hb, Hy. cbn [result_bind].
        by rewrite Hz. }
    rewrite (parameter_eq _ _ _ _ Hc). cbn [result_bind].
    destruct (as_bool (param c "\A_SIGNED")) eqn:Hs.
    2:{ intros [= <-]. left. split; [done|].
        refine (ex_intro _ _ (conj _ (conj eq_refl (conj _ _)))); [entered_steps| |done].
        intros m2 Hc2. unfold visit, replace_ge_cell, deref. rewrite Hc2.
        cbn [result_bind]. enter_steps. rewrite Hnlt, Hge, Ha, Hb, Hy. cbn [result_bind].
        rewrite Hz.
        rewrite (parameter_present _ _ _ _ Hc2) by present. enter_steps.
        by rewrite Hs. }
    unfold ge_signed. enter_steps.
    destruct (SigSpec_fill S0 _) as [a_prime|] eqn:Hp; [|done]. cbn [result_bind].
    enter_steps.
    destruct (0 <? as_int (param c "\A_WIDTH")) eqn:Hw.
    2:{ intros [= <-]. left. split; [done|].
        refine (ex_intro _ _ (conj _ (conj eq_refl (conj _ _)))); [entered_steps| |done].
        intros m2 Hc2. unfold visit, replace_ge_cell, ge_signed, deref. rewrite Hc2.
        cbn [result_bind]. enter_steps. rewrite Hnlt, Hge, Ha, Hb, Hy. cbn [result_bind].
        rewrite Hz.
        rewrite (parameter_present _ _ _ _ Hc2) by present. enter_steps.
        rewrite Hs.
        rewrite (parameter_present _ _ _ _ Hc2) by present. enter_steps.
        rewrite Hp. cbn [result_bind].
        rewrite (parameter_present _ _ _ _ Hc2) by present. enter_steps.
        by rewrite Hw. }
    destruct (sign_bit_into a_prime a _) as [a_prime'|]; [|done]. cbn [result_bind].
    rewrite remove_set_cell. cbn [result_bind]. unfold addNot. simpl.
    destruct (delete x (cells_ m) !! "$not") eqn:Hnot; [done|].
    intros [= <-]. right; right. split_and!; try done.
    eexists. split; [|done]. done.
Qed.

Lemma visit_not_cell m x c :
  cells_ m !! x = Some c -> type c = "$not" -> visit m x = Ok m.
Proof. intros Hc Hty. unfold visit, deref. rewrite Hc. simpl. by rewrite Hty. Qed.

Lemma visit_ok_cell m x m' : visit m x = Ok m' -> exists c, cells_ m !! x = Some c.
Proof.
  unfold visit, deref. destruct (cells_ m !! x) as [c|]; [eauto|done].
Qed.

(** The cells after a visit: those before it, the visited one up to the
    parameters entered, and maybe [$not]. *)
Lemma visit_cells m y m' x c :
  visit m y = Ok m' -> cells_ m' !! x = Some c ->
  (x = "$not" /\ type c = "$not") \/
  (exists c0, cells_ m !! x = Some c0 /\ entered c0 c /\ (x <> y -> c0 = c)).
Proof.
  intros Hv Hx. destruct (visit_ok_cell _ _ _ Hv) as [cy Hcy].
  destruct (visit_inv _ _ _ _ Hcy Hv)
    as [(_ & c' & He & -> & _)|[(_ & _ & out & y' & ->)|(_ & _ & _ & n & Hn & ->)]];
    simpl in Hx.
  - right. destruct (decide (y = x)) as [->|Hne].
    + rewrite lookup_insert_eq in Hx. simplify_eq. by exists cy.
    + rewrite lookup_insert_ne in Hx by done. exists c.
      split; [done|]. split; [apply entered_refl|done].
  - apply lookup_delete_Some in Hx as [_ ?]. right. exists c.
    split; [done|]. split; [apply entered_refl|done].
  - apply lookup_insert_Some in Hx as [[<- <-]|[_ Hx]]; [by left|].
    apply lookup_delete_Some in Hx as [_ ?]. right. exists c.
    split; [done|]. split; [apply entered_refl|done].
Qed.

(** A visit of [y] keeps every other cell. *)
Lemma visit_other m y m' x c :
  visit m y = Ok m' -> cells_ m !! x = Some c -> x <> y -> cells_ m' !! x = Some c.
Proof.
  intros Hv Hx Hne. destruct (visit_ok_cell _ _ _ Hv) as [cy Hcy].
  destruct (visit_inv _ _ _ _ Hcy Hv)
    as [(_ & c' & He & -> & _)|[(_ & _ & out & y' & ->)|(_ & _ & Hnot & n & Hn & ->)]];
    simpl.
  - by rewrite lookup_insert_ne.
  - by rewrite lookup_delete_ne.
  - destruct (decide (x = "$not")) as [->|Hx'].
    + rewrite lookup_delete_ne in Hnot by congruence. congruence.
    + rewrite lookup_insert_ne by congruence. by rewrite lookup_delete_ne.
Qed.

Lemma visit_connections m y m' :
  visit m y = Ok m' -> exists more, connections m' = (connections m ++ more)%list.
Proof.
  intros Hv. destruct (visit_ok_cell _ _ _ Hv) as [cy Hcy].
  destruct (visit_inv _ _ _ _ Hcy Hv)
    as [(_ & c' & He & -> & _)|[(_ & _ & out & y' & ->)|(_ & _ & Hnot & n & Hn & ->)]];
    simpl.
  - exists []. by rewrite app_nil_r.
  - eauto.
  - exists []. by rewrite app_nil_r.
Qed.

(** ** The loop *)

Lemma for_cells_same (body : Module -> string -> Result Module) m l :
  (forall x, x ∈ l -> body m x = Ok m) -> for_cells body m l = Ok m.
Proof.
  induction l as [|y l IH]; intros Hall; simpl; [done|].
  rewrite Hall by (by left). simpl. apply IH. intros x Hx. apply Hall. by right.
Qed.

(** A cell of the result is [$not]; or it is a cell of the module as it
    was, up to the parameters entered, and if it was visited a visit of it
    changes nothing. *)
Lemma for_cells_cells l : forall m m1,
  for_cells visit m l = Ok m1 ->
  forall x c, cells_ m1 !! x = Some c ->
    (x = "$not" /\ type c = "$not") \/
    (exists c0, cells_ m !! x = Some c0 /\ entered c0 c /\
       (x ∈ l -> forall m2, cells_ m2 !! x = Some c -> visit m2 x = Ok m2) /\
       (x ∉ l -> c0 = c)).
Proof.
  induction l as [|y l IH]; intros m m1 Hfor x c Hx; simpl in Hfor.
  { simplify_eq. right. exists c. split; [done|]. split; [apply entered_refl|].
    split; [|done]. intros Hin. by apply elem_of_nil in Hin. }
  destruct (visit m y) as [m'|] eqn:Hv; [|done]. simpl in Hfor.
  destruct (IH _ _ Hfor x c Hx) as [?|(c' & Hx' & He' & Hin' & Hout')]; [by left|].
  destruct (visit_cells _ _ _ _ _ Hv Hx') as [[-> Hty]|(c0 & Hxm & He0 & Hne0)].
  { left. split; [done|]. destruct He' as (-> & _). done. }
  right. exists c0. split; [done|]. split; [by eapply entered_trans|]. split.
  - intros Hin. destruct (decide (x ∈ l)) as [Hl|Hl]; [by apply Hin'|].
    apply elem_of_cons in Hin as [->|Hin]; [|done].
    rewrite <- (Hout' Hl) in *.
    destruct (visit_inv _ _ _ _ Hxm Hv)
      as [(_ & c2 & _ & -> & Hinert & _)|[(_ & _ & out & y' & ->)|(_ & _ & Hnot & n & Hn & ->)]].
    + rewrite lookup_set_cell in Hx'. by simplify_eq.
    + simpl in Hx'. by rewrite lookup_delete_eq in Hx'.
    + simpl in Hx'. apply lookup_insert_Some in Hx' as [[<- <-]|[_ Hx']].
      * intros m2 Hm2. by eapply visit_not_cell.
      * by rewrite lookup_delete_eq in Hx'.
  - intros [Hne Hl]%not_elem_of_cons. rewrite Hne0 by done. by apply Hout'.
Qed.

(** Cells that are not visited stay; visited cells that are no signed
    comparison with zero stay, up to the parameters entered. *)
Lemma for_cells_stays l : forall m m1,
  for_cells visit m l = Ok m1 ->
  forall x c, cells_ m !! x = Some c -> (x ∈ l -> signed_zero_compare c = false) ->
    exists c', cells_ m1 !! x = Some c' /\ entered c c' /\
      ((x ∈ l -> (type c =? "$lt")%string || (type c =? "$ge")%string = false) -> c' = c).
Proof.
  induction l as [|y l IH]; intros m m1 Hfor x c Hx Hs; simpl in Hfor.
  { simplify_eq. exists c. split; [done|]. split; [apply entered_refl|done]. }
  destruct (visit m y) as [m'|] eqn:Hv; [|done]. simpl in Hfor.
  destruct (decide (x = y)) as [->|Hne].
  - destruct (visit_inv _ _ _ _ Hx Hv)
      as [(_ & c2 & He2 & -> & _ & Hty2)|[(Hf & _)|(Hf & _)]];
      [|rewrite Hs in Hf by (by left); done..].
    destruct (IH _ _ Hfor y c2 (lookup_set_cell _ _ _)) as (c' & Hc' & He' & Hty').
    { intros _. rewrite (entered_signed_zero_compare _ _ He2). apply Hs. by left. }
    exists c'. split; [done|]. split; [by eapply entered_trans|].
    intros Hty. specialize (Hty ltac:(by left)).
    assert (c2 = c) as -> by auto. apply Hty'. by intros _.
  - destruct (IH _ _ Hfor x c (visit_other _ _ _ _ _ Hv Hx Hne)) as (c' & Hc' & He' & Hty').
    { intros Hin. apply Hs. by right. }
    exists c'. split; [done|]. split; [done|].
    intros Hty. apply Hty'. intros Hin. apply Hty. by right.
Qed.

(** Visited signed comparisons with zero are gone. *)
Lemma for_cells_removes l : forall m m1,
  for_cells visit m l = Ok m1 ->
  forall x c, cells_ m !! x = Some c -> x ∈ l -> signed_zero_compare c = true ->
              x <> "$not" -> cells_ m1 !! x = None.
Proof.
  induction l as [|y l IH]; intros m m1 Hfor x c Hx Hin Hs Hnot; simpl in Hfor.
  { by apply elem_of_nil in Hin. }
  destruct (visit m y) as [m'|] eqn:Hv; [|done]. simpl in Hfor.
  destruct (decide (x = y)) as [->|Hne].
  - assert (Hgone : cells_ m' !! y = None).
    { destruct (visit_inv _ _ _ _ Hx Hv)
        as [[Hf _]|[(_ & _ & out & y' & ->)|(_ & _ & _ & n & Hn & ->)]]; simpl.
      - congruence.
      - by rewrite lookup_delete_eq.
      - rewrite lookup_insert_ne by done. by rewrite lookup_delete_eq. }
    destruct (cells_ m1 !! y) as [c1|] eqn:Hc1; [|done].
    destruct (for_cells_cells _ _ _ Hfor y c1 Hc1) as [[? _]|(? & ? & _)]; congruence.
  - apply elem_of_cons in Hin as [?|Hin]; [done|].
    eapply IH; try done. by eapply visit_other.
Qed.

Lemma for_cells_connections l : forall m m1,
  for_cells visit m l = Ok m1 ->
  exists more, connections m1 = (connections m ++ more)%list.
Proof.
  induction l as [|y l IH]; intros m m1 Hfor; simpl in Hfor.
  { simplify_eq. exists []. by rewrite app_nil_r. }
  destruct (visit m y) as [m'|] eqn:Hv; [|done]. simpl in Hfor.
  destruct (visit_connections _ _ _ Hv) as [d1 Hd1].
  destruct (IH _ _ Hfor) as [d2 Hd2]. exists (d1 ++ d2)%list.
  by rewrite Hd2, Hd1, app_assoc.
Qed.

(** A visit keeps a cell [$not]. *)
Lemma visit_keeps_not m y m' n :
  visit m y = Ok m' -> cells_ m !! "$not" = Some n -> type n = "$not" ->
  exists n', cells_ m' !! "$not" = Some n' /\ type n' = "$not".
Proof.
  intros Hv Hn Hty. destruct (decide ("$not" = y)) as [<-|Hne].
  - rewrite (visit_not_cell _ _ _ Hn Hty) in Hv. simplify_eq. eauto.
  - exists n. split; [|done]. by eapply visit_other.
Qed.

(** Once the cell [$not] is there no [x >= 0] can be replaced. *)
Lemma for_cells_blocked l : forall m m1 n,
  cells_ m !! "$not" = Some n -> type n = "$not" ->
  for_cells visit m l = Ok m1 ->
  forall x c, x ∈ l -> cells_ m !! x = Some c -> signed_zero_compare c = true ->
              type c = "$ge" -> False.
Proof.
  induction l as [|y l IH]; intros m m1 n Hn Hty Hfor x c Hin Hx Hs Hge; simpl in Hfor.
  { by apply elem_of_nil in Hin. }
  destruct (visit m y) as [m'|] eqn:Hv; [|done]. simpl in Hfor.
  destruct (visit_keeps_not _ _ _ _ Hv Hn Hty) as (n' & Hn' & Hty').
  destruct (visit_ok_cell _ _ _ Hv) as [cy Hcy].
  destruct (decide (x = y)) as [->|Hne].
  - destruct (visit_inv _ _ _ _ Hcy Hv)
      as [(Hf & _)|[(_ & Hlt & _)|(_ & _ & Hnot & _)]]; [congruence|congruence|].
    destruct (decide (y = "$not")) as [->|Hne]; [congruence|].
    rewrite lookup_delete_ne in Hnot by done. congruence.
  - apply elem_of_cons in Hin as [?|Hin]; [done|].
    eapply (IH m' m1 n'); try done. by eapply visit_other.
Qed.

(** A loop that succeeds has replaced at most one [x >= 0]. *)
Lemma for_cells_one_ge l : forall m m1,
  for_cells visit m l = Ok m1 ->
  forall x y cx cy, x ∈ l -> y ∈ l ->
    cells_ m !! x = Some cx -> cells_ m !! y = Some cy ->
    signed_zero_compare cx = true -> signed_zero_compare cy = true ->
    type cx = "$ge" -> type cy = "$ge" -> x = y.
Proof.
  induction l as [|z l IH]; intros m m1 Hfor x y cx cy Hx Hy Hcx Hcy Hsx Hsy Hgx Hgy;
    simpl in Hfor.
  { by apply elem_of_nil in Hx. }
  destruct (visit m z) as [m'|] eqn:Hv; [|done]. simpl in Hfor.
  destruct (visit_ok_cell _ _ _ Hv) as [cz Hcz].
  destruct (visit_inv _ _ _ _ Hcz Hv)
    as [(Hf & _)|[(_ & Hlt & _)|(_ & Hge' & Hnot & n & Hn & Hm')]].
  - apply elem_of_cons in Hx as [->|Hx]; [congruence|].
    apply elem_of_cons in Hy as [->|Hy]; [congruence|].
    assert (x <> z) by (intros ->; congruence).
    assert (y <> z) by (intros ->; congruence).
    eapply (IH m' m1 Hfor x y cx cy); eauto using visit_other.
  - apply elem_of_cons in Hx as [->|Hx]; [congruence|].
    apply elem_of_cons in Hy as [->|Hy]; [congruence|].
    assert (x <> z) by (intros ->; congruence).
    assert (y <> z) by (intros ->; congruence).
    eapply (IH m' m1 Hfor x y cx cy); eauto using visit_other.
  - assert (Hnone : forall u cu, u ∈ z :: l -> cells_ m !! u = Some cu ->
              signed_zero_compare cu = true -> type cu = "$ge" -> u = z).
    { intros u cu Hu Hcu Hsu Hgu. destruct (decide (u = z)) as [|Hne]; [done|].
      apply elem_of_cons in Hu as [?|Hu]; [done|]. exfalso.
      eapply (for_cells_blocked l m' m1 n); eauto using visit_other.
      subst m'. simpl. by rewrite lookup_insert_eq. }
    rewrite (Hnone x cx), (Hnone y cy); done.
Qed.

(** ** The two revisions *)

Lemma for_cells_agree l : forall m,
  (forall x c, x ∈ l -> cells_ m !! x = Some c -> unsigned_zero_compare c = false) ->
  for_cells OptCompare.visit m l = for_cells OptCompareInline.visit m l.
Proof.
  induction l as [|y l IH]; intros m Hall; simpl; [done|].
  destruct (cells_ m !! y) as [cy|] eqn:Hcy; cycle 1.
  { unfold OptCompare.visit, OptCompareInline.visit, deref. by rewrite Hcy. }
  assert (Hag : OptCompare.visit m y = OptCompareInline.visit m y).
  { apply (visit_agrees m y cy); [unfold deref; by rewrite Hcy|].
    apply (Hall y); [by left|done]. }
  rewrite <- Hag. destruct (OptCompare.visit m y) as [m'|] eqn:Hv; [|done]. simpl.
  apply IH. intros x c Hx Hc.
  destruct (visit_cells _ _ _ _ _ Hv Hc) as [[_ Hty]|(c0 & Hm & He & _)].
  - unfold unsigned_zero_compare. by rewrite Hty.
  - rewrite (entered_unsigned_zero_compare _ _ He). apply (Hall x); [by right|done].
Qed.

(** ** The loop over the modules *)

Lemma optimize_compares_selection d1 d2 mname m :
  selected_member d1 = selected_member d2 ->
  optimize_compares d1 mname m = optimize_compares d2 mname m.
Proof.
  intros Hsel. unfold optimize_compares, sorted_cells.
  assert (Hnode : is_node d1 mname m = is_node d2 mname m).
  { unfold is_node. by rewrite Hsel. }
  by rewrite Hnode.
Qed.

Lemma NoDup_selected_modules d : NoDup (selected_modules d).
Proof. apply NoDup_filter, NoDup_fst_map_to_list. Qed.

Lemma execute_modules_spec names : forall d0 d',
  execute_modules d0 names = Ok d' -> NoDup names ->
  selected_module d' = selected_module d0 /\
  selected_member d' = selected_member d0 /\
  forall x,
    (x ∉ names -> modules_ d' !! x = modules_ d0 !! x) /\
    (x ∈ names -> forall m, modules_ d0 !! x = Some m ->
       exists m', optimize_compares d0 x m = Ok m' /\ modules_ d' !! x = Some m').
Proof.
  induction names as [|n ns IH]; intros d0 d' Hex Hnd; simpl in Hex.
  { simplify_eq. split_and!; try done. intros x. split; [done|].
    intros Hx. by apply elem_of_nil in Hx. }
  apply NoDup_cons in Hnd as [Hn Hnd].
  destruct (modules_ d0 !! n) as [m|] eqn:Hm.
  - destruct (optimize_compares d0 n m) as [mm|] eqn:Hopt; [|done]. simpl in Hex.
    destruct (IH _ _ Hex Hnd) as (Hs & Hsm & Hx). simpl in Hs, Hsm.
    split_and!; try done. intros x. destruct (Hx x) as [Hout Hin]. split.
    + intros [Hne Hnin]%not_elem_of_cons. rewrite Hout by done. simpl.
      by rewrite lookup_insert_ne.
    + intros [->|Hxin]%elem_of_cons m0 Hm0.
      * simplify_eq. exists mm. split; [done|]. destruct (Hx n) as [Hout' _].
        rewrite Hout' by done. simpl. by rewrite lookup_insert_eq.
      * assert (x <> n) by (intros ->; done).
        destruct (Hin Hxin m0) as (m' & Hopt' & Hm'); [simpl; by rewrite lookup_insert_ne|].
        exists m'. split; [|done]. by rewrite <- Hopt'; apply optimize_compares_selection.
  - destruct (IH _ _ Hex Hnd) as (Hs & Hsm & Hx). split_and!; try done.
    intros x. destruct (Hx x) as [Hout Hin]. split.
    + intros [Hne Hnin]%not_elem_of_cons. by apply Hout.
    + intros [->|Hxin]%elem_of_cons m0 Hm0; [congruence|by apply Hin].
Qed.

End CompareFacts.

(** * [opt_compare]: properties of the pass *)

Section CompareExtras.
Import OptCompareBase OptCompare CompareSamples CompareFacts.

(** X13.  [optimize_compares] replaces the selected signed comparisons with
    zero and touches nothing else but the parameters that it reads.  Every
    other cell stays, up to empty constants entered for parameters that it
    lacks; it stays as it is if it is no selected [$lt] or [$ge], or if it
    has the parameters that the pass reads.  The comparisons are removed, the
    only cell that can be new is [$not], and the connections of the module
    are kept, new ones coming behind them. *)
Theorem optimize_compares_touches_signed_compares d mname m m1 :
  optimize_compares d mname m = Ok m1 ->
  (forall x c, cells_ m !! x = Some c ->
               is_node d mname m x && signed_zero_compare c = false ->
               exists c', cells_ m1 !! x = Some c' /\ entered c c') /\
  (forall x c, cells_ m !! x = Some c ->
               is_node d mname m x
               && ((type c =? "$lt")%string || (type c =? "$ge")%string) = false ->
               cells_ m1 !! x = Some c) /\
  (forall x c, cells_ m !! x = Some c ->
               is_node d mname m x && signed_zero_compare c = false ->
               (forall k, k ∈ read_params -> is_Some (parameters c !! k)) ->
               cells_ m1 !! x = Some c) /\
  (forall x c, cells_ m !! x = Some c ->
               is_node d mname m x && signed_zero_compare c = true ->
               x <> "$not" -> cells_ m1 !! x = None) /\
  (forall x c, cells_ m1 !! x = Some c ->
               (exists c0, cells_ m !! x = Some c0 /\ entered c0 c) \/
               (x = "$not" /\ type c = "$not")) /\
  (exists more, connections m1 = (connections m ++ more)%list).
Proof.
  unfold optimize_compares. intros Hfor.
  assert (Hstay : forall x c, cells_ m !! x = Some c ->
            is_node d mname m x && signed_zero_compare c = false ->
            exists c', cells_ m1 !! x = Some c' /\ entered c c').
  { intros x c Hx Hn.
    destruct (for_cells_stays _ _ _ Hfor x c Hx) as (c' & Hc' & He' & _); [|eauto].
    intros Hin%elem_of_sorted_cells. by rewrite Hin in Hn. }
  split_and!.
  - exact Hstay.
  - intros x c Hx Hn.
    destruct (for_cells_stays _ _ _ Hfor x c Hx) as (c' & Hc' & _ & Hsame).
    + intros Hin%elem_of_sorted_cells. rewrite Hin in Hn. simpl in Hn.
      unfold signed_zero_compare. by rewrite Hn.
    + rewrite Hc'. f_equal. apply Hsame.
      intros Hin%elem_of_sorted_cells. by rewrite Hin in Hn.
  - intros x c Hx Hn Hall. destruct (Hstay x c Hx Hn) as (c' & Hc' & He').
    by rewrite Hc', (entered_all_present _ _ He' Hall).
  - intros x c Hx [Hn Hs]%andb_prop Hnot. eapply for_cells_removes; try done.
    by apply elem_of_sorted_cells.
  - intros x c Hx.
    destruct (for_cells_cells _ _ _ Hfor x c Hx) as [?|(c0 & ? & ? & _)]; eauto.
  - by eapply for_cells_connections.
Qed.

(** X14.  [optimize_compares] is idempotent: run on its own result it
    succeeds and changes nothing. *)
Theorem optimize_compares_idempotent d mname m m1 :
  optimize_compares d mname m = Ok m1 -> optimize_compares d mname m1 = Ok m1.
Proof.
  unfold optimize_compares. intros Hfor. apply for_cells_same.
  intros x Hx%elem_of_sorted_cells. unfold is_node in Hx.
  destruct (cells_ m1 !! x) as [c|] eqn:Hc; [|done].
  destruct (for_cells_cells _ _ _ Hfor x c Hc) as [[_ Hty]|(c0 & Hm & He & Hin & _)].
  - by eapply visit_not_cell.
  - apply Hin; [|done]. apply elem_of_sorted_cells. unfold is_node. rewrite Hm.
    destruct He as (<- & _). done.
Qed.

(** X15.  The cell that replaces [x >= 0] is always named [$not], so the
    pass cannot replace two of them in one module: it fails on every module
    with two selected signed comparisons [x >= 0]. *)
Theorem optimize_compares_fails_on_two_ge d mname m x y cx cy :
  is_node d mname m x = true -> is_node d mname m y = true -> x <> y ->
  cells_ m !! x = Some cx -> cells_ m !! y = Some cy ->
  signed_zero_compare cx = true -> signed_zero_compare cy = true ->
  type cx = "$ge" -> type cy = "$ge" ->
  exists f, optimize_compares d mname m = Abort f.
Proof.
  intros Hx Hy Hne Hcx Hcy Hsx Hsy Hgx Hgy. unfold optimize_compares.
  destruct (for_cells visit m (sorted_cells d mname m)) as [m1|f] eqn:Hfor; [|by exists f].
  destruct Hne.
  eapply (for_cells_one_ge _ _ _ Hfor x y cx cy); try done; by apply elem_of_sorted_cells.
Qed.

(** X16.  The two revisions of [optimize_compares] agree on every module
    in which no selected cell is a comparison of an unsigned signal with
    zero. *)
Theorem revisions_agree_without_unsigned d mname m :
  (forall x c, is_node d mname m x = true -> cells_ m !! x = Some c ->
               unsigned_zero_compare c = false) ->
  OptCompare.optimize_compares d mname m = OptCompareInline.optimize_compares d mname m.
Proof.
  intros Hall. unfold OptCompare.optimize_compares, OptCompareInline.optimize_compares.
  apply for_cells_agree. intros x c Hx%elem_of_sorted_cells Hc. by apply (Hall x).
Qed.

(** X17.  [OptCompare::execute] treats the selected modules one by one and
    independently: every selected module is replaced by what
    [optimize_compares] makes of it, every other module is left alone, and
    the selection stays. *)
Theorem execute_optimizes_each_selected_module d :
  match execute d with
  | Ok d' =>
      selected_module d' = selected_module d /\
      selected_member d' = selected_member d /\
      forall x,
        (selected_module d x = false -> modules_ d' !! x = modules_ d !! x) /\
        (selected_module d x = true -> forall m, modules_ d !! x = Some m ->
           exists m', optimize_compares d x m = Ok m' /\ modules_ d' !! x = Some m')
  | Abort _ => True
  end.
Proof.
  unfold execute. destruct (execute_modules d (selected_modules d)) as [d'|] eqn:Hex; [|done].
  destruct (execute_modules_spec _ _ _ Hex (NoDup_selected_modules d)) as (Hs & Hm & Hx).
  split_and!; try done. intros x. destruct (Hx x) as [Hout Hin]. split.
  - intros Hsel. apply Hout. intros [? _]%PassFacts.elem_of_selected_modules. congruence.
  - intros Hsel m0 Hm0. apply Hin; [|done].
    apply PassFacts.elem_of_selected_modules. split; [done|by exists m0].
Qed.

(** X18.  A signed comparison with zero is replaced only if the widths fit:
    the visit of it succeeds only if port A has at least [A_WIDTH] bits and
    [Y_WIDTH] is at least 1. *)
Theorem replacement_needs_fitting_widths m x c m' :
  cells_ m !! x = Some c -> signed_zero_compare c = true -> visit m x = Ok m' ->
  exists a, getPort c "\A" = Ok a /\
            as_int (param c "\A_WIDTH") <= Z.of_nat (length a) /\
            1 <= as_int (param c "\Y_WIDTH").
Proof.
  intros Hc. unfold visit, replace_le_cell, replace_ge_cell, signed_zero_compare, deref.
  rewrite Hc. cbn [result_bind].
  assert (Hfit : forall sig a w r width,
            SigSpec_fill S0 width = Ok sig -> sign_bit_into sig a w = Ok r ->
            w <= Z.of_nat (length a) /\ 1 <= width).
  { intros sig a w r width. unfold SigSpec_fill, sign_bit_into, SigSpec_at, SigSpec_set.
    destruct (width <? 0) eqn:Hw; [done|]. intros [= <-].
    destruct (w - 1 <? 0) eqn:Hw1; [done|].
    destruct (a !! Z.to_nat (w - 1)) as [top|] eqn:Ha; [|done]. simpl.
    case_bool_decide as Hlen; [|done]. intros _.
    apply lookup_lt_Some in Ha. rewrite length_replicate in Hlen. lia. }
  destruct (String.eqb_spec (type c) "$lt") as [Hlt|Hlt]; cbn [result_bind orb andb].
  - rewrite ?Hc. cbn [result_bind].
    destruct (getPort c "\A") as [a|]; [|done]. cbn [result_bind].
    destruct (getPort c "\B") as [b|]; [|done]. cbn [result_bind].
    rewrite (parameter_eq _ _ _ _ Hc). cbn [result_bind].
    destruct (SigSpec_fill S0 _) as [y|] eqn:Hy; [|done]. cbn [result_bind].
    destruct (is_fully_const b && is_fully_zero b); [|by rewrite andb_false_r].
    unfold lt_signed. enter_steps.
    destruct (as_bool (param c "\A_SIGNED")); [|done].
    destruct (0 <? as_int (param c "\A_WIDTH")); [|done].
    destruct (sign_bit_into y a _) as [y'|] eqn:Hy'; [|done]. intros _ _.
    exists a. split; [done|]. by eapply Hfit.
  - destruct (String.eqb_spec (type c) "$ge") as [Hge|Hge]; cbn [result_bind orb andb];
      [|done].
    rewrite ?Hc. cbn [result_bind].
    destruct (getPort c "\A") as [a|]; [|done]. cbn [result_bind].
    destruct (getPort c "\B") as [b|]; [|done]. cbn [result_bind].
    destruct (getPort c "\Y") as [y|]; [|done]. cbn [result_bind].
    destruct (is_fully_const b && is_fully_zero b); [|by rewrite andb_false_r].
    rewrite (parameter_eq _ _ _ _ Hc). cbn [result_bind].
    destruct (as_bool (param c "\A_SIGNED")); [|done].
    unfold ge_signed. enter_steps.
    destruct (SigSpec_fill S0 _) as [a_prime|] eqn:Hp; [|done]. cbn [result_bind].
    enter_steps.
    destruct (0 <? as_int (param c "\A_WIDTH")); [|done].
    destruct (sign_bit_into a_prime a _) as [a_prime'|] eqn:Hp'; [|done]. intros _ _.
    exists a. split; [done|]. by eapply Hfit.
Qed.

End CompareExtras.

(** * [opt_compare] on the sample modules *)

Section CompareRuns.
Import OptCompareBase OptCompare CompareSamples.

Lemma optimize_compares_touches_signed_compares_witness :
  (forall x c, cells_ (with_bare "$lt") !! x = Some c ->
     is_node (whole (with_bare "$lt")) "top" (with_bare "$lt") x
     && signed_zero_compare c = false ->
     exists c', cells_ (optimized (with_bare "$lt")) !! x = Some c' /\ entered c c') /\
  (forall x c, cells_ (with_bare "$lt") !! x = Some c ->
     is_node (whole (with_bare "$lt")) "top" (with_bare "$lt") x
     && ((type c =? "$lt")%string || (type c =? "$ge")%string) = false ->
     cells_ (optimized (with_bare "$lt")) !! x = Some c) /\
  (forall x c, cells_ (with_bare "$lt") !! x = Some c ->
     is_node (whole (with_bare "$lt")) "top" (with_bare "$lt") x
     && signed_zero_compare c = false ->
     (forall k, k ∈ read_params -> is_Some (parameters c !! k)) ->
     cells_ (optimized (with_bare "$lt")) !! x = Some c) /\
  (forall x c, cells_ (with_bare "$lt") !! x = Some c ->
     is_node (whole (with_bare "$lt")) "top" (with_bare "$lt") x
     && signed_zero_compare c = true ->
     x <> "$not" -> cells_ (optimized (with_bare "$lt")) !! x = None) /\
  (forall x c, cells_ (optimized (with_bare "$lt")) !! x = Some c ->
     (exists c0, cells_ (with_bare "$lt") !! x = Some c0 /\ entered c0 c) \/
     (x = "$not" /\ type c = "$not")) /\
  (exists more,
     connections (optimized (with_bare "$lt"))
     = (connections (with_bare "$lt") ++ more)%list).
Proof.
  apply (optimize_compares_touches_signed_compares
           (whole (with_bare "$lt")) "top" (with_bare "$lt")
           (optimized (with_bare "$lt"))).
  vm_compute. reflexivity.
Defined.

Lemma optimize_compares_idempotent_witness :
  optimize_compares (whole (two_compares "$lt" "$ge")) "top"
    (optimized (two_compares "$lt" "$ge"))
  = Ok (optimized (two_compares "$lt" "$ge")).
Proof.
  apply (optimize_compares_idempotent
           (whole (two_compares "$lt" "$ge")) "top" (two_compares "$lt" "$ge")).
  vm_compute. reflexivity.
Defined.

Lemma optimize_compares_fails_on_two_ge_witness :
  exists f,
    optimize_compares (whole (two_compares "$ge" "$ge")) "top" (two_compares "$ge" "$ge")
    = Abort f.
Proof.
  apply (optimize_compares_fails_on_two_ge
           (whole (two_compares "$ge" "$ge")) "top" (two_compares "$ge" "$ge")
           "cmp1" "cmp2" (compare_cell "$ge" true) (compare_cell "$ge" true));
    try (vm_compute; reflexivity).
  discriminate.
Defined.

Lemma revisions_agree_without_unsigned_witness :
  OptCompare.optimize_compares (whole (one_compare "$ge" true)) "top"
    (one_compare "$ge" true)
  = OptCompareInline.optimize_compares (whole (one_compare "$ge" true)) "top"
      (one_compare "$ge" true).
Proof.
  apply (revisions_agree_without_unsigned
           (whole (one_compare "$ge" true)) "top" (one_compare "$ge" true)).
  intros x c _ Hc. simpl in Hc. apply lookup_singleton_Some in Hc as [_ <-].
  vm_compute. reflexivity.
Defined.

Lemma replacement_needs_fitting_widths_witness :
  exists a, getPort (compare_cell "$lt" true) "\A" = Ok a /\
            as_int (param (compare_cell "$lt" true) "\A_WIDTH") <= Z.of_nat (length a) /\
            1 <= as_int (param (compare_cell "$lt" true) "\Y_WIDTH").
Proof.
  apply (replacement_needs_fitting_widths (one_compare "$lt" true) "cmp"
           (compare_cell "$lt" true) (optimized (one_compare "$lt" true)));
    vm_compute; reflexivity.
Defined.

(** What the pass makes of the samples: [a < 0] becomes a connection of the
    output to the top bit of [a], [a >= 0] becomes a [$not] of that bit; two
    [a >= 0] in one module stop the pass at the second [addNot]. *)
Example compare_samples_optimized :
  optimized (one_compare "$lt" true)
  = mkModule ∅ [([WireBit "y" 0], [WireBit "a" 1])] /\
  cells_ (optimized (one_compare "$ge" true)) !! "cmp" = None /\
  type <$> cells_ (optimized (one_compare "$ge" true)) !! "$not" = Some "$not" /\
  optimize_compares (whole (two_compares "$ge" "$ge")) "top" (two_compares "$ge" "$ge")
  = Abort (NameInUse "$not").
Proof. split_and!; vm_compute; reflexivity. Qed.

(** A comparison that lacks the parameters is left in the module, with empty
    constants entered for the parameters that were read: [\Y_WIDTH] and
    [\A_SIGNED] for [$lt], [\A_SIGNED] alone for [$ge].  The signed [a < 0]
    beside it is replaced. *)
Example bare_compare_entered :
  optimized (with_bare "$lt")
  = mkModule
      {["cmp2" := mkCell "$lt" (connections_ (bare_compare "$lt"))
                    {["\Y_WIDTH" := []; "\A_SIGNED" := []]}]}
      [([WireBit "y" 0], [WireBit "a" 1])] /\
  optimized (with_bare "$ge")
  = mkModule
      {["cmp2" := mkCell "$ge" (connections_ (bare_compare "$ge"))
                    {["\A_SIGNED" := []]}]}
      [([WireBit "y" 0], [WireBit "a" 1])] /\
  optimize_compares (whole (with_bare "$lt")) "top" (optimized (with_bare "$lt"))
  = Ok (optimized (with_bare "$lt")).
Proof. split_and!; vm_compute; reflexivity. Qed.

End CompareRuns.
